(** * IntelTracker: change detection, trend aggregation and monitoring loop

    A shallow embedding of the core of [IntelTracker/agent.py]:
    the fingerprint cache ([MonitoringEngine._filter_new_updates],
    [MonitoringEngine._update_cache]), the trend store
    ([TrendAnalyzer.record_finding], [TrendAnalyzer.get_competitor_trends]),
    the rule-based analyzer ([AIAnalyzer]), the extractors of
    [ContentExtractor] over parsed HTML, the orchestration loop
    ([MonitoringEngine.monitor_competitor], [MonitoringEngine.monitor_all]),
    and the tools that edit the list of competitors, the cache and the
    configuration ([add_competitor], [remove_competitor],
    [toggle_competitor], [check_single_competitor], [reset_cache],
    [configure_monitoring], [configure_email_notifications]).

    Conventions.
    - A Python [str] is a [string]; each character stands for the code point
      of the same number (0..255).  [str.encode()] is UTF-8, and raises on
      none of these strings.  Text with other characters lies outside the
      development; so does, in particular, a lone surrogate, which the HTML
      parser yields for a character reference such as [&#55357;] and on
      which [str.encode()] raises [UnicodeEncodeError]: what is stated of a
      fingerprint is stated of a call that could compute it.
    - A Python [dict] with string keys is a [gmap string _]; a [set] is a
      [gset] or, where it is only iterated, a list without duplicates.
    - A Python function that may raise returns a [result].  The exceptions
      are instances of [Exception], the ones [except Exception] catches;
      [KeyboardInterrupt] and [SystemExit] end the process and are not
      modelled.
    - What leaves the process (feed and HTTP requests, the HTML parser, the
      search fallback, the Gemini call, the clock) is a field of [Env];
      what the process keeps (cache, trend store, competitor list, and the
      log lines and delays a caller can observe) is a field of [World].
    - File input and output are taken to succeed: [trends.json],
      [content_cache.json] and [competitors.json] hold what was last
      written. *)

From Stdlib Require Import ZArith Ascii.
From stdpp Require Import gmap strings list fin_maps pretty.

(* ===================================================================== *)
(** * Python strings *)
(* ===================================================================== *)

Module PyStr.
Local Open Scope Z_scope.

Definition to_list (s : string) : list ascii := String.list_ascii_of_string s.
Definition of_list (l : list ascii) : string := String.string_of_list_ascii l.

(** [len(s)] *)
Definition len (s : string) : nat := String.length s.

(** [s[:n]] for [n >= 0] *)
Fixpoint slice_to (n : nat) (s : string) : string :=
  match n, s with
  | S n', String c s' => String c (slice_to n' s')
  | _, _ => EmptyString
  end.

(** [not s]: the empty string is the only falsy string. *)
Definition is_empty (s : string) : bool :=
  match s with EmptyString => true | _ => false end.

(** code point of a character *)
Definition ord (c : ascii) : Z := Z.of_nat (nat_of_ascii c).

(** [str.encode()]: UTF-8 of code points below 256. *)
Definition encode_char (c : ascii) : list Z :=
  let n := ord c in
  if n <? 128 then [n]
  else [Z.lor 192 (Z.shiftr n 6); Z.lor 128 (Z.land n 63)].

Fixpoint encode (s : string) : list Z :=
  match s with
  | EmptyString => []
  | String c s' => encode_char c ++ encode s'
  end.

(** [str.isspace()] on one character (code points below 256) *)
Definition is_space (c : ascii) : bool :=
  let n := ord c in
  ((9 <=? n) && (n <=? 13)) || ((28 <=? n) && (n <=? 32))
  || (n =? 133) || (n =? 160).

(** [str.lower()] on one character (code points below 256) *)
Definition lower_char (c : ascii) : ascii :=
  let n := ord c in
  if ((65 <=? n) && (n <=? 90))
     || ((192 <=? n) && (n <=? 222) && negb (n =? 215))
  then ascii_of_nat (Z.to_nat (n + 32)) else c.

Fixpoint lower (s : string) : string :=
  match s with
  | EmptyString => EmptyString
  | String c s' => String (lower_char c) (lower s')
  end.

(** [sub in s] *)
Fixpoint contains (sub s : string) : bool :=
  String.prefix sub s ||
  match s with
  | EmptyString => false
  | String _ s' => contains sub s'
  end.

(** [sep.join(parts)] *)
Fixpoint join (sep : string) (parts : list string) : string :=
  match parts with
  | [] => EmptyString
  | [p] => p
  | p :: rest => p +:+ sep +:+ join sep rest
  end.

(** [s.split()]: maximal runs of non-whitespace characters *)
Fixpoint split_ws_aux (cur : list ascii) (s : string) : list string :=
  match s with
  | EmptyString =>
      match cur with [] => [] | _ => [of_list (rev cur)] end
  | String c s' =>
      if is_space c then
        match cur with
        | [] => split_ws_aux [] s'
        | _ => of_list (rev cur) :: split_ws_aux [] s'
        end
      else split_ws_aux (c :: cur) s'
  end.

Definition split_ws (s : string) : list string := split_ws_aux [] s.

(** [s.split(sep)] for a one-character separator; never the empty list *)
Fixpoint split_on (sep : ascii) (s : string) : list string :=
  match s with
  | EmptyString => [EmptyString]
  | String c s' =>
      if Ascii.eqb c sep then EmptyString :: split_on sep s'
      else match split_on sep s' with
           | h :: t => String c h :: t
           | [] => [String c EmptyString]
           end
  end.

(** [s.strip()] *)
Fixpoint lstrip (s : string) : string :=
  match s with
  | EmptyString => EmptyString
  | String c s' => if is_space c then lstrip s' else s
  end.

Definition rstrip (s : string) : string :=
  of_list (rev (to_list (lstrip (of_list (rev (to_list s)))))).

Definition strip (s : string) : string := rstrip (lstrip s).

(** [s.replace(old, '')]: occurrences are removed left to right, without
    overlap; an empty [old] leaves [s] as it is. *)
Fixpoint replace_del_aux (old : string) (skip : nat) (s : string) : string :=
  match s with
  | EmptyString => EmptyString
  | String c s' =>
      match skip with
      | S k => replace_del_aux old k s'
      | O => if String.prefix old s
             then replace_del_aux old (len old - 1) s'
             else String c (replace_del_aux old 0 s')
      end
  end.

Definition replace_del (old s : string) : string :=
  if is_empty old then s else replace_del_aux old 0 s.

End PyStr.

(* ===================================================================== *)
(** * [hashlib.md5(...).hexdigest()] (RFC 1321) *)
(* ===================================================================== *)

Module Md5.
Local Open Scope Z_scope.

Definition w32 (x : Z) : Z := x mod 2 ^ 32.
Definition add32 (x y : Z) : Z := w32 (x + y).
Definition not32 (x : Z) : Z := Z.lxor x 0xFFFFFFFF.
Definition rotl32 (x c : Z) : Z :=
  Z.lor (w32 (Z.shiftl x c)) (Z.shiftr x (32 - c)).

Definition shifts : list Z :=
  [ 7; 12; 17; 22; 7; 12; 17; 22; 7; 12; 17; 22; 7; 12; 17; 22;
    5;  9; 14; 20; 5;  9; 14; 20; 5;  9; 14; 20; 5;  9; 14; 20;
    4; 11; 16; 23; 4; 11; 16; 23; 4; 11; 16; 23; 4; 11; 16; 23;
    6; 10; 15; 21; 6; 10; 15; 21; 6; 10; 15; 21; 6; 10; 15; 21 ].

(** [K[i] = floor(2^32 * |sin(i + 1)|)] *)
Definition sines : list Z :=
  [ 0xd76aa478; 0xe8c7b756; 0x242070db; 0xc1bdceee;
    0xf57c0faf; 0x4787c62a; 0xa8304613; 0xfd469501;
    0x698098d8; 0x8b44f7af; 0xffff5bb1; 0x895cd7be;
    0x6b901122; 0xfd987193; 0xa679438e; 0x49b40821;
    0xf61e2562; 0xc040b340; 0x265e5a51; 0xe9b6c7aa;
    0xd62f105d; 0x02441453; 0xd8a1e681; 0xe7d3fbc8;
    0x21e1cde6; 0xc33707d6; 0xf4d50d87; 0x455a14ed;
    0xa9e3e905; 0xfcefa3f8; 0x676f02d9; 0x8d2a4c8a;
    0xfffa3942; 0x8771f681; 0x6d9d6122; 0xfde5380c;
    0xa4beea44; 0x4bdecfa9; 0xf6bb4b60; 0xbebfbc70;
    0x289b7ec6; 0xeaa127fa; 0xd4ef3085; 0x04881d05;
    0xd9d4d039; 0xe6db99e5; 0x1fa27cf8; 0xc4ac5665;
    0xf4292244; 0x432aff97; 0xab9423a7; 0xfc93a039;
    0x655b59c3; 0x8f0ccc92; 0xffeff47d; 0x85845dd1;
    0x6fa87e4f; 0xfe2ce6e0; 0xa3014314; 0x4e0811a1;
    0xf7537e82; 0xbd3af235; 0x2ad7d2bb; 0xeb86d391 ].

(** little-endian bytes of a word, and back *)
Fixpoint le_bytes (n : nat) (x : Z) : list Z :=
  match n with
  | O => []
  | S n' => x mod 256 :: le_bytes n' (x / 256)
  end.

Fixpoint le_word (bs : list Z) : Z :=
  match bs with
  | [] => 0
  | b :: bs' => b + 256 * le_word bs'
  end.

(** message padding: a 1 bit, zeros up to 56 mod 64, the bit length *)
Definition pad (msg : list Z) : list Z :=
  let n := Z.of_nat (length msg) in
  msg ++ [128] ++ repeat 0 (Z.to_nat ((55 - n) mod 64))
      ++ le_bytes 8 ((8 * n) mod 2 ^ 64).

(** the sixteen 32-bit words of a 64-byte block *)
Fixpoint words (n : nat) (bs : list Z) : list Z :=
  match n with
  | O => []
  | S n' => le_word (take 4 bs) :: words n' (drop 4 bs)
  end.

Record state := State { sa : Z; sb : Z; sc : Z; sd : Z }.

Definition init : state :=
  State 0x67452301 0xefcdab89 0x98badcfe 0x10325476.

Definition round (m : list Z) (st : state) (i : Z) : state :=
  let '(State a b c d) := st in
  let '(f, g) :=
    if i <? 16 then (Z.lor (Z.land b c) (Z.land (not32 b) d), i)
    else if i <? 32 then
      (Z.lor (Z.land d b) (Z.land (not32 d) c), (5 * i + 1) mod 16)
    else if i <? 48 then (Z.lxor b (Z.lxor c d), (3 * i + 5) mod 16)
    else (Z.lxor c (Z.lor b (not32 d)), (7 * i) mod 16) in
  let k := default 0 (sines !! Z.to_nat i) in
  let s := default 0 (shifts !! Z.to_nat i) in
  let x := default 0 (m !! Z.to_nat g) in
  let f' := add32 (add32 (add32 f a) k) x in
  State d (add32 b (rotl32 f' s)) b c.

Definition block (st : state) (bs : list Z) : state :=
  let m := words 16 bs in
  let '(State a b c d) := foldl (round m) st (seqZ 0 64) in
  State (add32 (sa st) a) (add32 (sb st) b)
        (add32 (sc st) c) (add32 (sd st) d).

(** the padded message is consumed 64 bytes at a time *)
Fixpoint blocks (n : nat) (st : state) (bs : list Z) : state :=
  match n with
  | O => st
  | S n' => blocks n' (block st (take 64 bs)) (drop 64 bs)
  end.

Definition digest (msg : list Z) : list Z :=
  let p := pad msg in
  let '(State a b c d) := blocks (length p / 64)%nat init p in
  le_bytes 4 a ++ le_bytes 4 b ++ le_bytes 4 c ++ le_bytes 4 d.

Definition hex_digit (n : Z) : ascii :=
  ascii_of_nat (Z.to_nat (if n <? 10 then 48 + n else 87 + n)).

Fixpoint hex (bs : list Z) : string :=
  match bs with
  | [] => EmptyString
  | b :: bs' => String (hex_digit (b / 16)) (String (hex_digit (b mod 16)) (hex bs'))
  end.

Definition hexdigest (msg : list Z) : string := hex (digest msg).

End Md5.

(* ===================================================================== *)
(** * Data model *)
(* ===================================================================== *)

(** [@dataclass Update] *)
Record Update := mkUpdate {
  title : string;
  content : string;
  source_type : string;
  url : string;
  date : option string;
  update_impact : string;   (* the field [impact] of [Update] *)
  detected_at : string
}.

(** [Update(title=.., content=.., source_type=.., url=.., date=..)]:
    [impact] takes its default and [detected_at] the current time. *)
Definition new_update (now title content source_type url : string)
    (date : option string) : Update :=
  mkUpdate title content source_type url date "Medium" now.

(** [class SourceType(Enum)], the two values the extractors use *)
Definition WEBSITE : string := "website".
Definition RSS : string := "rss".

(** The digest both [_filter_new_updates] and [_update_cache] compute:
    [hashlib.md5(f"{u.title}{u.content[:100]}".encode()).hexdigest()] *)
Definition fingerprint (u : Update) : string :=
  Md5.hexdigest (PyStr.encode (title u +:+ PyStr.slice_to 100 (content u))).


(** [@dataclass Analysis]; [confidence_score] is a float in the source,
    here the decimal literal as a rational. *)
Record Analysis := mkAnalysis {
  summary : string;
  key_features : list string;
  impact : string;
  action : string;
  competitor_name : string;
  threat_level : string;
  opportunities : list string;
  strategic_implications : option string;
  confidence_score : QArith_base.Q
}.

(** [class ImpactLevel(Enum)] and its [.value] *)
Inductive ImpactLevel := CRITICAL | HIGH | MEDIUM | LOW.

Definition value (l : ImpactLevel) : string :=
  match l with
  | CRITICAL => "Critical"
  | HIGH => "High"
  | MEDIUM => "Medium"
  | LOW => "Low"
  end.

(** Python list slices: a negative index counts from the end, and indices
    out of range are clamped. *)
Definition clamp {A} (l : list A) (i : Z) : nat :=
  let n := Z.of_nat (length l) in
  Z.to_nat (if (i <? 0)%Z then Z.max 0 (n + i) else Z.min i n).

(** [l[i:j]] *)
Definition slice {A} (i j : Z) (l : list A) : list A :=
  take (clamp l j - clamp l i) (drop (clamp l i) l).

(** [l[i:]] *)
Definition slice_from {A} (i : Z) (l : list A) : list A := drop (clamp l i) l.

(* ===================================================================== *)
(** * Exceptions *)
(* ===================================================================== *)

(** Instances of [Exception] that the modelled code can meet.  The classes
    of [requests] form the chain
    [Timeout <: RequestException], [HTTPError <: RequestException]. *)
Inductive exn :=
| Timeout
| HTTPError
| RequestException
| KeyError
| ValueError
| OtherException (cls : string).

(** two classes that have no constructor of their own *)
Definition AttributeError : exn := OtherException "AttributeError".
Definition OverflowError : exn := OtherException "OverflowError".

Definition is_Timeout (e : exn) : bool :=
  match e with Timeout => true | _ => false end.

Definition is_RequestException (e : exn) : bool :=
  match e with Timeout | HTTPError | RequestException => true | _ => false end.

Inductive result (A : Type) :=
| Ok (a : A)
| Raise (e : exn).
Arguments Ok {A} a.
Arguments Raise {A} e.

Global Instance result_ret : MRet result := fun A a => Ok a.

Global Instance result_bind : MBind result := fun A B k r =>
  match r with
  | Ok a => k a
  | Raise e => Raise e
  end.

Fixpoint foldM {A B} (f : B -> A -> result B) (l : list A) (b : B) : result B :=
  match l with
  | [] => Ok b
  | a :: l' => b' ← f b a; foldM f l' b'
  end.

(* ===================================================================== *)
(** * [class AIAnalyzer]: the rule-based analysis *)
(* ===================================================================== *)

Definition critical_keywords : list string :=
  ["acquisition"; "acquired"; "merger"; "funding"; "series";
   "million"; "billion"; "ipo"; "partnership with"].
Definition high_keywords : list string :=
  ["launch"; "launched"; "new product"; "major update";
   "enterprise"; "pricing change"; "price"; "discount"].
Definition medium_keywords : list string :=
  ["feature"; "improvement"; "update"; "release"; "beta";
   "preview"; "integration"; "api"].
Definition low_keywords : list string :=
  ["bug fix"; "patch"; "maintenance"; "minor"].

(** [any(kw in text for kw in kws)] *)
Definition any_in (kws : list string) (text : string) : bool :=
  existsb (fun kw => PyStr.contains kw text) kws.

Definition _basic_analysis (name category : string) (updates : list Update)
  : Analysis :=
  match updates with
  | [] =>
      {| summary := name +:+ " has no recent updates";
         key_features := [];
         impact := value LOW;
         threat_level := value LOW;
         action := "Continue monitoring for future updates";
         competitor_name := name;
         confidence_score := QArith_base.Qmake 9 10;
         opportunities := [];
         strategic_implications := None |}
  | _ =>
      let titles := title <$> take 5 updates in
      let contents := content <$> take 5 updates in
      let all_text := PyStr.lower (PyStr.join " " (titles ++ contents)) in
      let '(impact_, threat) :=
        if any_in critical_keywords all_text then (value CRITICAL, value HIGH)
        else if any_in high_keywords all_text then (value HIGH, value MEDIUM)
        else if any_in medium_keywords all_text then (value MEDIUM, value LOW)
        else if any_in low_keywords all_text then (value LOW, value LOW)
        else (value MEDIUM, value LOW) in
      {| summary := match titles with
                    | t :: _ => name +:+ " released: " +:+ t
                    | [] => name +:+ " updated"
                    end;
         key_features := take 5 titles;
         impact := impact_;
         threat_level := threat;
         opportunities :=
           ["Monitor their approach and user reception";
            "Identify gaps in our own offering";
            "Consider if similar features would benefit our users"];
         strategic_implications :=
           Some (name +:+ " is actively evolving their " +:+ category +:+ " offering");
         action := "Review " +:+ name +:+ "'s updates and assess competitive positioning";
         confidence_score := QArith_base.Qmake 6 10;
         competitor_name := name |}
  end.

(* ===================================================================== *)
(** * [class TrendAnalyzer] *)
(* ===================================================================== *)

(** One element of [trends[name]['history']] *)
Record HistoryEntry := mkEntry {
  h_timestamp : string;
  h_impact : string;
  h_threat_level : string;
  h_summary : string;
  h_key_features : list string
}.

(** [trends[name]]: what [trends.json] holds for one competitor *)
Record TrendRecord := mkTrend {
  history : list HistoryEntry;
  impact_counts : gmap string nat;
  feature_mentions : gmap string nat
}.

(** [d[k] += 1].  A [defaultdict(int)] supplies 0 for a missing key; a plain
    [dict] (every dictionary that [json.load] returns) raises [KeyError]. *)
Definition incr (is_defaultdict : bool) (d : gmap string nat) (k : string)
  : result (gmap string nat) :=
  match d !! k with
  | Some n => Ok (<[k := S n]> d)
  | None => if is_defaultdict then Ok (<[k := 1%nat]> d) else Raise KeyError
  end.

(** [set(word.lower() for word in feature.split()
         if len(word) > 4 and word.lower() not in ['feature', 'update', 'release'])].
    The set is a duplicate-free list; the increments of distinct keys
    commute, and a missing key raises whatever the order. *)
Definition key_terms (feature : string) : list string :=
  remove_dups
    (PyStr.lower <$>
       filter (fun word => (4 < PyStr.len word)%nat ∧
                           PyStr.lower word ∉ ["feature"; "update"; "release"])
              (PyStr.split_ws feature)).

(** [record_finding]: [trends] is the content of [trends.json] as
    [load_trends()] returns it at the start of the call, the result is what
    [save_trends] writes at its end.  When the call raises, nothing is
    written. *)
Definition record_finding (now : string) (trends : gmap string TrendRecord)
    (name : string) (analysis : Analysis) : result (gmap string TrendRecord) :=
  let '(rec, fresh) :=
    match trends !! name with
    | Some r => (r, false)
    | None => (mkTrend [] ∅ ∅, true)
    end in
  let entry :=
    {| h_timestamp := now;
       h_impact := impact analysis;
       h_threat_level := threat_level analysis;
       h_summary := summary analysis;
       h_key_features := key_features analysis |} in
  let history1 := history rec ++ [entry] in
  counts ← incr fresh (impact_counts rec) (impact analysis);
  mentions ← foldM (fun m feature => foldM (incr fresh) (key_terms feature) m)
                   (key_features analysis) (feature_mentions rec);
  let history2 :=
    if bool_decide (50 < length history1)%nat
    then slice_from (-50) history1 else history1 in
  Ok (<[name := mkTrend history2 counts mentions]> trends).

(** The numeric and categorical part of the dictionary that
    [get_competitor_trends] returns ([top_features] and [recent_focus],
    two sorted term tables, are left out). *)
Record Stats := mkStats {
  total_updates : nat;
  recent_activity : nat;
  activity_trend : string;
  average_impact : QArith_base.Q;
  impact_distribution : gmap string nat;
  first_seen : option string;
  last_seen : option string
}.

Inductive TrendReport :=
| NoData (error : string)
| Report (stats : Stats).

Definition impact_scores (level : string) : Z :=
  if bool_decide (level = "Critical") then 4
  else if bool_decide (level = "High") then 3
  else if bool_decide (level = "Medium") then 2
  else if bool_decide (level = "Low") then 1
  else 2.

Definition get_competitor_trends (trends : gmap string TrendRecord)
    (name : string) : TrendReport :=
  match trends !! name with
  | None => NoData "No historical data"
  | Some data =>
      let history := history data in
      match history with
      | [] => NoData "No historical data"
      | _ =>
          let recent := slice_from (-10) history in
          let avg_impact :=
            QArith_base.Qmake
              (foldr Z.add 0%Z ((fun e => impact_scores (h_impact e)) <$> recent))
              (Pos.of_nat (length recent)) in
          let activity_trend :=
            if bool_decide (20 ≤ length history)%nat then
              let older := slice (-20) (-10) history in
              let recent_activity := length recent in
              let older_activity := length older in
              if bool_decide (older_activity < recent_activity)%nat then "increasing"
              else if bool_decide (recent_activity = older_activity) then "stable"
              else "decreasing"
            else "insufficient data" in
          Report {| total_updates := length history;
                    recent_activity := length recent;
                    activity_trend := activity_trend;
                    average_impact := avg_impact;
                    impact_distribution := impact_counts data;
                    first_seen := h_timestamp <$> head history;
                    last_seen := h_timestamp <$> last history |}
      end
  end.

(* ===================================================================== *)
(** * The fingerprint cache of [class MonitoringEngine] *)
(* ===================================================================== *)

Definition cache_key (name : string) : string := "competitor_" +:+ name.

(** the fingerprints stored for a competitor, [self.cache.get(cache_key, [])] *)
Definition cached (cache : gmap string (list string)) (name : string)
  : list string := default [] (cache !! cache_key name).

(** [_filter_new_updates]: [cache] is [self.cache] *)
Definition _filter_new_updates (cache : gmap string (list string))
    (name : string) (updates : list Update) : list Update :=
  let seen_hashes : gset string := list_to_set (cached cache name) in
  filter (fun update => fingerprint update ∉ seen_hashes) updates.

(** [_update_cache]: the new [self.cache], which [save_cache] also writes *)
Definition _update_cache (cache : gmap string (list string))
    (name : string) (updates : list Update) : gmap string (list string) :=
  let update_hashes := fingerprint <$> updates in
  <[cache_key name := take 100 update_hashes]> cache.

(* ===================================================================== *)
(** * Parsed HTML, as [BeautifulSoup] exposes it *)
(* ===================================================================== *)

(** The tree holds the elements and the strings that [get_text] returns,
    those of class [NavigableString].  The parser gives the strings inside
    [script], [style], [template] and ruby annotation elements, and the
    comments, classes of their own, which [get_text] leaves out; the code
    reads a string through [get_text] only, so these are not part of the
    tree. *)
#[local] Unset Elimination Schemes.
Inductive node :=
| Text (s : string)                                   (* NavigableString *)
| Elem (tag : string) (attrs : list (string * string)) (children : list node).
#[local] Set Elimination Schemes.

(** An element together with what [.parent] and [.next_siblings] reach, and
    its position under the root of the search (its identity, [id(c)]). *)
Record located := Loc {
  here : node;
  path : list nat;
  parent : option node;
  next_siblings : list node
}.

Module Soup.

Definition name (n : node) : option string :=
  match n with Elem t _ _ => Some t | Text _ => None end.

(** [tag.get(key)]; [attrs] is a dictionary, its keys are distinct *)
Definition get (key : string) (n : node) : option string :=
  match n with
  | Elem _ attrs _ => snd <$> head (filter (fun kv => fst kv = key) attrs)
  | Text _ => None
  end.

(** every string below a node, in document order *)
Fixpoint strings (n : node) : list string :=
  match n with
  | Text s => [s]
  | Elem _ _ cs =>
      (fix go (l : list node) : list string :=
         match l with
         | [] => []
         | c :: l' => strings c ++ go l'
         end) cs
  end.

(** [node.get_text(strip=True, separator=sep)]: each string is stripped and
    the empty ones are dropped *)
Definition get_text_sep (sep : string) (n : node) : string :=
  PyStr.join sep
    (filter (fun t => t ≠ EmptyString) (PyStr.strip <$> strings n)).

(** [node.get_text(strip=True)] *)
Definition get_text (n : node) : string := get_text_sep "" n.

(** every node below [n] in document order, with its surroundings *)
Fixpoint descendants_at (pos : list nat) (n : node) : list located :=
  match n with
  | Text _ => []
  | Elem _ _ cs =>
      (fix go (i : nat) (l : list node) : list located :=
         match l with
         | [] => []
         | c :: l' =>
             Loc c (pos ++ [i]) (Some n) l'
               :: descendants_at (pos ++ [i]) c ++ go (S i) l'
         end) 0%nat cs
  end.

Definition descendants (n : node) : list located := descendants_at [] n.

Definition has_name (names : list string) (n : node) : bool :=
  match name n with
  | Some t => bool_decide (t ∈ names)
  | None => false
  end.

Definition is_tag (n : node) : bool :=
  match n with Elem _ _ _ => true | Text _ => false end.

(** [root.find_all(names, <filter>, limit=limit)]; [limit = None] is no limit *)
Definition find_all_with (keep : node -> bool) (limit : option nat)
    (root : node) : list located :=
  let found := filter (fun l => keep (here l) = true) (descendants root) in
  match limit with
  | Some k => take k found
  | None => found
  end.

Definition find_all (names : list string) (limit : option nat) (root : node)
  : list located := find_all_with (has_name names) limit root.

(** [root.find(names)] *)
Definition find (names : list string) (root : node) : option node :=
  here <$> head (find_all names None root).

Definition find_with (keep : node -> bool) (root : node) : option node :=
  here <$> head (find_all_with keep None root).

(** [heading.find_next_siblings(names, limit=limit)] *)
Definition find_next_siblings (names : list string) (limit : nat)
    (l : located) : list node :=
  take limit (filter (fun n => has_name names n = true) (next_siblings l)).

(** the filter [attr=lambda v: v and any(x in str(v).lower() for x in pats)]
    on the attribute [key] (["class"] or ["id"]); the patterns hold no
    white space, so matching the value as a whole and matching its
    space-separated parts agree *)
Definition attr_contains (key : string) (pats : list string) (n : node) : bool :=
  match get key n with
  | Some v => existsb (fun x => PyStr.contains x (PyStr.lower v)) pats
  | None => false
  end.

(** [tag.decompose()] for every element below [n] that [gone] selects *)
Fixpoint prune (gone : node -> bool) (n : node) : node :=
  match n with
  | Text s => Text s
  | Elem t a cs =>
      Elem t a
        ((fix go (l : list node) : list node :=
            match l with
            | [] => []
            | c :: l' => if gone c then go l' else prune gone c :: go l'
            end) cs)
  end.

End Soup.

(* ===================================================================== *)
(** * [class ContentExtractor]: one update from one element *)
(* ===================================================================== *)

(** [updates.append(update)] unless an update of that title is there:
    [if update and not any(u.title == update.title for u in updates)] *)
Definition append_unless_titled (updates : list Update) (update : option Update)
  : list Update :=
  match update with
  | Some u =>
      if existsb (fun v => bool_decide (title v = title u)) updates
      then updates else updates ++ [u]
  | None => updates
  end.

(** [x or y] on strings *)
Definition or_else (x : option string) (y : string) : string :=
  match x with
  | Some v => if PyStr.is_empty v then y else v
  | None => y
  end.

(** [@dataclass CompetitorConfig] *)
Record CompetitorConfig := mkCompetitor {
  name : string;
  website_url : option string;
  rss_feed_url : option string;
  twitter_handle : option string;
  linkedin_url : option string;
  press_release_url : option string;
  category : string;
  priority : string;
  enabled : bool;
  tags : list string;
  added_at : string;
  last_checked : option string
}.

(** One element of [feedparser.parse(url).entries]; a missing key is [None] *)
Record FeedEntry := mkFeedEntry {
  e_title : option string;
  e_summary : option string;
  e_description : option string;
  e_link : option string;
  e_published : option string
}.

(** What [requests.get] returns *)
Record Response := mkResponse {
  status_code : Z;
  text : string
}.

(** The world outside the process, one snapshot of it: every call that
    leaves the process is a function of its arguments.
    - [now] is [datetime.now().isoformat()];
    - [feedparser_parse url] is [feedparser.parse(url).entries];
    - [requests_get url] is [requests.get(url, timeout=15, ...)];
    - [html_parser markup] is [BeautifulSoup(markup, 'html.parser')];
    - [_search_for_updates] is the web-search fallback of the engine, which
      catches every exception and returns a list;
    - [GEMINI_AVAILABLE] is the module-level flag, and [_analyze_with_gemini]
      the model call, which catches every exception and returns [None]. *)
Record Env := mkEnv {
  now : string;
  feedparser_parse : string -> result (list FeedEntry);
  requests_get : string -> result Response;
  html_parser : string -> result node;
  _search_for_updates : CompetitorConfig -> list Update;
  GEMINI_AVAILABLE : bool;
  _analyze_with_gemini : string -> string -> list Update -> option Analysis
}.

(** [try: body except Exception: handler] *)
Definition try_except {A} (body : result A) (handler : exn -> result A)
  : result A :=
  match body with
  | Ok a => Ok a
  | Raise e => handler e
  end.

Section Extractors.

Variable env : Env.

Definition title_tags : list string :=
  ["h1"; "h2"; "h3"; "h4"; "h5"; "h6"; "a"; "strong"; "b"].

Definition _extract_from_container (container : node) (url : string)
  : option Update :=
  let title_elem := Soup.find title_tags container in
  title ←
    match title_elem with
    | None =>
        let text := Soup.get_text container in
        if bool_decide (PyStr.len text < 10)%nat then None
        else Some (PyStr.slice_to 250 (default "" (head (PyStr.split_on "." text))))
    | Some e => Some (Soup.get_text e)
    end;
  if PyStr.is_empty title || bool_decide (PyStr.len title < 5)%nat then None
  else
    let date :=
      match Soup.find_with
              (fun n => Soup.has_name ["time"; "span"] n
                        && Soup.attr_contains "class" ["date"] n) container with
      | Some date_elem => Some (Soup.get_text date_elem)
      | None =>
          match Soup.find ["time"] container with
          | Some date_elem =>
              Some (or_else (Soup.get "datetime" date_elem) (Soup.get_text date_elem))
          | None => None
          end
      end in
    let content_parts :=
      filter (fun text => (15 < PyStr.len text)%nat)
             ((fun l => Soup.get_text (here l)) <$>
                Soup.find_all ["p"; "li"; "div"; "span"] (Some 10%nat) container) in
    let content := PyStr.slice_to 1200 (PyStr.join " " content_parts) in
    let content :=
      if PyStr.is_empty content || bool_decide (PyStr.len content < 20)%nat
      then title else content in
    Some (new_update (now env) (PyStr.slice_to 250 title) content WEBSITE url date).

Definition _extract_from_heading (heading : located) (url : string)
  : option Update :=
  let title := Soup.get_text (here heading) in
  if PyStr.is_empty title || bool_decide (PyStr.len title < 5)%nat then None
  else
    let date :=
      match parent heading with
      | Some parent =>
          match Soup.find ["time"] parent with
          | Some time_elem =>
              Some (or_else (Soup.get "datetime" time_elem) (Soup.get_text time_elem))
          | None => None
          end
      | None => None
      end in
    let content_parts :=
      filter (fun text => (15 < PyStr.len text)%nat)
             (Soup.get_text <$>
                Soup.find_next_siblings ["p"; "ul"; "div"; "span"] 6 heading) in
    let content := PyStr.slice_to 1200 (PyStr.join " " content_parts) in
    if PyStr.is_empty content && bool_decide (PyStr.len title < 20)%nat then None
    else
      Some (new_update (now env) (PyStr.slice_to 250 title)
              (if PyStr.is_empty content then title else content)
              WEBSITE url date).

Definition _extract_from_list_item (li : node) (url : string) : option Update :=
  let text := Soup.get_text li in
  if PyStr.is_empty text || bool_decide (PyStr.len text < 10)%nat then None
  else
    let heading :=
      Soup.find ["strong"; "b"; "h1"; "h2"; "h3"; "h4"; "h5"; "h6"; "a"] li in
    let '(title, content) :=
      match heading with
      | Some heading =>
          let title := Soup.get_text heading in
          let content := PyStr.strip (PyStr.replace_del title text) in
          (title, if PyStr.is_empty content then title else content)
      | None =>
          let sentences := PyStr.split_on "." text in
          match sentences with
          | s0 :: _ =>
              if bool_decide (10 < PyStr.len s0)%nat
              then (PyStr.slice_to 250 s0, text)
              else (PyStr.slice_to 100 text, text)
          | [] => (PyStr.slice_to 100 text, text)
          end
      end in
    Some (new_update (now env) (PyStr.slice_to 250 title) (PyStr.slice_to 1200 content)
            WEBSITE url None).

(** ** The page as a whole *)

Definition noise_tags : list string :=
  ["script"; "style"; "nav"; "footer"; "header";
   "iframe"; "noscript"; "svg"; "button"; "input"; "select"].

Definition noise_patterns : list string :=
  ["cookie"; "consent"; "popup"; "modal"; "banner";
   "newsletter"; "subscribe"; "chat"; "widget"; "ad";
   "advertisement"; "tracking"; "analytics"; "social-share"].

Definition noise_roles : list string :=
  ["navigation"; "banner"; "complementary"; "contentinfo"].

(** What the loop over [soup.find_all(attrs={'role': True})] asks.  The
    list is made before the loop, in document order: an element comes
    before the elements below it.  [tag.decompose()] destroys an element
    together with everything below it, and the elements below it that have
    a [role] are still in the list; [tag.get('role')] on a destroyed tag
    raises [AttributeError], its attributes being gone.  [dead] says that
    an element above [n] has been decomposed by this loop. *)
Fixpoint role_loop (dead : bool) (n : node) : result unit :=
  match n with
  | Text _ => Ok tt
  | Elem _ _ cs =>
      (fix go (l : list node) : result unit :=
         match l with
         | [] => Ok tt
         | tag :: l' =>
             _ ← match Soup.get "role" tag with
                 | Some role =>
                     if dead then Raise AttributeError
                     else role_loop (bool_decide (role ∈ noise_roles)) tag
                 | None => role_loop dead tag
                 end;
             go l'
         end) cs
  end.

(** [_clean_soup]: the three loops in turn; when the last one comes to its
    end, it has removed the elements with one of the [noise_roles] *)
Definition _clean_soup (soup : node) : result node :=
  let soup := Soup.prune (Soup.has_name noise_tags) soup in
  let soup :=
    foldl (fun soup pattern =>
             Soup.prune (Soup.attr_contains "id" [pattern])
               (Soup.prune (Soup.attr_contains "class" [pattern]) soup))
          soup noise_patterns in
  _ ← role_loop false soup;
  Ok (Soup.prune (fun tag => match Soup.get "role" tag with
                             | Some r => bool_decide (r ∈ noise_roles)
                             | None => false
                             end) soup).

Definition container_patterns : list string :=
  ["post"; "update"; "release"; "item"; "entry"; "card";
   "news"; "article"; "changelog"; "change"; "feature";
   "announcement"; "blog"; "story"; "note"].

Definition main_hints : list string := ["content"; "main"; "body"].

(** the first loop over [container_patterns], with its [break] *)
Fixpoint class_containers (main_content : node) (patterns : list string)
    (containers : list located) : list located :=
  match patterns with
  | [] => containers
  | pattern :: rest =>
      let found :=
        Soup.find_all_with
          (fun n => Soup.has_name ["article"; "section"; "div"; "li"] n
                    && Soup.attr_contains "class" [pattern] n)
          (Some 20%nat) main_content in
      let containers := containers ++ found in
      if bool_decide (15 ≤ length containers)%nat then containers
      else class_containers main_content rest containers
  end.

(** the loop that keeps one of each element, by [id(c)] *)
Fixpoint unique_containers (seen : list (list nat)) (containers : list located)
  : list located :=
  match containers with
  | [] => []
  | c :: rest =>
      if bool_decide (path c ∈ seen) then unique_containers seen rest
      else c :: unique_containers (path c :: seen) rest
  end.

Definition _extract_structured_content (soup : node) (url : string)
  : list Update :=
  let main_content :=
    default soup
      (match Soup.find ["main"] soup with
       | Some m => Some m
       | None =>
       match Soup.find ["article"] soup with
       | Some m => Some m
       | None =>
       match Soup.find_with (Soup.attr_contains "id" main_hints) soup with
       | Some m => Some m
       | None => Soup.find_with (Soup.attr_contains "class" main_hints) soup
       end end end) in
  let containers := class_containers main_content container_patterns [] in
  let containers :=
    foldl (fun containers pattern =>
             containers ++
             Soup.find_all_with
               (fun n => Soup.has_name ["article"; "section"; "div"] n
                         && Soup.attr_contains "id" [pattern] n)
               (Some 10%nat) main_content)
          containers container_patterns in
  let updates :=
    foldl (fun updates container =>
             append_unless_titled updates
               (_extract_from_container (here container) url))
          [] (take 20 (unique_containers [] containers)) in
  let updates :=
    if bool_decide (length updates < 3)%nat then
      foldl (fun updates heading =>
               append_unless_titled updates (_extract_from_heading heading url))
            updates
            (Soup.find_all ["h1"; "h2"; "h3"; "h4"] (Some 25%nat) main_content)
    else updates in
  let updates :=
    if bool_decide (length updates < 2)%nat then
      foldl (fun updates ul =>
               foldl (fun updates li =>
                        append_unless_titled updates
                          (_extract_from_list_item (here li) url))
                     updates (Soup.find_all ["li"] (Some 15%nat) (here ul)))
            updates (Soup.find_all ["ul"; "ol"] (Some 10%nat) main_content)
    else updates in
  take 20 updates.

Definition _aggressive_extraction (soup : node) (url : string) : list Update :=
  let updates :=
    foldl (fun updates heading =>
             let text := Soup.get_text (here heading) in
             if bool_decide (10 ≤ PyStr.len text)%nat
                && bool_decide (PyStr.len text ≤ 300)%nat then
               let content_parts :=
                 match parent heading with
                 | Some _ =>
                     filter (fun sib_text => (15 < PyStr.len sib_text)%nat)
                            (Soup.get_text <$>
                               Soup.find_next_siblings ["p"; "div"; "span"] 3 heading)
                 | None => []
                 end in
               let content :=
                 match content_parts with
                 | [] => text
                 | _ => PyStr.slice_to 800 (PyStr.join " " content_parts)
                 end in
               append_unless_titled updates
                 (Some (new_update (now env) (PyStr.slice_to 250 text) content
                          WEBSITE url None))
             else updates)
          [] (Soup.find_all ["h1"; "h2"; "h3"; "h4"; "h5"] (Some 30%nat) soup) in
  let updates :=
    if bool_decide (length updates < 3)%nat then
      foldl (fun updates p =>
               match Soup.find ["strong"; "b"; "em"] (here p) with
               | Some strong =>
                   let title := Soup.get_text strong in
                   if bool_decide (10 ≤ PyStr.len title)%nat
                      && bool_decide (PyStr.len title ≤ 200)%nat then
                     let full_text := Soup.get_text (here p) in
                     let content := PyStr.strip (PyStr.replace_del title full_text) in
                     append_unless_titled updates
                       (Some (new_update (now env) (PyStr.slice_to 250 title)
                                (PyStr.slice_to 800
                                   (if PyStr.is_empty content then title else content))
                                WEBSITE url None))
                   else updates
               | None => updates
               end)
            updates (Soup.find_all ["p"] (Some 30%nat) soup)
    else updates in
  let updates :=
    if bool_decide (length updates < 2)%nat then
      foldl (fun updates div =>
               let text := Soup.get_text_sep " " (here div) in
               if bool_decide (20 ≤ PyStr.len text)%nat
                  && bool_decide (PyStr.len text ≤ 500)%nat
                  && bool_decide (Soup.find_all ["div"; "section"] None (here div) = [])
               then
                 let title_words := take 15 (PyStr.split_ws text) in
                 let title := PyStr.join " " title_words in
                 append_unless_titled updates
                   (Some (new_update (now env) (PyStr.slice_to 250 title)
                            (PyStr.slice_to 800 text) WEBSITE url None))
               else updates)
            updates (Soup.find_all ["div"] (Some 50%nat) soup)
    else updates in
  take 15 updates.

(** ** The two entry points *)

(** [dict.get(key, default)] *)
Definition get_or (x : option string) (d : string) : string := default d x.

Definition rss_entry (url : string) (entry : FeedEntry) : result Update :=
  let title := get_or (e_title entry) "Untitled" in
  let summary := get_or (e_summary entry) (get_or (e_description entry) "") in
  summary ←
    (if PyStr.is_empty summary then Ok summary
     else soup ← html_parser env summary; Ok (Soup.get_text soup));
  Ok (new_update (now env) title
        (if PyStr.is_empty summary then title else PyStr.slice_to 800 summary)
        RSS (get_or (e_link entry) url) (e_published entry)).

Definition extract_from_rss (url : string) : result (list Update) :=
  try_except
    (entries ← feedparser_parse env url;
     match entries with
     | [] => Ok []
     | _ => mapM (rss_entry url) (take 10 entries)
     end)
    (fun e => Ok []).

(** [response.raise_for_status()] *)
Definition raise_for_status (response : Response) : result unit :=
  if bool_decide (400 ≤ status_code response < 600)%Z then Raise HTTPError
  else Ok tt.

Definition extract_from_website (url : string) : result (list Update) :=
  try_except
    (response ← requests_get env url;
     _ ← raise_for_status response;
     soup ← html_parser env (text response);
     soup ← _clean_soup soup;
     let updates := _extract_structured_content soup url in
     let updates :=
       match updates with
       | [] => _aggressive_extraction soup url
       | _ => updates
       end in
     Ok updates)
    (fun e =>
       if is_Timeout e then Ok []
       else if is_RequestException e then Ok []
       else Ok []).

End Extractors.

(* ===================================================================== *)
(** * [class MonitoringEngine] *)
(* ===================================================================== *)

(** [@dataclass MonitoringConfig], the fields the engine reads *)
Record MonitoringConfig := mkConfig {
  notification_email : option string;
  max_updates_per_competitor : Z;
  notify_on_critical : bool;
  notify_on_high : bool;
  rate_limit_seconds : Z
}.

(** The dictionary [monitor_competitor] returns *)
Record Finding := mkFinding {
  f_competitor : CompetitorConfig;
  f_updates : list Update;
  f_analysis : Analysis
}.

(** What the process does that can be seen from outside, oldest first *)
Inductive Event :=
| Checking (who : string)                 (* "[i/n] Checking ..." *)
| Sleep (seconds : Z)                     (* [time.sleep] *)
| Alert (who level : string)              (* a mail handed to the SMTP server *)
| AnalysisFailed (who : string)           (* "Analysis failed for ..." *)
| ErrorMonitoring (who : string) (e : exn). (* "Error monitoring ..." *)

(** The state the engine reads and writes: [self.config], [self.cache]
    (which [save_cache] mirrors to disk), [trends.json], [competitors.json],
    and the events so far. *)
Record World := mkWorld {
  config : MonitoringConfig;
  cache : gmap string (list string);
  trends : gmap string TrendRecord;
  competitors : list CompetitorConfig;
  trace : list Event
}.

Definition log (w : World) (ev : Event) : World :=
  mkWorld (config w) (cache w) (trends w) (competitors w) (trace w ++ [ev]).

Definition set_cache (w : World) (c : gmap string (list string)) : World :=
  mkWorld (config w) c (trends w) (competitors w) (trace w).

Definition set_trends (w : World) (t : gmap string TrendRecord) : World :=
  mkWorld (config w) (cache w) t (competitors w) (trace w).

Definition set_competitors (w : World) (cs : list CompetitorConfig) : World :=
  mkWorld (config w) (cache w) (trends w) cs (trace w).

(** truth value of an optional string: [None] and [''] are false *)
Definition truthy (x : option string) : option string :=
  match x with
  | Some v => if PyStr.is_empty v then None else Some v
  | None => None
  end.

(** [competitor.last_checked = datetime.now().isoformat()] *)
Definition set_last_checked (c : CompetitorConfig) (t : string) : CompetitorConfig :=
  mkCompetitor (name c) (website_url c) (rss_feed_url c) (twitter_handle c)
    (linkedin_url c) (press_release_url c) (category c) (priority c) (enabled c)
    (tags c) (added_at c) (Some t).

(** [time.sleep(seconds)] for an [int].  CPython first turns the seconds
    into nanoseconds in a signed 64-bit integer and raises [OverflowError]
    when they do not fit; then it refuses a negative length with
    [ValueError]; then it sleeps. *)
Definition fits_time (seconds : Z) : bool :=
  bool_decide (- 2 ^ 63 ≤ seconds * 10 ^ 9 ≤ 2 ^ 63 - 1)%Z.

Definition sleep (seconds : Z) (w : World) : result unit * World :=
  if fits_time seconds then
    if bool_decide (seconds < 0)%Z then (Raise ValueError, w)
    else (Ok tt, log w (Sleep seconds))
  else (Raise OverflowError, w).

Section Engine.

Variable env : Env.

(** [AIAnalyzer.analyze_updates] *)
Definition analyze_updates (competitor_name category : string)
    (updates : list Update) : option Analysis :=
  let fallback := Some (_basic_analysis competitor_name category updates) in
  if GEMINI_AVAILABLE env && bool_decide (updates ≠ []) then
    match _analyze_with_gemini env competitor_name category updates with
    | Some result => Some result
    | None => fallback
    end
  else fallback.

(** [EmailNotifier.send_alert]; the mail itself may fail, which the method
    catches *)
Definition send_alert (w : World) (competitor_name impact summary : string)
  : World :=
  match truthy (notification_email (config w)) with
  | None => w
  | Some _ =>
      if bool_decide (impact = "Critical") && negb (notify_on_critical (config w))
      then w
      else if bool_decide (impact = "High") && negb (notify_on_high (config w))
      then w
      else if bool_decide (impact ∉ ["Critical"; "High"]) then w
      else log w (Alert competitor_name impact)
  end.

(** [_update_competitor_config]: the first entry of that name is replaced *)
Fixpoint replace_first (competitor : CompetitorConfig)
    (competitors : list CompetitorConfig) : list CompetitorConfig :=
  match competitors with
  | [] => []
  | comp :: rest =>
      if bool_decide (name comp = name competitor) then competitor :: rest
      else comp :: replace_first competitor rest
  end.

Definition _update_competitor_config (w : World) (competitor : CompetitorConfig)
  : World :=
  set_competitors w (replace_first competitor (competitors w)).

(** the candidates [monitor_competitor] gathers from the feed, the page
    and the search fallback *)
Definition gather_updates (competitor : CompetitorConfig) : list Update :=
  let updates : list Update := [] in
  let updates :=
    match truthy (rss_feed_url competitor) with
    | Some rss_feed_url =>
        match extract_from_rss env rss_feed_url with
        | Ok rss_updates => updates ++ rss_updates
        | Raise _ => updates
        end
    | None => updates
    end in
  match truthy (website_url competitor) with
  | Some website_url =>
      if bool_decide (length updates < 3)%nat then
        match extract_from_website env website_url with
        | Ok [] => updates ++ _search_for_updates env competitor
        | Ok web_updates =>
            let existing_titles : gset string := list_to_set (title <$> updates) in
            let new_web_updates :=
              filter (fun u => title u ∉ existing_titles) web_updates in
            updates ++ new_web_updates
        | Raise _ => updates ++ _search_for_updates env competitor
        end
      else updates
  | None => updates
  end.

Definition monitor_competitor (w : World) (competitor : CompetitorConfig)
  : result (option Finding) * World :=
  if negb (enabled competitor) then (Ok None, w)
  else
    let updates := gather_updates competitor in
    match updates with
    | [] => (Ok None, w)
    | _ =>
        let new_updates := _filter_new_updates (cache w) (name competitor) updates in
        match new_updates with
        | [] =>
            let competitor := set_last_checked competitor (now env) in
            (Ok None, _update_competitor_config w competitor)
        | _ =>
            match analyze_updates (name competitor) (category competitor)
                    new_updates with
            | None => (Ok None, log w (AnalysisFailed (name competitor)))
            | Some analysis =>
                match record_finding (now env) (trends w) (name competitor)
                        analysis with
                | Raise e => (Raise e, w)
                | Ok trends' =>
                    let w := set_trends w trends' in
                    let w :=
                      if bool_decide (impact analysis ∈ ["Critical"; "High"])
                      then send_alert w (name competitor) (impact analysis)
                             (summary analysis)
                      else w in
                    let w := set_cache w
                               (_update_cache (cache w) (name competitor) updates) in
                    let competitor := set_last_checked competitor (now env) in
                    let w := _update_competitor_config w competitor in
                    (Ok (Some {| f_competitor := competitor;
                                 f_updates :=
                                   slice 0 (max_updates_per_competitor (config w))
                                         new_updates;
                                 f_analysis := analysis |}), w)
                end
            end
        end
    end.

(** the [for] loop of [monitor_all]; [i] counts from 1 and [n] is
    [len(enabled_competitors)] *)
Fixpoint monitor_loop (n i : nat) (enabled_competitors : list CompetitorConfig)
    (findings : list Finding) (w : World) : list Finding * World :=
  match enabled_competitors with
  | [] => (findings, w)
  | competitor :: rest =>
      let w := log w (Checking (name competitor)) in
      let '(outcome, w) := monitor_competitor w competitor in
      let '(findings, w) :=
        match outcome with
        | Ok result =>
            let findings :=
              match result with
              | Some f => findings ++ [f]
              | None => findings
              end in
            if bool_decide (i < n)%nat then
              match sleep (rate_limit_seconds (config w)) w with
              | (Ok _, w) => (findings, w)
              | (Raise e, w) =>
                  (findings, log w (ErrorMonitoring (name competitor) e))
              end
            else (findings, w)
        | Raise e => (findings, log w (ErrorMonitoring (name competitor) e))
        end in
      monitor_loop n (S i) rest findings w
  end.

Definition monitor_all (w : World) : list Finding * World :=
  let competitors := competitors w in
  let enabled_competitors := filter (fun c => enabled c = true) competitors in
  monitor_loop (length enabled_competitors) 1 enabled_competitors [] w.

End Engine.

(* ===================================================================== *)
(** * Notions the statements use *)
(* ===================================================================== *)

(** every stored fingerprint sequence has at most 100 entries *)
Definition cache_bounded (cache : gmap string (list string)) : Prop :=
  ∀ k hashes, cache !! k = Some hashes → (length hashes ≤ 100)%nat.

(** a run of [monitor_competitor] calls, each against its own snapshot of
    the outside world; a call that raises leaves the state as it was *)
Fixpoint run_checks (calls : list (Env * CompetitorConfig)) (w : World) : World :=
  match calls with
  | [] => w
  | (env, competitor) :: rest =>
      run_checks rest (snd (monitor_competitor env w competitor))
  end.

(** the sum of the counters of [impact_counts] *)
Definition total (counts : gmap string nat) : nat :=
  map_fold (fun _ n acc => (n + acc)%nat) 0%nat counts.

(** [record_finding] as its caller sees it across calls: a call that raises
    has written nothing *)
Definition record (now : string) (trends : gmap string TrendRecord)
    (name : string) (analysis : Analysis) : gmap string TrendRecord :=
  match record_finding now trends name analysis with
  | Ok trends' => trends'
  | Raise _ => trends
  end.

(** did the call return? *)
Definition returns {A} (r : result A) : bool :=
  match r with Ok _ => true | Raise _ => false end.

(** a title that is not empty *)
Definition titled (u : Update) : Prop := title u ≠ "".

(** a title of at most 250 characters *)
Definition short_title (u : Update) : Prop := (PyStr.len (title u) ≤ 250)%nat.

(** a run of [record_finding] calls on one trend store, and how many of the
    calls for [who] returned *)
Fixpoint record_all (now : string) (calls : list (string * Analysis))
    (trends : gmap string TrendRecord) : gmap string TrendRecord :=
  match calls with
  | [] => trends
  | (name, analysis) :: rest =>
      record_all now rest (record now trends name analysis)
  end.

Fixpoint count_returned (now : string) (calls : list (string * Analysis))
    (trends : gmap string TrendRecord) (who : string) : nat :=
  match calls with
  | [] => 0
  | (name, analysis) :: rest =>
      ((if bool_decide (name = who)
           && returns (record_finding now trends name analysis)
        then 1 else 0)
       + count_returned now rest (record now trends name analysis) who)%nat
  end.

(** the record of a competitor, empty when there is none *)
Definition trend_of (trends : gmap string TrendRecord) (who : string)
  : TrendRecord := default (mkTrend [] ∅ ∅) (trends !! who).

(** every history has at most 50 entries *)
Definition histories_bounded (trends : gmap string TrendRecord) : Prop :=
  ∀ who r, trends !! who = Some r → (length (history r) ≤ 50)%nat.

(** ** Reading a trace *)

Definition is_alert (ev : Event) : bool :=
  match ev with Alert _ _ => true | _ => false end.

(** what a run added to the trace *)
Definition new_events (w w' : World) : list Event :=
  drop (length (trace w)) (trace w').

(** the checks of a trace, by competitor name *)
Definition checks (tr : list Event) : list string :=
  omap (fun ev => match ev with Checking who => Some who | _ => None end) tr.

(** the checks and the delays of a trace *)
Definition schedule (tr : list Event) : list Event :=
  List.filter (fun ev => match ev with Checking _ | Sleep _ => true | _ => false end) tr.

(** in a schedule, every delay stands right after a check and right before
    one: [spaced false] of it holds *)
Fixpoint spaced (after_check : bool) (sched : list Event) : bool :=
  match sched with
  | [] => true
  | Checking _ :: rest => spaced true rest
  | Sleep _ :: rest =>
      after_check
      && match rest with Checking _ :: _ => true | _ => false end
      && spaced false rest
  | _ :: rest => spaced after_check rest
  end.

(** [l] with [sep] between every two neighbours *)
Fixpoint interleave (sep : Event) (l : list Event) : list Event :=
  match l with
  | [] => []
  | [x] => [x]
  | x :: rest => x :: sep :: interleave sep rest
  end.

(** The shape of the trace of a batch over the competitors [names] with
    the delay [rate]: each check logs its start and its alerts, and is
    followed by an error line, by the delay when it is not the last one, or
    by nothing when it is the last one. *)
Inductive batch_trace (rate : Z) : list string → list Event → Prop :=
| batch_done : batch_trace rate [] []
| batch_last who quiet :
    Forall (λ ev, is_alert ev = true) quiet →
    batch_trace rate [who] (Checking who :: quiet)
| batch_sleep who who' names quiet tr :
    Forall (λ ev, is_alert ev = true) quiet →
    fits_time rate = true →
    (0 ≤ rate)%Z →
    batch_trace rate (who' :: names) tr →
    batch_trace rate (who :: who' :: names) (Checking who :: quiet ++ Sleep rate :: tr)
| batch_error who names quiet e tr :
    Forall (λ ev, is_alert ev = true) quiet →
    batch_trace rate names tr →
    batch_trace rate (who :: names)
      (Checking who :: quiet ++ ErrorMonitoring who e :: tr).

(** The state of a batch when the check of its [i]-th enabled competitor
    starts, counting from 0: the state the loop of [monitor_all] has reached
    after the turns of the first [i] of them. *)
Definition before_check (env : Env) (w : World) (i : nat) : World :=
  let enabled_competitors := filter (fun c => enabled c = true) (competitors w) in
  snd (monitor_loop env (length enabled_competitors) 1
         (take i enabled_competitors) [] w).

(** what the [i]-th turn of the loop adds to the trace *)
Definition turn (env : Env) (w : World) (i : nat) : list Event :=
  new_events (before_check env w i) (before_check env w (S i)).

(* ===================================================================== *)
(** * Concrete inputs *)
(* ===================================================================== *)

(** An update as the feed extractor builds it *)
Definition feed_update (title content : string) : Update :=
  new_update "2024-05-01T09:00:00" title content RSS "https://acme.example/feed" None.

(** Two updates that split the same text at different places *)
Definition split_early : Update := feed_update "Release 1" "0 is out".
Definition split_late : Update := feed_update "Release 10" " is out".

(** A long body, and two updates that agree on its first 100 characters *)
Definition long_body : string := PyStr.of_list (replicate 100 "x"%char).
Definition same_prefix_a : Update :=
  new_update "2024-05-01T09:00:00" "Release 2" (long_body +:+ " first ending")
    RSS "https://acme.example/feed" None.
Definition same_prefix_b : Update :=
  new_update "2024-06-11T10:30:00" "Release 2" (long_body +:+ " second ending")
    WEBSITE "https://acme.example/changelog" (Some "2024-06-10").

(** [n] updates with the titles "Release 0", "Release 1", ... *)
Definition numbered (i : nat) : Update :=
  feed_update ("Release " +:+ pretty i) "Bug fixes".
Definition bulk (n : nat) : list Update := numbered <$> seq 0 n.

(** A competitor with a feed, and an outside world in which that feed has
    two entries; the stand-in parser reads markup without tags as one string *)
Definition acme : CompetitorConfig :=
  mkCompetitor "Acme" None (Some "https://acme.example/feed") None None None
    "Productivity" "High" true ["productivity"] "2024-01-01T00:00:00" None.

Definition acme_feed : list FeedEntry :=
  [ mkFeedEntry (Some "Acme launches new product") (Some "Our biggest launch yet")
      None (Some "https://acme.example/1") (Some "Mon, 29 Apr 2024");
    mkFeedEntry (Some "Dark mode") (Some "Added dark mode") None
      (Some "https://acme.example/2") None ].

Definition plain_text_parser (markup : string) : result node :=
  Ok (Elem "[document]" [] [Text markup]).

Definition demo_env : Env :=
  {| now := "2024-05-01T09:00:00";
     feedparser_parse := fun url =>
       if bool_decide (url = "https://acme.example/feed") then Ok acme_feed
       else Ok [];
     requests_get := fun _ => Raise Timeout;
     html_parser := plain_text_parser;
     _search_for_updates := fun _ => [];
     GEMINI_AVAILABLE := false;
     _analyze_with_gemini := fun _ _ _ => None |}.

(** the same outside world an hour later *)
Definition an_hour_later : Env :=
  {| now := "2024-05-01T10:00:00";
     feedparser_parse := feedparser_parse demo_env;
     requests_get := requests_get demo_env;
     html_parser := html_parser demo_env;
     _search_for_updates := _search_for_updates demo_env;
     GEMINI_AVAILABLE := GEMINI_AVAILABLE demo_env;
     _analyze_with_gemini := _analyze_with_gemini demo_env |}.

Definition default_config : MonitoringConfig :=
  {| notification_email := None;
     max_updates_per_competitor := 5;
     notify_on_critical := true;
     notify_on_high := true;
     rate_limit_seconds := 2 |}.

Definition demo_world : World :=
  {| config := default_config;
     cache := ∅;
     trends := ∅;
     competitors := [acme];
     trace := [] |}.

(** Two analyses of Acme as the rule-based analyzer produces them, and a
    third that differs from the first in one feature word *)
Definition launch_analysis : Analysis :=
  _basic_analysis "Acme" "Productivity"
    [feed_update "Acme launches new product" "Our biggest launch yet"].
Definition dark_mode_analysis : Analysis :=
  _basic_analysis "Acme" "Productivity" [feed_update "Dark mode" "Added dark mode"].
Definition mobile_analysis : Analysis :=
  _basic_analysis "Acme" "Productivity"
    [feed_update "Acme launches mobile client" "Our biggest launch yet"].

Definition clock : string := "2024-05-01T09:00:00".

(** the trend store after [n] findings of one kind *)
Definition steady_store (n : nat) : gmap string TrendRecord :=
  record_all clock (replicate n ("Acme", launch_analysis)) ∅.

(** a store that names a competitor and holds no entry for it *)
Definition hollow_store : gmap string TrendRecord :=
  {[ "Acme" := mkTrend [] ∅ ∅ ]}.

(** A changelog page whose only item wraps an image in a link: a list item
    whose first link has no text *)
Definition linked_item : node :=
  Elem "li" []
    [ Elem "a" [("href", "/releases/2")] [Elem "img" [("src", "/icon.png")] []];
      Text "Version two released today" ].

Definition changelog_page : node :=
  Elem "[document]" []
    [ Elem "html" []
        [ Elem "body" [] [ Elem "ul" [] [linked_item] ] ] ].

(** the same children in a container of the first tier *)
Definition linked_card : node :=
  Elem "div" [("class", "post")]
    [ Elem "a" [("href", "/releases/2")] [Elem "img" [("src", "/icon.png")] []];
      Text "Version two released today" ].

(** an outside world that serves that page *)
Definition page_env : Env :=
  {| now := clock;
     feedparser_parse := fun _ => Ok [];
     requests_get := fun _ => Ok (mkResponse 200 "<html>...</html>");
     html_parser := fun _ => Ok changelog_page;
     _search_for_updates := fun _ => [];
     GEMINI_AVAILABLE := false;
     _analyze_with_gemini := fun _ _ _ => None |}.

(** A second competitor, without sources; the outside world while the feed
    of Acme has its second entry only; and the state a batch leaves then *)
Definition linear : CompetitorConfig :=
  mkCompetitor "Linear" None None None None None
    "Project Management" "High" true ["development"] "2024-01-01T00:00:00" None.

Definition short_feed_env : Env :=
  {| now := "2024-04-30T09:00:00";
     feedparser_parse := fun url =>
       if bool_decide (url = "https://acme.example/feed")
       then Ok [mkFeedEntry (Some "Dark mode") (Some "Added dark mode") None
                  (Some "https://acme.example/2") None]
       else Ok [];
     requests_get := fun _ => Raise Timeout;
     html_parser := plain_text_parser;
     _search_for_updates := fun _ => [];
     GEMINI_AVAILABLE := false;
     _analyze_with_gemini := fun _ _ _ => None |}.

Definition two_competitors : World :=
  {| config := default_config;
     cache := ∅;
     trends := ∅;
     competitors := [acme; linear];
     trace := [] |}.

Definition after_short_feed : World :=
  snd (monitor_all short_feed_env two_competitors).

(** A feed that is not well-formed XML: the document behind the address
    ends after its first item,

      <rss version='2.0'><channel><title>Acme</title>
      <item><title>Acme 2.0 released</title>
      <link>https://acme.example/2</link></item>

    with [channel] and [rss] left open.  [feedparser.parse] raises nothing
    on it: it sets [bozo] and returns the entry it read, with its title and
    its link. *)
Definition truncated_feed_env : Env :=
  {| now := clock;
     feedparser_parse := fun url =>
       if bool_decide (url = "https://acme.example/feed")
       then Ok [mkFeedEntry (Some "Acme 2.0 released") None None
                  (Some "https://acme.example/2") None]
       else Ok [];
     requests_get := fun _ => Raise Timeout;
     html_parser := plain_text_parser;
     _search_for_updates := fun _ => [];
     GEMINI_AVAILABLE := false;
     _analyze_with_gemini := fun _ _ _ => None |}.

(** A page that is not well-formed HTML: no [html] or [body], and neither
    the paragraph nor the article is closed.  The parser raises nothing on
    it and closes what is open at the end of the input. *)
Definition unclosed_markup : string :=
  "<article><h2>Acme launches new product line</h2>"
  +:+ "<p>Details follow in the coming weeks and months.".

Definition unclosed_page : node :=
  Elem "[document]" []
    [ Elem "article" []
        [ Elem "h2" [] [ Text "Acme launches new product line" ];
          Elem "p" [] [ Text "Details follow in the coming weeks and months." ] ] ].

Definition unclosed_page_env : Env :=
  {| now := clock;
     feedparser_parse := fun _ => Ok [];
     requests_get := fun _ => Ok (mkResponse 200 unclosed_markup);
     html_parser := fun markup =>
       if bool_decide (markup = unclosed_markup) then Ok unclosed_page
       else plain_text_parser markup;
     _search_for_updates := fun _ => [];
     GEMINI_AVAILABLE := false;
     _analyze_with_gemini := fun _ _ _ => None |}.

(* ===================================================================== *)
(** * The tools that edit [competitors.json] *)
(* ===================================================================== *)

(** Each tool takes the list [load_competitors()] returns and gives, beside
    its answer, the list [competitors.json] holds when it returns.  The
    answers are sentences with characters outside the strings of this
    development; one constructor stands for each of them. *)

(** [c.name.lower() == name.lower()] *)
Definition same_name (who : string) (c : CompetitorConfig) : bool :=
  bool_decide (PyStr.lower (name c) = PyStr.lower who).

(** [comp.enabled = b] *)
Definition set_enabled (c : CompetitorConfig) (b : bool) : CompetitorConfig :=
  mkCompetitor (name c) (website_url c) (rss_feed_url c) (twitter_handle c)
    (linkedin_url c) (press_release_url c) (category c) (priority c) b
    (tags c) (added_at c) (last_checked c).

Inductive AddReply :=
| NeedSource            (* neither a website nor a feed was given *)
| AlreadyTracked        (* the name is taken *)
| Added (new_competitor : CompetitorConfig).

(** [add_competitor]; [now] is [datetime.now().isoformat()], which
    [__post_init__] stores in [added_at] *)
Definition add_competitor (now who : string)
    (website_url rss_feed_url twitter_handle linkedin_url press_release_url
       category : option string)
    (priority : string) (tags : option string)
    (competitors : list CompetitorConfig) : AddReply * list CompetitorConfig :=
  match truthy website_url, truthy rss_feed_url with
  | None, None => (NeedSource, competitors)
  | _, _ =>
      if existsb (same_name who) competitors then (AlreadyTracked, competitors)
      else
        let tag_list :=
          match truthy tags with
          | Some tags =>
              filter (fun t => t ≠ EmptyString)
                     (PyStr.strip <$> PyStr.split_on "," tags)
          | None => []
          end in
        let new_competitor :=
          mkCompetitor who website_url rss_feed_url twitter_handle linkedin_url
            press_release_url (or_else category "Unknown") priority true
            tag_list now None in
        (Added new_competitor, competitors ++ [new_competitor])
  end.

Inductive RemoveReply :=
| Unconfirmed
| NotTracked
| Removed (removed_competitor : option CompetitorConfig).

(** [remove_competitor]: the loop keeps the entries of another name and
    remembers the last one it dropped *)
Definition remove_competitor (who : string) (confirm : bool)
    (competitors : list CompetitorConfig) : RemoveReply * list CompetitorConfig :=
  if negb confirm then (Unconfirmed, competitors)
  else
    let original_count := length competitors in
    let '(removed_competitor, competitors_filtered) :=
      foldl (fun '(removed_competitor, competitors_filtered) c =>
               if same_name who c then (Some c, competitors_filtered)
               else (removed_competitor, competitors_filtered ++ [c]))
            (None, []) competitors in
    if bool_decide (length competitors_filtered = original_count)
    then (NotTracked, competitors)
    else (Removed removed_competitor, competitors_filtered).

Inductive ToggleReply :=
| NotFound
| Toggled (new_status : bool).

(** the loop of [toggle_competitor], with its [break] *)
Fixpoint toggle_first (who : string) (competitors : list CompetitorConfig)
  : option (bool * list CompetitorConfig) :=
  match competitors with
  | [] => None
  | comp :: rest =>
      if same_name who comp
      then Some (negb (enabled comp), set_enabled comp (negb (enabled comp)) :: rest)
      else
        match toggle_first who rest with
        | Some (new_status, rest) => Some (new_status, comp :: rest)
        | None => None
        end
  end.

Definition toggle_competitor (who : string)
    (competitors : list CompetitorConfig) : ToggleReply * list CompetitorConfig :=
  match toggle_first who competitors with
  | Some (new_status, competitors) => (Toggled new_status, competitors)
  | None => (NotFound, competitors)
  end.

(** The grouping loop of [list_competitors]:
    [by_priority = {'High': [], 'Medium': [], 'Low': []}], then
    [by_priority[comp.priority].append(comp)] for every competitor *)
Definition by_priority (competitors : list CompetitorConfig)
  : result (gmap string (list CompetitorConfig)) :=
  foldM (fun groups comp =>
           match groups !! priority comp with
           | Some group => Ok (<[priority comp := group ++ [comp]]> groups)
           | None => Raise KeyError
           end)
        competitors
        {[ "High" := []; "Medium" := []; "Low" := [] ]}.

Inductive CheckReply :=
| CheckNotFound
| CheckDisabled
| NoNewUpdates
| Reported (finding : Finding).

(** [check_single_competitor]: the first entry of that name, letter case
    apart, is checked by a fresh [MonitoringEngine]; what
    [monitor_competitor] raises reaches the caller of the tool *)
Definition check_single_competitor (env : Env) (who : string) (w : World)
  : result CheckReply * World :=
  match List.find (same_name who) (competitors w) with
  | None => (Ok CheckNotFound, w)
  | Some competitor =>
      if negb (enabled competitor) then (Ok CheckDisabled, w)
      else
        match monitor_competitor env w competitor with
        | (Ok (Some finding), w) => (Ok (Reported finding), w)
        | (Ok None, w) => (Ok NoNewUpdates, w)
        | (Raise e, w) => (Raise e, w)
        end
  end.

Inductive ResetReply :=
| ResetUnconfirmed
| Cleared (entries_count : nat).

(** [reset_cache]: [cache] is what [load_cache()] returns, the result what
    [content_cache.json] holds afterwards *)
Definition reset_cache (confirm : bool) (cache : gmap string (list string))
  : ResetReply * gmap string (list string) :=
  if negb confirm then (ResetUnconfirmed, cache)
  else (Cleared (size cache), ∅).

(* ===================================================================== *)
(** * The tools that edit [config.json] *)
(* ===================================================================== *)

Module Stored.

(** [@dataclass MonitoringConfig] with every field, as [config.json] holds it *)
Record MonitoringConfig := mkConfig {
  check_interval_hours : Z;
  enable_scheduling : bool;
  notification_email : option string;
  smtp_server : string;
  smtp_port : Z;
  smtp_username : option string;
  smtp_password : option string;
  max_updates_per_competitor : Z;
  min_impact_level : string;
  digest_format : string;
  notify_on_critical : bool;
  notify_on_high : bool;
  export_after_check : bool;
  rate_limit_seconds : Z
}.

(** [MonitoringConfig()] *)
Definition defaults : MonitoringConfig :=
  {| check_interval_hours := 24;
     enable_scheduling := false;
     notification_email := None;
     smtp_server := "smtp.gmail.com";
     smtp_port := 587;
     smtp_username := None;
     smtp_password := None;
     max_updates_per_competitor := 5;
     min_impact_level := "Low";
     digest_format := "detailed";
     notify_on_critical := true;
     notify_on_high := true;
     export_after_check := false;
     rate_limit_seconds := 2 |}.

End Stored.

(** what [MonitoringEngine] reads of the configuration it loads *)
Definition engine_config (c : Stored.MonitoringConfig) : MonitoringConfig :=
  {| notification_email := Stored.notification_email c;
     max_updates_per_competitor := Stored.max_updates_per_competitor c;
     notify_on_critical := Stored.notify_on_critical c;
     notify_on_high := Stored.notify_on_high c;
     rate_limit_seconds := Stored.rate_limit_seconds c |}.

Inductive ConfigReply :=
| IntervalTooShort      (* "Check interval must be at least 1 hour." *)
| InvalidFormat         (* "Invalid format. Use: ..." *)
| TooFewUpdates         (* "Must allow at least 1 update per competitor." *)
| InvalidPort           (* "Invalid SMTP port. ..." *)
| Saved.

(** [if x is not None: config.field = x] *)
Definition updated {A} (x : option A) (old : A) : A := default old x.

(** [configure_monitoring]: [config] is what [load_config()] returns, the
    result what [config.json] holds afterwards.  A [return] before
    [save_config] leaves the file as it was. *)
Definition configure_monitoring
    (check_interval_hours : option Z) (enable_scheduling : option bool)
    (notification_email smtp_username smtp_password digest_format : option string)
    (notify_on_critical notify_on_high export_after_check : option bool)
    (max_updates_per_competitor : option Z)
    (config : Stored.MonitoringConfig) : ConfigReply * Stored.MonitoringConfig :=
  if match check_interval_hours with Some h => (h <? 1)%Z | None => false end
  then (IntervalTooShort, config)
  else if match digest_format with
          | Some f => bool_decide (f ∉ ["brief"; "summary"; "detailed"])
          | None => false
          end
  then (InvalidFormat, config)
  else if match max_updates_per_competitor with Some m => (m <? 1)%Z | None => false end
  then (TooFewUpdates, config)
  else
    (Saved,
     {| Stored.check_interval_hours :=
          updated check_interval_hours (Stored.check_interval_hours config);
        Stored.enable_scheduling :=
          updated enable_scheduling (Stored.enable_scheduling config);
        Stored.notification_email :=
          updated (Some <$> notification_email) (Stored.notification_email config);
        Stored.smtp_server := Stored.smtp_server config;
        Stored.smtp_port := Stored.smtp_port config;
        Stored.smtp_username :=
          updated (Some <$> smtp_username) (Stored.smtp_username config);
        Stored.smtp_password :=
          updated (Some <$> smtp_password) (Stored.smtp_password config);
        Stored.max_updates_per_competitor :=
          updated max_updates_per_competitor
            (Stored.max_updates_per_competitor config);
        Stored.min_impact_level := Stored.min_impact_level config;
        Stored.digest_format := updated digest_format (Stored.digest_format config);
        Stored.notify_on_critical :=
          updated notify_on_critical (Stored.notify_on_critical config);
        Stored.notify_on_high :=
          updated notify_on_high (Stored.notify_on_high config);
        Stored.export_after_check :=
          updated export_after_check (Stored.export_after_check config);
        Stored.rate_limit_seconds := Stored.rate_limit_seconds config |}).

(** [configure_email_notifications], up to [save_config]; the test mail
    it can send afterwards does not write the file *)
Definition configure_email_notifications
    (email smtp_username smtp_password smtp_server : option string)
    (smtp_port : option Z) (notify_critical notify_high : option bool)
    (config : Stored.MonitoringConfig) : ConfigReply * Stored.MonitoringConfig :=
  if match smtp_port with
     | Some p => bool_decide (p ∉ [25; 465; 587; 2525]%Z)
     | None => false
     end
  then (InvalidPort, config)
  else
    (Saved,
     {| Stored.check_interval_hours := Stored.check_interval_hours config;
        Stored.enable_scheduling := Stored.enable_scheduling config;
        Stored.notification_email :=
          updated (Some <$> email) (Stored.notification_email config);
        Stored.smtp_server := updated smtp_server (Stored.smtp_server config);
        Stored.smtp_port := updated smtp_port (Stored.smtp_port config);
        Stored.smtp_username :=
          updated (Some <$> smtp_username) (Stored.smtp_username config);
        Stored.smtp_password :=
          updated (Some <$> smtp_password) (Stored.smtp_password config);
        Stored.max_updates_per_competitor := Stored.max_updates_per_competitor config;
        Stored.min_impact_level := Stored.min_impact_level config;
        Stored.digest_format := Stored.digest_format config;
        Stored.notify_on_critical :=
          updated notify_critical (Stored.notify_on_critical config);
        Stored.notify_on_high :=
          updated notify_high (Stored.notify_on_high config);
        Stored.export_after_check := Stored.export_after_check config;
        Stored.rate_limit_seconds := Stored.rate_limit_seconds config |}).

(* ===================================================================== *)
(** * More notions the statements use *)
(* ===================================================================== *)

(** no two entries share a name, letter case apart *)
Definition distinct_names (competitors : list CompetitorConfig) : Prop :=
  NoDup ((fun c => PyStr.lower (name c)) <$> competitors).

(** [c'] is [c], but for the time of the last check *)
Definition restamped (c c' : CompetitorConfig) : Prop :=
  c' = c ∨ ∃ t, c' = set_last_checked c t.

(** no two updates share a title *)
Definition distinct_titles (updates : list Update) : Prop :=
  NoDup (title <$> updates).

(** the role test of [_clean_soup] *)
Definition noise_role (tag : node) : bool :=
  match Soup.get "role" tag with
  | Some r => bool_decide (r ∈ noise_roles)
  | None => false
  end.

(** what [_clean_soup] looks for: a tag, a class or id fragment, a role *)
Definition noise (n : node) : bool :=
  Soup.has_name noise_tags n
  || Soup.attr_contains "class" noise_patterns n
  || Soup.attr_contains "id" noise_patterns n
  || noise_role n.

(** the nodes strictly below a node, in document order: the nodes that
    [Soup.descendants] locates *)
Fixpoint below (n : node) : list node :=
  match n with
  | Text _ => []
  | Elem _ _ cs =>
      (fix go (l : list node) : list node :=
         match l with
         | [] => []
         | c :: l' => c :: below c ++ go l'
         end) cs
  end.

(** a test on elements that looks at the tag and the attributes only *)
Definition shallow (q : node → bool) : Prop :=
  ∀ t a cs cs', q (Elem t a cs) = q (Elem t a cs').

(** No element with a [role] attribute lies below an element that the role
    loop of [_clean_soup] removes: on such a page, and on no other, the loop
    never asks a decomposed tag for its role. *)
Definition roles_apart (n : node) : Prop :=
  Forall (λ c, noise_role c = true →
               Forall (λ d, Soup.get "role" d = None) (below c))
         (below n).

(** a page with a script, a cookie banner, a sidebar and one article *)
Definition noisy_page : node :=
  Elem "[document]" []
    [ Elem "html" []
        [ Elem "head" [] [ Elem "script" [("src", "/app.js")] [] ];
          Elem "body" []
            [ Elem "div" [("class", "Cookie-Banner")] [ Text "We use cookies" ];
              Elem "aside" [("role", "complementary")] [ Text "Related links" ];
              Elem "article" [("class", "post")]
                [ Elem "h2" [] [ Text "Version two released" ];
                  Elem "p" [] [ Text "Faster sync and a new editor" ] ] ] ] ].

(** a lower-case hexadecimal digit *)
Definition is_hex_digit (c : ascii) : bool :=
  let n := PyStr.ord c in
  ((48 <=? n) && (n <=? 57) || (97 <=? n) && (n <=? 102))%Z.

(** what the two configuration tools check before they save *)
Definition well_formed (c : Stored.MonitoringConfig) : Prop :=
  (1 ≤ Stored.check_interval_hours c)%Z
  ∧ (1 ≤ Stored.max_updates_per_competitor c)%Z
  ∧ Stored.digest_format c ∈ ["brief"; "summary"; "detailed"]
  ∧ Stored.smtp_port c ∈ [25; 465; 587; 2525]%Z.

(** the engine's state right after [MonitoringEngine()] *)
Definition engine_world (stored : Stored.MonitoringConfig) (w : World) : World :=
  mkWorld (engine_config stored) (cache w) (trends w) (competitors w) (trace w).

(** a world in which alerts have somewhere to go *)
Definition alerting_world : World :=
  {| config := {| notification_email := Some "ops@example.com";
                  max_updates_per_competitor := 5;
                  notify_on_critical := true;
                  notify_on_high := true;
                  rate_limit_seconds := 2 |};
     cache := ∅;
     trends := ∅;
     competitors := [acme; linear];
     trace := [] |}.

(** [c'] is [c], or it is an enabled entry of [roster] with the name of
    [c], stamped with the time [t] of its check *)
Definition kept_or_checked (roster : list CompetitorConfig) (t : string)
    (c c' : CompetitorConfig) : Prop :=
  c' = c
  ∨ ∃ d, d ∈ roster ∧ enabled d = true ∧ name d = name c
         ∧ c' = set_last_checked d t.

(** a list in which two entries share the name "Acme", the first of them
    switched off *)
Definition acme_twice : World :=
  {| config := default_config;
     cache := ∅;
     trends := ∅;
     competitors := [set_enabled acme false; acme];
     trace := [] |}.

(** does the element carry a [role] attribute? *)
Definition has_role (n : node) : bool :=
  match Soup.get "role" n with Some _ => true | None => false end.

(** the page when the role loop of [_clean_soup] begins *)
Definition before_role_loop (soup : node) : node :=
  foldl (fun soup pattern =>
           Soup.prune (Soup.attr_contains "id" [pattern])
             (Soup.prune (Soup.attr_contains "class" [pattern]) soup))
        (Soup.prune (Soup.has_name noise_tags) soup) noise_patterns.

(** a page on which a navigation block holds a link with a role of its
    own, beside an article *)
Definition nested_roles_page : node :=
  Elem "[document]" []
    [ Elem "div" [("role", "navigation")]
        [ Elem "a" [("role", "link"); ("href", "/")] [ Text "Home" ] ];
      Elem "article" []
        [ Elem "h2" [] [ Text "Acme launches new product line" ];
          Elem "p" [] [ Text "Details follow in the coming weeks and months." ] ] ].

Definition nested_roles_env : Env :=
  {| now := clock;
     feedparser_parse := fun _ => Ok [];
     requests_get := fun _ => Ok (mkResponse 200 "<div role='navigation'>...");
     html_parser := fun _ => Ok nested_roles_page;
     _search_for_updates := fun _ => [];
     GEMINI_AVAILABLE := false;
     _analyze_with_gemini := fun _ _ _ => None |}.

(* ===================================================================== *)
(** * The digest on known inputs *)
(* ===================================================================== *)

Example md5_empty :
  Md5.hexdigest (PyStr.encode "") = "d41d8cd98f00b204e9800998ecf8427e".
Proof. vm_compute. reflexivity. Qed.

Example md5_abc :
  Md5.hexdigest (PyStr.encode "abc") = "900150983cd24fb0d6963f7d28e17f72".
Proof. vm_compute. reflexivity. Qed.

Example md5_56_bytes :
  Md5.hexdigest (PyStr.encode (PyStr.of_list (replicate 56 "a"%char)))
  = "3b0c8ac703f828b04c6c197006d17218".
Proof. vm_compute. reflexivity. Qed.

Example md5_64_bytes :
  Md5.hexdigest (PyStr.encode (PyStr.of_list (replicate 64 "a"%char)))
  = "014842d480b571495a4a0363793f7367".
Proof. vm_compute. reflexivity. Qed.

(** "caf" followed by U+00E9, which UTF-8 writes in two bytes *)
Example md5_two_byte_char :
  Md5.hexdigest (PyStr.encode ("caf" +:+ String (ascii_of_nat 233) ""))
  = "07117fe4a1ebd544965dc19573183da2".
Proof. vm_compute. reflexivity. Qed.

(* ===================================================================== *)
(** * Strings and slices *)
(* ===================================================================== *)

Lemma slice_to_len n s : PyStr.len (PyStr.slice_to n s) = n `min` PyStr.len s.
Proof.
  revert s. induction n as [|n IH]; intros [|c s]; simpl; try reflexivity.
  unfold PyStr.len in *. simpl. by rewrite IH.
Qed.

Lemma slice_to_len_le n s : (PyStr.len (PyStr.slice_to n s) ≤ n)%nat.
Proof. rewrite slice_to_len. lia. Qed.

Lemma slice_to_len_ge n k s :
  (k ≤ n)%nat → (k ≤ PyStr.len s)%nat → (k ≤ PyStr.len (PyStr.slice_to n s))%nat.
Proof. rewrite slice_to_len. lia. Qed.

Lemma is_empty_len s : PyStr.is_empty s = true ↔ PyStr.len s = 0%nat.
Proof. destruct s; simpl; split; intros; done. Qed.

Lemma clamp_neg {A} (l : list A) (k : nat) :
  (0 < k)%nat → clamp l (- Z.of_nat k) = (length l - k)%nat.
Proof.
  intros Hk. unfold clamp.
  destruct (Z.ltb_spec (- Z.of_nat k) 0); lia.
Qed.

Lemma slice_from_neg {A} (l : list A) (k : nat) :
  (0 < k)%nat → slice_from (- Z.of_nat k) l = drop (length l - k) l.
Proof. intros Hk. unfold slice_from. by rewrite clamp_neg. Qed.

Lemma slice_from_neg_length {A} (l : list A) (k : nat) :
  (0 < k)%nat → length (slice_from (- Z.of_nat k) l) = (k `min` length l)%nat.
Proof. intros Hk. rewrite slice_from_neg, length_drop by done. lia. Qed.

Lemma slice_neg_neg_length {A} (l : list A) (j k : nat) :
  (0 < k ≤ j)%nat →
  length (slice (- Z.of_nat j) (- Z.of_nat k) l)
  = ((length l - k) - (length l - j))%nat.
Proof.
  intros Hk. unfold slice. rewrite !clamp_neg by lia.
  rewrite length_take, length_drop. lia.
Qed.

(* ===================================================================== *)
(** * Fingerprints *)
(* ===================================================================== *)

(** The fingerprint reads an update through one string only. *)
Lemma fingerprint_of_key (u1 u2 : Update) :
  title u1 +:+ PyStr.slice_to 100 (content u1)
  = title u2 +:+ PyStr.slice_to 100 (content u2) →
  fingerprint u1 = fingerprint u2.
Proof. unfold fingerprint. by intros ->. Qed.

(** C1, as amended: two updates with the same title and the same first 100
    characters of content have the same fingerprint, whatever their other
    fields and the rest of their content.  (The fingerprint is the md5 hex
    digest of the UTF-8 bytes of [title + content[:100]].) *)
Theorem fingerprint_deterministic (u1 u2 : Update) :
  title u1 = title u2 →
  PyStr.slice_to 100 (content u1) = PyStr.slice_to 100 (content u2) →
  fingerprint u1 = fingerprint u2.
Proof.
  intros Htitle Hprefix. apply fingerprint_of_key. by rewrite Htitle, Hprefix.
Qed.

(** [fingerprint_deterministic] at two updates that agree on the title and
    on the first 100 characters of the content and differ in the rest *)
Lemma fingerprint_deterministic_witness :
  fingerprint same_prefix_a = fingerprint same_prefix_b
  ∧ content same_prefix_a ≠ content same_prefix_b
  ∧ url same_prefix_a ≠ url same_prefix_b.
Proof.
  split; [ apply (fingerprint_deterministic same_prefix_a same_prefix_b);
           vm_compute; reflexivity
         | split; vm_compute; discriminate ].
Defined.

(** C1, the converse fails: the title and the content are concatenated
    before hashing, so "Release 1" + "0 is out" and "Release 10" + " is out"
    have one fingerprint, with different titles and different content
    prefixes. *)
Lemma fingerprint_not_injective :
  fingerprint split_early = fingerprint split_late
  ∧ title split_early ≠ title split_late
  ∧ PyStr.slice_to 100 (content split_early)
    ≠ PyStr.slice_to 100 (content split_late).
Proof.
  split; [ apply fingerprint_of_key; vm_compute; reflexivity
         | split; vm_compute; discriminate ].
Qed.

(* ===================================================================== *)
(** * The fingerprint cache *)
(* ===================================================================== *)

Lemma filter_new_spec cache name updates (u : Update) :
  u ∈ _filter_new_updates cache name updates
  ↔ u ∈ updates ∧ fingerprint u ∉ cached cache name.
Proof.
  unfold _filter_new_updates, cached.
  rewrite list_elem_of_filter, elem_of_list_to_set. tauto.
Qed.

Lemma filter_new_nil cache name updates :
  _filter_new_updates cache name updates = []
  ↔ ∀ u, u ∈ updates → fingerprint u ∈ cached cache name.
Proof.
  split.
  - intros Hnil u Hu.
    destruct (decide (fingerprint u ∈ cached cache name)) as [|Hout]; [done|].
    assert (u ∈ _filter_new_updates cache name updates) as Hin
      by (by apply filter_new_spec).
    rewrite Hnil in Hin. by apply elem_of_nil in Hin.
  - intros Hall.
    destruct (_filter_new_updates cache name updates) as [|u l] eqn:E; [done|].
    assert (u ∈ _filter_new_updates cache name updates) as Hin
      by (rewrite E; left).
    apply filter_new_spec in Hin as [Hu Hout]. destruct Hout. by apply Hall.
Qed.

Lemma update_cache_lookup cache name updates :
  _update_cache cache name updates !! cache_key name
  = Some (take 100 (fingerprint <$> updates)).
Proof. unfold _update_cache. by rewrite lookup_insert_eq. Qed.

Lemma update_cache_lookup_ne cache name updates k :
  k ≠ cache_key name → _update_cache cache name updates !! k = cache !! k.
Proof. intros Hk. unfold _update_cache. by rewrite lookup_insert_ne. Qed.

Lemma cached_update_cache cache name updates :
  cached (_update_cache cache name updates) name
  = take 100 (fingerprint <$> updates).
Proof. unfold cached. by rewrite update_cache_lookup. Qed.

(** With at most 100 candidates, the commit leaves nothing new. *)
Lemma filter_after_commit cache name updates :
  (length updates ≤ 100)%nat →
  _filter_new_updates (_update_cache cache name updates) name updates = [].
Proof.
  intros Hlen. apply filter_new_nil. intros u Hu.
  rewrite cached_update_cache, take_ge by (by rewrite length_fmap).
  by apply list_elem_of_fmap_2.
Qed.

(** ** One check, then the same check again *)

Lemma send_alert_cache w who level text :
  cache (send_alert w who level text) = cache w
  ∧ trends (send_alert w who level text) = trends w
  ∧ config (send_alert w who level text) = config w.
Proof.
  unfold send_alert.
  repeat (case_match; simpl; try done).
Qed.

(** The shape of a call that returns a finding. *)
Lemma monitor_competitor_finding env w competitor finding w1 :
  monitor_competitor env w competitor = (Ok (Some finding), w1) →
  enabled competitor = true
  ∧ _filter_new_updates (cache w) (name competitor) (gather_updates env competitor) ≠ []
  ∧ cache w1 = _update_cache (cache w) (name competitor) (gather_updates env competitor)
  ∧ f_updates finding
    = slice 0 (max_updates_per_competitor (config w))
        (_filter_new_updates (cache w) (name competitor) (gather_updates env competitor))
  ∧ analyze_updates env (name competitor) (category competitor)
      (_filter_new_updates (cache w) (name competitor) (gather_updates env competitor))
    = Some (f_analysis finding)
  ∧ record_finding (now env) (trends w) (name competitor) (f_analysis finding)
    = Ok (trends w1).
Proof.
  unfold monitor_competitor.
  destruct (enabled competitor); simpl; [|done].
  destruct (gather_updates env competitor) as [|u0 us] eqn:Hg; [done|].
  destruct (_filter_new_updates (cache w) (name competitor) (u0 :: us))
    as [|n0 ns] eqn:Hf; [done|].
  destruct (analyze_updates env (name competitor) (category competitor) (n0 :: ns))
    as [analysis|] eqn:Ha; [|done].
  destruct (record_finding (now env) (trends w) (name competitor) analysis)
    as [trends'|e] eqn:Hr; [|done].
  intros [= <- <-]. simpl.
  case_bool_decide; simpl;
    repeat split; try done;
    by rewrite ?(proj1 (send_alert_cache _ _ _ _)),
               ?(proj1 (proj2 (send_alert_cache _ _ _ _))),
               ?(proj2 (proj2 (send_alert_cache _ _ _ _))).
Qed.

(** A check whose candidates are all cached returns nothing and keeps the
    cache and the trend store. *)
Lemma monitor_competitor_all_seen env w competitor :
  enabled competitor = true →
  _filter_new_updates (cache w) (name competitor) (gather_updates env competitor) = [] →
  ∃ w', monitor_competitor env w competitor = (Ok None, w')
        ∧ cache w' = cache w ∧ trends w' = trends w ∧ trace w' = trace w.
Proof.
  intros Hen Hnil. unfold monitor_competitor. rewrite Hen. simpl.
  destruct (gather_updates env competitor) as [|u0 us] eqn:Hg; [by eexists|].
  rewrite Hnil. by eexists.
Qed.

(** A check with something new, in this development, where every text can
    be encoded: it returns a finding when the trend store takes the
    analysis, and raises what the trend store raises otherwise. *)
Lemma monitor_competitor_new env w competitor :
  enabled competitor = true →
  _filter_new_updates (cache w) (name competitor) (gather_updates env competitor) ≠ [] →
  ∃ analysis,
    analyze_updates env (name competitor) (category competitor)
      (_filter_new_updates (cache w) (name competitor) (gather_updates env competitor))
    = Some analysis
    ∧ (returns (record_finding (now env) (trends w) (name competitor) analysis) = true →
       ∃ finding w1, monitor_competitor env w competitor = (Ok (Some finding), w1)
                     ∧ f_analysis finding = analysis)
    ∧ (∀ e, record_finding (now env) (trends w) (name competitor) analysis = Raise e →
       monitor_competitor env w competitor = (Raise e, w)).
Proof.
  intros Hen Hnew. unfold monitor_competitor. rewrite Hen. simpl.
  destruct (gather_updates env competitor) as [|u0 us] eqn:Hg.
  { by destruct Hnew. }
  destruct (_filter_new_updates (cache w) (name competitor) (u0 :: us))
    as [|n0 ns] eqn:Hf; [done|].
  assert (∃ a, analyze_updates env (name competitor) (category competitor) (n0 :: ns)
               = Some a) as [a Ha].
  { unfold analyze_updates. repeat case_match; eauto. }
  exists a. rewrite Ha. split; [done|].
  destruct (record_finding (now env) (trends w) (name competitor) a) as [t|e']; simpl.
  - split; [|done]. intros _. by eexists _, _.
  - split; [done|]. by intros e [= ->].
Qed.

(** A check that raises leaves the state as it was. *)
Lemma monitor_competitor_raises env w competitor e w1 :
  monitor_competitor env w competitor = (Raise e, w1) → w1 = w.
Proof.
  unfold monitor_competitor.
  repeat (case_match; try done); by intros [= _ <-].
Qed.




(** ** The bound on the cache *)

Lemma cache_bounded_empty : cache_bounded ∅.
Proof. intros k hashes. by rewrite lookup_empty. Qed.

Lemma update_cache_bounded cache name updates :
  cache_bounded cache → cache_bounded (_update_cache cache name updates).
Proof.
  intros Hb k hashes. unfold _update_cache.
  rewrite lookup_insert. case_decide as Hk.
  - intros [= <-]. rewrite length_take. lia.
  - apply Hb.
Qed.

(** A check leaves the cache as it was or commits once. *)
Lemma monitor_competitor_cache env w competitor :
  cache (snd (monitor_competitor env w competitor)) = cache w
  ∨ cache (snd (monitor_competitor env w competitor))
    = _update_cache (cache w) (name competitor) (gather_updates env competitor).
Proof.
  unfold monitor_competitor.
  repeat (case_match; simpl; auto).
  rewrite ?(proj1 (send_alert_cache _ _ _ _)); auto.
Qed.

Lemma monitor_competitor_bounded env w competitor :
  cache_bounded (cache w) →
  cache_bounded (cache (snd (monitor_competitor env w competitor))).
Proof.
  intros Hb. destruct (monitor_competitor_cache env w competitor) as [-> | ->];
    [done | by apply update_cache_bounded].
Qed.

Lemma run_checks_bounded calls w :
  cache_bounded (cache w) → cache_bounded (cache (run_checks calls w)).
Proof.
  revert w. induction calls as [|[env competitor] calls IH]; intros w Hb; [done|].
  simpl. by apply IH, monitor_competitor_bounded.
Qed.

Lemma monitor_loop_bounded env n i cs findings w :
  cache_bounded (cache w) →
  cache_bounded (cache (snd (monitor_loop env n i cs findings w))).
Proof.
  revert i findings w.
  induction cs as [|competitor cs IH]; intros i findings w Hb; [done|].
  simpl.
  pose proof (monitor_competitor_bounded env (log w (Checking (name competitor)))
                competitor Hb) as Hb'.
  destruct (monitor_competitor env (log w (Checking (name competitor))) competitor)
    as [outcome w'].
  simpl in Hb'.
  destruct outcome as [result|e]; [|by apply IH].
  unfold sleep.
  repeat case_match; simplify_eq; by apply IH.
Qed.

(** C3: when every stored fingerprint sequence has at most 100 entries (as
    in the empty cache), so it is after any run of check cycles, and after a
    whole batch; the sequence a commit writes has at most 100 entries
    whatever was stored before. *)
Theorem cache_bound (calls : list (Env * CompetitorConfig)) (env : Env) (w : World) :
  cache_bounded (cache w) →
  cache_bounded (cache (run_checks calls w))
  ∧ cache_bounded (cache (snd (monitor_all env w)))
  ∧ ∀ name updates,
      (length (cached (_update_cache (cache w) name updates) name) ≤ 100)%nat.
Proof.
  intros Hb. split; [|split].
  - by apply run_checks_bounded.
  - by apply monitor_loop_bounded.
  - intros name updates. rewrite cached_update_cache, length_take. lia.
Qed.

(** [cache_bound] from the empty cache, for two checks and for a batch *)
Lemma cache_bound_witness :
  cache_bounded (cache (run_checks [(demo_env, acme); (demo_env, acme)] demo_world))
  ∧ cache_bounded (cache (snd (monitor_all demo_env demo_world))).
Proof.
  destruct (cache_bound [(demo_env, acme); (demo_env, acme)] demo_env demo_world)
    as (H1 & H2 & _); [apply cache_bounded_empty | by split].
Defined.

(** ** Which fingerprints the commit keeps *)

(** What the commit stores, in general: the candidates' fingerprints, old
    and new alike, in processing order, cut to the first 100. *)
Lemma update_cache_stores_all cache name updates :
  cached (_update_cache cache name updates) name
  = take 100 (fingerprint <$> updates)
  ∧ ((length updates ≤ 100)%nat →
     cached (_update_cache cache name updates) name = fingerprint <$> updates).
Proof.
  split; [apply cached_update_cache|].
  intros Hlen. rewrite cached_update_cache. apply take_ge. by rewrite length_fmap.
Qed.

(** A check that returns no finding has committed nothing. *)
Lemma monitor_competitor_no_commit env w competitor :
  (∀ finding, fst (monitor_competitor env w competitor) ≠ Ok (Some finding)) →
  cache (snd (monitor_competitor env w competitor)) = cache w.
Proof.
  unfold monitor_competitor.
  repeat (case_match; simpl; try done).
  all: intros Hnone; by edestruct Hnone.
Qed.

(** C4, as amended: a cycle that returns a finding commits, for that
    competitor, the fingerprints of all candidates it processed, old and new
    alike and in processing order (for a cycle of at most 100 candidates),
    and leaves the entries of the other competitors alone; a cycle that
    returns no finding commits nothing. *)
Theorem commit_stores_all_candidates (env : Env) (w : World)
    (competitor : CompetitorConfig) :
  let updates := gather_updates env competitor in
  let outcome := monitor_competitor env w competitor in
  (length updates ≤ 100)%nat →
  (∀ finding,
     fst outcome = Ok (Some finding) →
     cached (cache (snd outcome)) (name competitor) = fingerprint <$> updates
     ∧ ∀ k, k ≠ cache_key (name competitor) →
            cache (snd outcome) !! k = cache w !! k)
  ∧ ((∀ finding, fst outcome ≠ Ok (Some finding)) →
     cache (snd outcome) = cache w).
Proof.
  intros updates outcome Hlen. split.
  - intros finding Hfst.
    destruct outcome as [o w1] eqn:Hcall. simpl in Hfst. subst o.
    apply monitor_competitor_finding in Hcall as (_ & _ & Hcache & _).
    simpl. rewrite Hcache. split.
    + by apply update_cache_stores_all.
    + intros k Hk. by apply update_cache_lookup_ne.
  - apply monitor_competitor_no_commit.
Qed.

(** [commit_stores_all_candidates] at a feed of two entries and an empty
    cache *)
Lemma commit_stores_all_candidates_witness :
  cached (cache (snd (monitor_competitor demo_env demo_world acme))) "Acme"
  = fingerprint <$> gather_updates demo_env acme
  ∧ length (gather_updates demo_env acme) = 2%nat.
Proof.
  destruct (commit_stores_all_candidates demo_env demo_world acme) as [H _].
  - vm_compute. lia.
  - edestruct H as [Hc _]; [vm_compute; reflexivity|].
    split; [exact Hc | vm_compute; reflexivity].
Defined.

(** C4, as stated, fails for a cycle that finds nothing new.  A first check
    commits the two entries of the feed; a second check, run while the feed
    shows its second entry only, processes that one candidate, finds it
    cached and commits nothing: the stored fingerprints are still those of
    the first cycle, not those of the candidates of the second. *)
Lemma no_commit_when_nothing_new :
  fst (monitor_competitor short_feed_env
         (snd (monitor_competitor demo_env demo_world acme)) acme) = Ok None
  ∧ length (gather_updates short_feed_env acme) = 1%nat
  ∧ cached (cache (snd (monitor_competitor short_feed_env
                          (snd (monitor_competitor demo_env demo_world acme)) acme)))
      "Acme"
    = fingerprint <$> gather_updates demo_env acme
  ∧ (cached (cache (snd (monitor_competitor short_feed_env
                           (snd (monitor_competitor demo_env demo_world acme)) acme)))
       "Acme"
     ≠ fingerprint <$> gather_updates short_feed_env acme).
Proof.
  split; [vm_compute; reflexivity|].
  split; [vm_compute; reflexivity|].
  split; [vm_compute; reflexivity|].
  vm_compute. discriminate.
Qed.

(** Beyond 100 candidates the commit keeps the fingerprints of the first 100
    in processing order ([update_hashes[:100]], under the comment "Keep last
    100 hashes per competitor"): of 101 candidates the earliest one stays
    and the most recent one is dropped; the stored sequence is not the last
    100. *)
Lemma update_cache_keeps_first_100 :
  cached (_update_cache ∅ "Acme" (bulk 101)) "Acme"
  = take 100 (fingerprint <$> bulk 101)
  ∧ (fingerprint (numbered 0) ∈ cached (_update_cache ∅ "Acme" (bulk 101)) "Acme")
  ∧ (fingerprint (numbered 100) ∉ cached (_update_cache ∅ "Acme" (bulk 101)) "Acme")
  ∧ (cached (_update_cache ∅ "Acme" (bulk 101)) "Acme"
     ≠ slice_from (-100) (fingerprint <$> bulk 101)).
Proof.
  split; [apply cached_update_cache|].
  split; [apply (bool_decide_unpack _); vm_compute; exact I|].
  split; [apply (bool_decide_unpack _); vm_compute; exact I|].
  apply (bool_decide_unpack _); vm_compute; exact I.
Qed.

(* ===================================================================== *)
(** * The trend store *)
(* ===================================================================== *)

Lemma total_empty : total ∅ = 0%nat.
Proof. unfold total. by rewrite map_fold_empty. Qed.

Lemma total_insert_fresh (counts : gmap string nat) k n :
  counts !! k = None → total (<[k := n]> counts) = (n + total counts)%nat.
Proof.
  intros Hk. unfold total. rewrite map_fold_insert_L; [done| |done].
  intros. lia.
Qed.

Lemma total_insert_present (counts : gmap string nat) k n m :
  counts !! k = Some m →
  (total (<[k := n]> counts) + m = n + total counts)%nat.
Proof.
  intros Hk.
  rewrite <-(insert_delete_eq counts k n).
  rewrite <-(insert_id counts k m Hk) at 2.
  rewrite <-(insert_delete_eq counts k m).
  rewrite !total_insert_fresh by apply lookup_delete_eq. lia.
Qed.

(** an increment that returns adds one to the sum of the counters *)
Lemma incr_total b counts k counts' :
  incr b counts k = Ok counts' → total counts' = S (total counts).
Proof.
  unfold incr. destruct (counts !! k) as [n|] eqn:Hk.
  - intros [= <-]. pose proof (total_insert_present counts k (S n) n Hk). lia.
  - destruct b; [|done]. intros [= <-]. by rewrite total_insert_fresh.
Qed.

(** on a plain dictionary an increment returns exactly when the key is there *)
Lemma incr_plain_dict counts k :
  returns (incr false counts k) = true ↔ is_Some (counts !! k).
Proof.
  unfold incr. destruct (counts !! k); simpl; split; eauto; try done.
Qed.

Lemma slice_from_50_if {A} (l : list A) :
  (if bool_decide (50 < length l)%nat then slice_from (-50) l else l)
  = drop (length l - 50) l.
Proof.
  change (-50)%Z with (- Z.of_nat 50)%Z.
  rewrite slice_from_neg by lia.
  case_bool_decide; [done|].
  by replace (length l - 50)%nat with 0%nat by lia.
Qed.

(** What a returning [record_finding] writes: only the record of that
    competitor changes; its history is the old one with the new entry, cut
    from the front to the newest 50; its impact counters sum to one more. *)
Lemma record_finding_ok now trends name analysis trends' :
  record_finding now trends name analysis = Ok trends' →
  ∃ r, trends' = <[name := r]> trends
       ∧ history r
         = drop (length (history (trend_of trends name) ++
                   [mkEntry now (impact analysis) (threat_level analysis)
                      (summary analysis) (key_features analysis)]) - 50)
                (history (trend_of trends name) ++
                   [mkEntry now (impact analysis) (threat_level analysis)
                      (summary analysis) (key_features analysis)])
       ∧ (length (history r) ≤ 50)%nat
       ∧ total (impact_counts r) = S (total (impact_counts (trend_of trends name))).
Proof.
  unfold record_finding, trend_of.
  destruct (trends !! name) as [old|] eqn:Hold; simpl.
  - destruct (incr false (impact_counts old) (impact analysis)) as [c|] eqn:Hc;
      simpl; [|done].
    destruct (foldM _ (key_features analysis) (feature_mentions old)) as [m|];
      simpl; [|done].
    intros [= <-]. eexists. split; [reflexivity|]. simpl.
    rewrite slice_from_50_if. split; [done|]. split.
    + rewrite length_drop. lia.
    + by eapply incr_total.
  - destruct (incr true ∅ (impact analysis)) as [c|] eqn:Hc; simpl; [|done].
    destruct (foldM _ (key_features analysis) ∅) as [m|]; simpl; [|done].
    intros [= <-]. eexists. split; [reflexivity|]. simpl.
    split; [done|]. split; [lia|]. by eapply incr_total.
Qed.

(** For a competitor already in the store, an impact level that has no
    counter yet makes the call raise. *)
Lemma record_finding_new_level now trends name analysis old :
  trends !! name = Some old →
  impact_counts old !! impact analysis = None →
  record_finding now trends name analysis = Raise KeyError.
Proof.
  intros Hold Hnone. unfold record_finding. rewrite Hold. simpl.
  unfold incr. by rewrite Hnone.
Qed.

Lemma record_histories_bounded now trends name analysis :
  histories_bounded trends → histories_bounded (record now trends name analysis).
Proof.
  intros Hb. unfold record.
  destruct (record_finding now trends name analysis) as [t|] eqn:Hr; [|done].
  apply record_finding_ok in Hr as (r & -> & _ & Hlen & _).
  intros who r'. rewrite lookup_insert. case_decide; [by intros [= <-]|apply Hb].
Qed.

(** From any store with bounded histories, every run of calls keeps them
    bounded. *)
Lemma record_all_histories_bounded now calls trends :
  histories_bounded trends → histories_bounded (record_all now calls trends).
Proof.
  revert trends. induction calls as [|[name a] calls IH]; intros trends Hb; [done|].
  simpl. by apply IH, record_histories_bounded.
Qed.

(** The counters of a competitor sum to the number of its calls that
    returned. *)
Lemma record_all_total now calls trends who :
  total (impact_counts (trend_of (record_all now calls trends) who))
  = (total (impact_counts (trend_of trends who))
     + count_returned now calls trends who)%nat.
Proof.
  revert trends. induction calls as [|[name a] calls IH]; intros trends; simpl; [lia|].
  rewrite IH. unfold record.
  destruct (record_finding now trends name a) as [t|e] eqn:Hr; simpl.
  - apply record_finding_ok in Hr as (r & -> & _ & _ & Htot).
    unfold trend_of at 1. rewrite lookup_insert.
    case_decide as Hn; case_bool_decide; simplify_eq; simpl.
    + rewrite Htot. lia.
    + fold (trend_of trends who). lia.
  - rewrite andb_false_r. lia.
Qed.

(** C5, the code on two findings for one competitor: the first call creates
    the record; the second, whose impact level has no counter yet, raises
    [KeyError] and writes nothing, and so does a call that brings a new
    feature word.  After two [record_finding] calls the counters sum to 1. *)
Lemma record_finding_loses_calls :
  impact launch_analysis = "High"
  ∧ impact dark_mode_analysis = "Medium"
  ∧ impact mobile_analysis = "High"
  ∧ returns (record_finding clock ∅ "Acme" launch_analysis) = true
  ∧ record_finding clock (record clock ∅ "Acme" launch_analysis) "Acme"
      dark_mode_analysis = Raise KeyError
  ∧ record_finding clock (record clock ∅ "Acme" launch_analysis) "Acme"
      mobile_analysis = Raise KeyError
  ∧ total (impact_counts
             (trend_of (record_all clock [("Acme", launch_analysis);
                                           ("Acme", dark_mode_analysis)] ∅) "Acme"))
    = 1%nat
  ∧ length (history
              (trend_of (record_all clock [("Acme", launch_analysis);
                                            ("Acme", dark_mode_analysis)] ∅) "Acme"))
    = 1%nat.
Proof. repeat split; vm_compute; reflexivity. Qed.

(** ** Statistics *)




(* ===================================================================== *)
(** * The extractors *)
(* ===================================================================== *)

(** a loop over entries raises as soon as one entry does *)
Lemma mapM_raises {A B} (f : A → result B) (l : list A) (x : A) (e : exn) :
  x ∈ l → f x = Raise e → ∃ e', mapM f l = Raise e'.
Proof.
  intros Hx Hf. induction l as [|y l IH]; [by apply elem_of_nil in Hx|].
  apply elem_of_cons in Hx as [<- | Hx]; simpl.
  - rewrite Hf. by eexists.
  - destruct (f y); simpl; [|by eexists].
    destruct (IH Hx) as [e' ->]. by eexists.
Qed.

Lemma try_except_total {A} (body : result A) (handler : exn → result A) :
  (∀ e, ∃ a, handler e = Ok a) → ∃ a, try_except body handler = Ok a.
Proof. intros Hh. destruct body as [a|e]; simpl; [by eexists | apply Hh]. Qed.

(** a loop over entries returns when every entry does *)
Lemma mapM_returns {A B} (f : A → result B) (l : list A) :
  (∀ x, x ∈ l → returns (f x) = true) →
  ∃ r, mapM f l = Ok r ∧ length r = length l.
Proof.
  induction l as [|x l IH]; intros Hall; [by exists []|].
  assert (returns (f x) = true) as Hx by (apply Hall; left).
  destruct (f x) as [y|] eqn:Hf; [|done].
  destruct IH as (r & Hr & Hlen); [intros z Hz; apply Hall; by right|].
  exists (y :: r). simpl. rewrite Hf. simpl. rewrite Hr. simpl.
  split; [done|]. by rewrite Hlen.
Qed.



(** the request of [demo_env] times out *)
Example extract_from_website_timeout :
  requests_get demo_env "https://acme.example/changelog" = Raise Timeout
  ∧ extract_from_website demo_env "https://acme.example/changelog" = Ok [].
Proof. split; reflexivity. Qed.

(** ** Titles *)

#[local] Arguments PyStr.slice_to : simpl never.
#[local] Arguments PyStr.len : simpl never.
#[local] Arguments new_update : simpl never.

Lemma new_update_title now t c s u d : title (new_update now t c s u d) = t.
Proof. reflexivity. Qed.

Lemma _extract_from_container_title env container url u :
  _extract_from_container env container url = Some u →
  (5 ≤ PyStr.len (title u) ≤ 250)%nat.
Proof.
  unfold _extract_from_container.
  destruct (match Soup.find title_tags container with
            | Some e => _ | None => _ end) as [t|]; simpl; [|done].
  destruct (PyStr.is_empty t) eqn:He; simpl; [done|].
  case_bool_decide as Hlen; simpl; [done|].
  intros [= <-]. rewrite new_update_title, slice_to_len. lia.
Qed.

Lemma _extract_from_heading_title env heading url u :
  _extract_from_heading env heading url = Some u →
  (5 ≤ PyStr.len (title u) ≤ 250)%nat.
Proof.
  unfold _extract_from_heading.
  destruct (PyStr.is_empty (Soup.get_text (here heading))); simpl; [done|].
  case_bool_decide as Hlen; simpl; [done|].
  destruct (_ && _); [done|].
  intros [= <-]. rewrite new_update_title, slice_to_len. lia.
Qed.

Lemma _extract_from_list_item_title env li url u :
  _extract_from_list_item env li url = Some u →
  (PyStr.len (title u) ≤ 250)%nat.
Proof.
  unfold _extract_from_list_item.
  destruct (_ || _); [done|].
  destruct (match Soup.find _ li with Some h => _ | None => _ end) as [t c].
  intros [= <-]. rewrite new_update_title. apply slice_to_len_le.
Qed.

(** without an inner heading, link or bold element the list item's title is
    not empty *)
Lemma _extract_from_list_item_plain env li url u :
  Soup.find ["strong"; "b"; "h1"; "h2"; "h3"; "h4"; "h5"; "h6"; "a"] li = None →
  _extract_from_list_item env li url = Some u →
  (1 ≤ PyStr.len (title u))%nat.
Proof.
  intros Hfind. unfold _extract_from_list_item. rewrite Hfind.
  destruct (PyStr.is_empty (Soup.get_text li)) eqn:He; simpl; [done|].
  case_bool_decide as Hlen; simpl; [done|].
  destruct (PyStr.split_on "." (Soup.get_text li)) as [|s0 ss].
  - intros [= <-]. rewrite new_update_title, !slice_to_len. lia.
  - case_bool_decide; intros [= <-]; rewrite new_update_title, !slice_to_len; lia.
Qed.

(** C10, the code on a list item whose first link has no text (an image
    link): the list tier returns an update with the empty title, and the
    page extraction returns it; the container tier, given the same children,
    rejects it. *)
Lemma list_item_empty_title :
  _extract_from_list_item page_env linked_item "https://acme.example/changelog"
  = Some (new_update clock "" "Version two released today" WEBSITE
            "https://acme.example/changelog" None)
  ∧ extract_from_website page_env "https://acme.example/changelog"
    = Ok [new_update clock "" "Version two released today" WEBSITE
            "https://acme.example/changelog" None]
  ∧ _extract_from_container page_env linked_card "https://acme.example/changelog"
    = None.
Proof. repeat split; vm_compute; reflexivity. Qed.

(** feed entries keep their title as it is *)
Lemma rss_entry_title env url entry u :
  rss_entry env url entry = Ok u → title u = default "Untitled" (e_title entry).
Proof.
  unfold rss_entry.
  destruct (if PyStr.is_empty _ then _ else _) as [summary|]; simpl; [|done].
  by intros [= <-].
Qed.

(** ** Titles of a whole page *)

Lemma append_unless_titled_short updates update :
  Forall short_title updates →
  (∀ u, update = Some u → short_title u) →
  Forall short_title (append_unless_titled updates update).
Proof.
  intros Hall Hu. unfold append_unless_titled.
  destruct update as [u|]; [|done].
  case_match; [done|].
  apply Forall_app. split; [done|]. constructor; [by apply Hu | constructor].
Qed.

Lemma foldl_short {A} (step : list Update → A → list Update) (l : list A) init :
  (∀ updates x, Forall short_title updates → Forall short_title (step updates x)) →
  Forall short_title init →
  Forall short_title (foldl step init l).
Proof.
  intros Hstep. revert init.
  induction l as [|x l IH]; intros init Hinit; simpl; [done|].
  by apply IH, Hstep.
Qed.

Lemma new_update_short now t c s u d :
  short_title (new_update now (PyStr.slice_to 250 t) c s u d).
Proof. unfold short_title. rewrite new_update_title. apply slice_to_len_le. Qed.

Lemma _extract_structured_content_titles env soup url :
  Forall short_title (_extract_structured_content env soup url).
Proof.
  unfold _extract_structured_content.
  set (main_content := default soup _).
  set (containers := foldl _ (class_containers _ _ _) _).
  apply Forall_take.
  assert (Forall short_title
            (foldl (λ updates container,
                      append_unless_titled updates
                        (_extract_from_container env (here container) url))
                   [] (take 20 (unique_containers [] containers)))) as H1.
  { apply foldl_short; [|done]. intros updates x Hall.
    apply append_unless_titled_short; [done|]. intros u Hu.
    apply _extract_from_container_title in Hu. unfold short_title. lia. }
  set (tier1 := foldl _ [] (take 20 _)) in *.
  assert (Forall short_title
            (if bool_decide (length tier1 < 3)%nat
             then foldl (λ updates heading,
                           append_unless_titled updates
                             (_extract_from_heading env heading url))
                        tier1
                        (Soup.find_all ["h1"; "h2"; "h3"; "h4"] (Some 25%nat)
                           main_content)
             else tier1)) as H2.
  { case_bool_decide; [|done].
    apply foldl_short; [|done]. intros updates x Hall.
    apply append_unless_titled_short; [done|]. intros u Hu.
    apply _extract_from_heading_title in Hu. unfold short_title. lia. }
  set (tier2 := if bool_decide (length tier1 < 3)%nat then _ else _) in *.
  case_bool_decide; [|done].
  apply foldl_short; [|done]. intros updates ul Hall.
  apply foldl_short; [|done]. intros updates' li Hall'.
  apply append_unless_titled_short; [done|]. intros u Hu.
  by apply _extract_from_list_item_title in Hu.
Qed.

Lemma _aggressive_extraction_titles env soup url :
  Forall short_title (_aggressive_extraction env soup url).
Proof.
  unfold _aggressive_extraction.
  apply Forall_take.
  repeat case_bool_decide;
    repeat (apply foldl_short; [intros updates x Hall|]);
    repeat case_match; try done;
    try (apply append_unless_titled_short; [done|intros u [= <-]]);
    try apply new_update_short.
Qed.

Lemma Ok_inj {A} (x y : A) : Ok x = Ok y → y = x.
Proof. by intros [= ->]. Qed.

(** What the page extractor returns: nothing, or what the two passes find
    in the cleaned page. *)
Lemma extract_from_website_ok env url updates :
  extract_from_website env url = Ok updates →
  updates = []
  ∨ ∃ response soup cleaned,
      requests_get env url = Ok response
      ∧ html_parser env (text response) = Ok soup
      ∧ _clean_soup soup = Ok cleaned
      ∧ updates = match _extract_structured_content env cleaned url with
                  | [] => _aggressive_extraction env cleaned url
                  | _ => _extract_structured_content env cleaned url
                  end.
Proof.
  unfold extract_from_website.
  destruct (requests_get env url) as [response|e] eqn:Hget;
    cbn [mbind result_bind try_except].
  2: { left. repeat case_match; by simplify_eq. }
  destruct (raise_for_status response); cbn [mbind result_bind try_except].
  2: { left. repeat case_match; by simplify_eq. }
  destruct (html_parser env (text response)) as [soup|e] eqn:Hparse;
    cbn [mbind result_bind try_except].
  2: { left. repeat case_match; by simplify_eq. }
  destruct (_clean_soup soup) as [cleaned|e] eqn:Hclean;
    cbn [mbind result_bind try_except].
  2: { left. repeat case_match; by simplify_eq. }
  intros Hupdates. right. exists response, soup, cleaned.
  split; [reflexivity|]. split; [exact Hparse|]. split; [exact Hclean|].
  exact (Ok_inj _ _ Hupdates).
Qed.

(** Every update of a page has a title of at most 250 characters. *)
Lemma extract_from_website_titles env url updates :
  extract_from_website env url = Ok updates → Forall short_title updates.
Proof.
  intros [->|(response & soup & cleaned & _ & _ & _ & ->)]%extract_from_website_ok;
    [constructor|].
  pose proof (_extract_structured_content_titles env cleaned url) as H1.
  pose proof (_aggressive_extraction_titles env cleaned url) as H2.
  by destruct (_extract_structured_content env cleaned url).
Qed.

(** ** Where an empty title can come from *)

#[local] Arguments append_unless_titled : simpl never.

(** The list tier gives an empty title only through an inner heading, link
    or bold element that has no text. *)
Lemma _extract_from_list_item_empty env li url u :
  _extract_from_list_item env li url = Some u →
  PyStr.len (title u) = 0%nat →
  ∃ heading,
    Soup.find ["strong"; "b"; "h1"; "h2"; "h3"; "h4"; "h5"; "h6"; "a"] li
    = Some heading
    ∧ Soup.get_text heading = "".
Proof.
  intros Hu Hlen.
  destruct (Soup.find ["strong"; "b"; "h1"; "h2"; "h3"; "h4"; "h5"; "h6"; "a"] li)
    as [heading|] eqn:Hfind.
  - exists heading. split; [done|].
    unfold _extract_from_list_item in Hu. rewrite Hfind in Hu.
    destruct (_ || _); [done|]. injection Hu as <-.
    rewrite new_update_title, slice_to_len in Hlen.
    destruct (Soup.get_text heading); [done|]. unfold PyStr.len in Hlen.
    simpl in Hlen. lia.
  - pose proof (_extract_from_list_item_plain env li url u Hfind Hu). lia.
Qed.

(** *** Words *)

Lemma of_list_to_list s : PyStr.of_list (PyStr.to_list s) = s.
Proof. apply String.string_of_list_ascii_of_string. Qed.

Lemma to_list_of_list l : PyStr.to_list (PyStr.of_list l) = l.
Proof. apply String.list_ascii_of_string_of_list_ascii. Qed.

Lemma of_list_nil l : PyStr.of_list l = "" → l = [].
Proof. by destruct l. Qed.

Lemma rev_nonempty {A} (l : list A) : l ≠ [] → rev l ≠ [].
Proof. destruct l as [|a l]; [done|]. intros _. simpl. by destruct (rev l). Qed.

(** a word in progress is never lost *)
Lemma split_ws_aux_word cur s :
  cur ≠ [] → ∃ w ws, PyStr.split_ws_aux cur s = w :: ws ∧ w ≠ "".
Proof.
  revert cur. induction s as [|c s IH]; intros cur Hcur; simpl.
  - destruct cur as [|c0 cur]; [done|]. eexists _, _. split; [done|].
    intros H%of_list_nil. by apply rev_nonempty in H.
  - destruct (PyStr.is_space c).
    + destruct cur as [|c0 cur]; [done|]. eexists _, _. split; [done|].
      intros H%of_list_nil. by apply rev_nonempty in H.
    + by apply IH.
Qed.

(** a text that starts with a visible character has a first word *)
Lemma split_ws_first c s :
  PyStr.is_space c = false →
  ∃ w ws, PyStr.split_ws (String c s) = w :: ws ∧ w ≠ "".
Proof.
  intros Hc. unfold PyStr.split_ws. simpl. rewrite Hc.
  by apply split_ws_aux_word.
Qed.

Lemma lstrip_head s c s' :
  PyStr.lstrip s = String c s' → PyStr.is_space c = false.
Proof.
  induction s as [|c0 s IH]; simpl; [done|].
  destruct (PyStr.is_space c0) eqn:Hc0; [done|]. by intros [= <- <-].
Qed.

Lemma lstrip_visible c s :
  PyStr.is_space c = false → PyStr.lstrip (String c s) = String c s.
Proof. intros Hc. simpl. by rewrite Hc. Qed.

(** stripping on the right keeps a visible first character *)
Lemma rstrip_head c s :
  PyStr.is_space c = false → ∃ s', PyStr.rstrip (String c s) = String c s'.
Proof.
  intros Hc. unfold PyStr.rstrip.
  change (PyStr.to_list (String c s)) with (c :: PyStr.to_list s).
  assert (∀ l : list ascii,
            ∃ l', PyStr.to_list (PyStr.lstrip (PyStr.of_list (l ++ [c]))) = l' ++ [c])
    as Hl.
  { induction l as [|a l IH]; simpl.
    - rewrite Hc. by exists [].
    - destruct (PyStr.is_space a); [done|].
      exists (a :: l). simpl. f_equal.
      change (PyStr.to_list (PyStr.of_list (l ++ [c])) = l ++ [c]).
      apply to_list_of_list. }
  simpl rev. destruct (Hl (rev (PyStr.to_list s))) as [l' ->].
  rewrite rev_app_distr. simpl. by eexists.
Qed.

Lemma strip_head s c s' :
  PyStr.strip s = String c s' → PyStr.is_space c = false.
Proof.
  unfold PyStr.strip.
  destruct (PyStr.lstrip s) as [|c0 t] eqn:Hl.
  - by vm_compute.
  - pose proof (lstrip_head _ _ _ Hl) as Hc0.
    destruct (rstrip_head c0 t Hc0) as [t' ->]. by intros [= <- <-].
Qed.

Lemma join_head sep p ps c s :
  p = String c s → ∃ s', PyStr.join sep (p :: ps) = String c s'.
Proof. intros ->. destruct ps; simpl; by eexists. Qed.

(** the text of a node, when not empty, starts with a visible character *)
Lemma get_text_sep_head sep n c s :
  Soup.get_text_sep sep n = String c s → PyStr.is_space c = false.
Proof.
  unfold Soup.get_text_sep.
  destruct (filter (λ t, t ≠ "") (PyStr.strip <$> Soup.strings n))
    as [|p ps] eqn:Hf; [done|].
  assert (p ∈ filter (λ t, t ≠ "") (PyStr.strip <$> Soup.strings n)) as Hin
    by (rewrite Hf; left).
  apply list_elem_of_filter in Hin as [Hne Hin].
  apply list_elem_of_fmap in Hin as (raw & -> & _).
  destruct (PyStr.strip raw) as [|c0 t] eqn:Hs; [done|].
  destruct (join_head sep (String c0 t) ps c0 t eq_refl) as [s' ->].
  intros [= <- <-]. by eapply strip_head.
Qed.

Lemma join_words_nonempty w ws : w ≠ "" → PyStr.join " " (w :: ws) ≠ "".
Proof. destruct w; [done|]. intros _. by destruct ws. Qed.

Lemma slice_to_nonempty n s : (0 < n)%nat → s ≠ "" → PyStr.slice_to n s ≠ "".
Proof. destruct n, s; simpl; try done. lia. Qed.

Lemma append_unless_titled_titled updates update :
  Forall titled updates →
  (∀ u, update = Some u → titled u) →
  Forall titled (append_unless_titled updates update).
Proof.
  intros Hall Hu. unfold append_unless_titled.
  destruct update as [u|]; [|done].
  case_match; [done|].
  apply Forall_app. split; [done|]. constructor; [by apply Hu | constructor].
Qed.

Lemma foldl_titled {A} (step : list Update → A → list Update) (l : list A) init :
  (∀ updates x, Forall titled updates → Forall titled (step updates x)) →
  Forall titled init →
  Forall titled (foldl step init l).
Proof.
  intros Hstep. revert init.
  induction l as [|x l IH]; intros init Hinit; simpl; [done|].
  by apply IH, Hstep.
Qed.

Lemma len_nonempty s : (1 ≤ PyStr.len s)%nat → s ≠ "".
Proof. by destruct s; [unfold PyStr.len; simpl; lia|]. Qed.

(** Every update of the aggressive fallback has a title. *)
Lemma _aggressive_extraction_titled env soup url :
  Forall titled (_aggressive_extraction env soup url).
Proof.
  unfold _aggressive_extraction.
  apply Forall_take.
  assert (Forall titled
    (foldl (λ updates heading,
       let text := Soup.get_text (here heading) in
       if bool_decide (10 ≤ PyStr.len text)%nat
          && bool_decide (PyStr.len text ≤ 300)%nat then
         let content_parts :=
           match parent heading with
           | Some _ =>
               filter (fun sib_text => (15 < PyStr.len sib_text)%nat)
                      (Soup.get_text <$>
                         Soup.find_next_siblings ["p"; "div"; "span"] 3 heading)
           | None => []
           end in
         let content :=
           match content_parts with
           | [] => text
           | _ => PyStr.slice_to 800 (PyStr.join " " content_parts)
           end in
         append_unless_titled updates
           (Some (new_update (now env) (PyStr.slice_to 250 text) content
                    WEBSITE url None))
       else updates)
     [] (Soup.find_all ["h1"; "h2"; "h3"; "h4"; "h5"] (Some 30%nat) soup))) as H1.
  { apply foldl_titled; [|done]. intros updates x Hall. cbv zeta.
    destruct (bool_decide (10 ≤ PyStr.len (Soup.get_text (here x)))%nat) eqn:Hlo;
      simpl; [|done].
    case_match; [|done].
    apply append_unless_titled_titled; [done|]. intros u [= <-].
    unfold titled. rewrite new_update_title.
    apply bool_decide_eq_true_1 in Hlo.
    apply slice_to_nonempty; [lia|]. apply len_nonempty. lia. }
  set (tier1 := foldl _ [] _) in *.
  set (tier2 := if bool_decide (length tier1 < 3)%nat then _ else tier1).
  assert (Forall titled tier2) as H2.
  { subst tier2. case_bool_decide; [|done].
    apply foldl_titled; [|done]. intros updates p Hall.
    destruct (Soup.find ["strong"; "b"; "em"] (here p)) as [strong|]; [|done].
    destruct (bool_decide (10 ≤ PyStr.len (Soup.get_text strong))%nat) eqn:Hlo;
      simpl; [|done].
    case_match; [|done].
    apply append_unless_titled_titled; [done|]. intros u [= <-].
    unfold titled. rewrite new_update_title.
    apply bool_decide_eq_true_1 in Hlo.
    apply slice_to_nonempty; [lia|]. apply len_nonempty. lia. }
  case_bool_decide; [|done].
  apply foldl_titled; [|done]. intros updates div Hall. cbv zeta.
  destruct (bool_decide (20 ≤ PyStr.len (Soup.get_text_sep " " (here div)))%nat)
    eqn:Hlo; simpl; [|done].
  case_match; [|done].
  apply append_unless_titled_titled; [done|]. intros u [= <-].
  unfold titled. rewrite new_update_title.
  apply bool_decide_eq_true_1 in Hlo.
  destruct (Soup.get_text_sep " " (here div)) as [|c s] eqn:Ht.
  { unfold PyStr.len in Hlo. simpl in Hlo. lia. }
  pose proof (get_text_sep_head _ _ _ _ Ht) as Hc.
  destruct (split_ws_first c s Hc) as (w & ws & -> & Hw).
  apply slice_to_nonempty; [lia|].
  change (take 15 (w :: ws)) with (w :: take 14 ws).
  by apply join_words_nonempty.
Qed.

(** ** How many candidates a check gathers *)

Lemma mapM_result_length {A B} (f : A → result B) (l : list A) (r : list B) :
  mapM f l = Ok r → length r = length l.
Proof.
  revert r. induction l as [|x l IH]; intros r; simpl; [by intros [= <-]|].
  destruct (f x) as [y|]; simpl; [|done].
  destruct (mapM f l) as [ys|]; simpl; [|done].
  intros [= <-]. simpl. f_equal. by apply IH.
Qed.

Lemma extract_from_rss_length env url updates :
  extract_from_rss env url = Ok updates → (length updates ≤ 10)%nat.
Proof.
  unfold extract_from_rss.
  destruct (feedparser_parse env url) as [entries|e];
    cbn [mbind result_bind try_except]; [|intros [= <-]; simpl; lia].
  destruct entries as [|e0 es]; [intros [= <-]; simpl; lia|].
  destruct (mapM (rss_entry env url) (take 10 (e0 :: es))) as [r|e] eqn:Hm;
    cbn [try_except]; [|intros [= <-]; simpl; lia].
  intros [= <-]. apply mapM_result_length in Hm. rewrite Hm, length_take. lia.
Qed.

Lemma extract_from_website_length env url updates :
  extract_from_website env url = Ok updates → (length updates ≤ 20)%nat.
Proof.
  intros [->|(response & soup & cleaned & _ & _ & _ & ->)]%extract_from_website_ok;
    [simpl; lia|].
  assert (length (_extract_structured_content env cleaned url) ≤ 20)%nat
    as H1 by (unfold _extract_structured_content; rewrite length_take; lia).
  assert (length (_aggressive_extraction env cleaned url) ≤ 20)%nat
    as H2 by (unfold _aggressive_extraction; rewrite length_take; lia).
  by destruct (_extract_structured_content env cleaned url).
Qed.

(** The feed gives at most 10 candidates; the page, asked only when the
    feed gave fewer than 3, at most 20 more; so a check gathers at most 22
    (when the search fallback returns at most 20, as its four-entry reply
    does). *)
Lemma gather_updates_length env competitor :
  (length (_search_for_updates env competitor) ≤ 20)%nat →
  (length (gather_updates env competitor) ≤ 22)%nat.
Proof.
  intros Hsearch. unfold gather_updates.
  set (feed := match truthy (rss_feed_url competitor) with
               | Some u => _ | None => _ end).
  assert (length feed ≤ 10)%nat as Hfeed.
  { subst feed. destruct (truthy (rss_feed_url competitor)) as [u|]; [|simpl; lia].
    destruct (extract_from_rss env u) as [l|] eqn:Hr; [|simpl; lia].
    apply extract_from_rss_length in Hr. by rewrite app_nil_l. }
  destruct (truthy (website_url competitor)) as [u|]; [|lia].
  case_bool_decide as Hfew; [|lia].
  destruct (extract_from_website env u) as [l|] eqn:Hw.
  - apply extract_from_website_length in Hw.
    destruct l as [|u0 l]; rewrite length_app; [lia|].
    pose proof (length_filter (λ v, title v ∉ (list_to_set (title <$> feed) : gset string))
                  (u0 :: l)) as Hf.
    lia.
  - rewrite length_app. lia.
Qed.

(* ===================================================================== *)
(** * The analyzer and the events of one check *)
(* ===================================================================== *)

Lemma analyze_updates_some env who category updates :
  ∃ analysis, analyze_updates env who category updates = Some analysis.
Proof. unfold analyze_updates. repeat case_match; eauto. Qed.

Lemma send_alert_trace w who level text :
  ∃ quiet, trace (send_alert w who level text) = trace w ++ quiet
           ∧ Forall (λ ev, is_alert ev = true) quiet.
Proof.
  unfold send_alert.
  repeat (case_match; simpl);
    try (exists []; by rewrite app_nil_r).
  eexists [_]. split; [reflexivity|]. by repeat constructor.
Qed.

(** What one check adds to the trace: alerts only, and nothing when it
    raises; the configuration is left alone. *)
Lemma monitor_competitor_events env w competitor :
  ∃ quiet,
    trace (snd (monitor_competitor env w competitor)) = trace w ++ quiet
    ∧ Forall (λ ev, is_alert ev = true) quiet
    ∧ config (snd (monitor_competitor env w competitor)) = config w.
Proof.
  unfold monitor_competitor.
  destruct (enabled competitor); simpl;
    [|exists []; by rewrite app_nil_r].
  destruct (gather_updates env competitor) as [|u0 us];
    [exists []; by rewrite app_nil_r|].
  destruct (_filter_new_updates (cache w) (name competitor) (u0 :: us))
    as [|n0 ns]; simpl; [exists []; by rewrite app_nil_r|].
  destruct (analyze_updates_some env (name competitor) (category competitor)
              (n0 :: ns)) as [a ->].
  destruct (record_finding (now env) (trends w) (name competitor) a) as [t|e];
    simpl; [|exists []; by rewrite app_nil_r].
  case_bool_decide; simpl; [|exists []; by rewrite app_nil_r].
  destruct (send_alert_trace (set_trends w t) (name competitor) (impact a) (summary a))
    as (quiet & Htr & Hq).
  exists quiet. split; [exact Htr|]. split; [exact Hq|].
  by rewrite (proj2 (proj2 (send_alert_cache _ _ _ _))).
Qed.

(** C9: when Gemini is unavailable, or returns no result, [analyze_updates]
    returns the rule-based analysis for every input; for the empty list that
    is the Low-impact "no recent updates" analysis; and no call of
    [monitor_competitor] reports a failed analysis. *)
Theorem analysis_total (env : Env) :
  (GEMINI_AVAILABLE env = false
   ∨ ∀ who category updates, _analyze_with_gemini env who category updates = None) →
  (∀ who category updates,
     analyze_updates env who category updates
     = Some (_basic_analysis who category updates))
  ∧ (∀ who category,
       impact (_basic_analysis who category []) = "Low"
       ∧ threat_level (_basic_analysis who category []) = "Low"
       ∧ summary (_basic_analysis who category []) = who +:+ " has no recent updates")
  ∧ (∀ w competitor who,
       AnalysisFailed who
       ∉ new_events w (snd (monitor_competitor env w competitor))).
Proof.
  intros Hcfg. split; [|split].
  - intros who category updates. unfold analyze_updates.
    destruct Hcfg as [-> | Hnone]; [done|].
    rewrite Hnone. by case_match.
  - done.
  - intros w competitor who Hin.
    destruct (monitor_competitor_events env w competitor) as (quiet & Htr & Hq & _).
    unfold new_events in Hin. rewrite Htr, drop_app_length in Hin.
    rewrite Forall_forall in Hq. by apply Hq in Hin.
Qed.

(** [analysis_total] where Gemini is unavailable *)
Lemma analysis_total_witness :
  analyze_updates demo_env "Acme" "Productivity" []
  = Some (_basic_analysis "Acme" "Productivity" [])
  ∧ impact (_basic_analysis "Acme" "Productivity" []) = "Low"
  ∧ summary (_basic_analysis "Acme" "Productivity" []) = "Acme has no recent updates"
  ∧ (AnalysisFailed "Acme"
     ∉ new_events demo_world (snd (monitor_competitor demo_env demo_world acme))).
Proof.
  destruct (analysis_total demo_env) as (Ha & Hb & Hc); [by left|].
  split; [apply Ha|]. split; [apply Hb|]. split; [apply Hb|]. apply Hc.
Defined.

(* ===================================================================== *)
(** * The batch *)
(* ===================================================================== *)

Lemma checks_quiet quiet :
  Forall (λ ev, is_alert ev = true) quiet → checks quiet = [].
Proof.
  induction 1 as [|ev quiet Hev _ IH]; [done|].
  by destruct ev.
Qed.

Lemma schedule_quiet quiet :
  Forall (λ ev, is_alert ev = true) quiet → schedule quiet = [].
Proof.
  induction 1 as [|ev quiet Hev _ IH]; [done|].
  by destruct ev.
Qed.

Lemma checks_app tr1 tr2 : checks (tr1 ++ tr2) = checks tr1 ++ checks tr2.
Proof. apply omap_app. Qed.

Lemma schedule_app tr1 tr2 : schedule (tr1 ++ tr2) = schedule tr1 ++ schedule tr2.
Proof. apply List.filter_app. Qed.

Lemma quiet_no_error quiet who e :
  Forall (λ ev, is_alert ev = true) quiet → ErrorMonitoring who e ∉ quiet.
Proof. rewrite Forall_forall. intros Hq Hin. by apply Hq in Hin. Qed.

(** a batch over at least one competitor starts with its check *)
Lemma batch_trace_head rate who names tr :
  batch_trace rate (who :: names) tr → ∃ tr', tr = Checking who :: tr'.
Proof. inversion 1; by eexists. Qed.

Lemma spaced_after_check sched :
  spaced false sched = true → spaced true sched = true.
Proof. induction sched as [|[] sched IH]; simpl; try done. Qed.

Lemma batch_trace_checks rate names tr :
  batch_trace rate names tr → checks tr = names.
Proof.
  induction 1 as [|who quiet Hq|who who' names quiet tr Hq Hfit Hr _ IH
                  |who names quiet e tr Hq _ IH]; [done|..].
  - simpl. by rewrite (checks_quiet quiet).
  - change (Checking who :: quiet ++ Sleep rate :: tr)
      with ([Checking who] ++ quiet ++ [Sleep rate] ++ tr).
    rewrite !checks_app, (checks_quiet quiet), IH by done. done.
  - change (Checking who :: quiet ++ ErrorMonitoring who e :: tr)
      with ([Checking who] ++ quiet ++ [ErrorMonitoring who e] ++ tr).
    rewrite !checks_app, (checks_quiet quiet), IH by done. done.
Qed.

Lemma batch_trace_schedule rate names tr :
  batch_trace rate names tr → spaced false (schedule tr) = true.
Proof.
  induction 1 as [|who quiet Hq|who who' names quiet tr Hq Hfit Hr Hb IH
                  |who names quiet e tr Hq _ IH]; [done|..].
  - change (Checking who :: quiet) with ([Checking who] ++ quiet).
    by rewrite schedule_app, (schedule_quiet quiet).
  - change (Checking who :: quiet ++ Sleep rate :: tr)
      with ([Checking who] ++ quiet ++ [Sleep rate] ++ tr).
    rewrite !schedule_app, (schedule_quiet quiet) by done.
    destruct (batch_trace_head _ _ _ _ Hb) as [tr' ->].
    simpl in *. exact IH.
  - change (Checking who :: quiet ++ ErrorMonitoring who e :: tr)
      with ([Checking who] ++ quiet ++ [ErrorMonitoring who e] ++ tr).
    rewrite !schedule_app, (schedule_quiet quiet) by done.
    simpl. by apply spaced_after_check.
Qed.

Lemma batch_trace_no_error rate names tr :
  batch_trace rate names tr →
  (∀ who e, ErrorMonitoring who e ∉ tr) →
  schedule tr = interleave (Sleep rate) (Checking <$> names).
Proof.
  induction 1 as [|who quiet Hq|who who' names quiet tr Hq Hfit Hr Hb IH
                  |who names quiet e tr Hq _ IH]; intros Hno; [done|..].
  - change (Checking who :: quiet) with ([Checking who] ++ quiet).
    by rewrite schedule_app, (schedule_quiet quiet).
  - change (Checking who :: quiet ++ Sleep rate :: tr)
      with ([Checking who] ++ quiet ++ [Sleep rate] ++ tr).
    rewrite !schedule_app, (schedule_quiet quiet) by done.
    simpl. rewrite IH; [done|].
    intros w e Hin. apply (Hno w e). set_solver.
  - destruct (Hno who e). set_solver.
Qed.

(** [time.sleep] applies the delay, or raises and leaves the trace alone *)
Lemma sleep_cases rate w :
  (fits_time rate = true ∧ (0 ≤ rate)%Z
   ∧ sleep rate w = (Ok tt, log w (Sleep rate)))
  ∨ (fits_time rate = true ∧ (rate < 0)%Z ∧ sleep rate w = (Raise ValueError, w))
  ∨ (fits_time rate = false ∧ sleep rate w = (Raise OverflowError, w)).
Proof.
  unfold sleep. destruct (fits_time rate); [|by right; right].
  case_bool_decide; [right; left|left]; repeat split; try done. lia.
Qed.

(** The loop, from its [i]-th turn on. *)
Lemma monitor_loop_trace env n i cs findings w :
  (i + length cs = S n)%nat →
  ∃ evs,
    trace (snd (monitor_loop env n i cs findings w)) = trace w ++ evs
    ∧ batch_trace (rate_limit_seconds (config w)) (name <$> cs) evs.
Proof.
  revert i findings w.
  induction cs as [|competitor cs IH]; intros i findings w Hi.
  { exists []. split; [by rewrite app_nil_r | constructor]. }
  simpl.
  destruct (monitor_competitor_events env (log w (Checking (name competitor)))
              competitor) as (quiet & Htr & Hq & Hcfg).
  destruct (monitor_competitor env (log w (Checking (name competitor))) competitor)
    as [outcome w1].
  simpl in Htr, Hcfg.
  assert (trace w1 = trace w ++ Checking (name competitor) :: quiet) as Htr1.
  { rewrite Htr. simpl. by rewrite <-app_assoc. }
  assert (config w1 = config w) as Hcfg1 by done.
  simpl in Hi.
  destruct outcome as [result|e].
  - case_bool_decide as Hin.
    + (* another competitor follows *)
      destruct cs as [|next cs]; [simpl in Hi; lia|].
      destruct (sleep_cases (rate_limit_seconds (config w1)) w1)
        as [(Hfit & Hpos & ->)|[(_ & _ & ->)|(_ & ->)]].
      * edestruct (IH (S i)) as (evs & Hevs & Hb); [simpl in *; lia|].
        rewrite Hevs. simpl trace. rewrite Htr1.
        eexists. rewrite <-!app_assoc. split; [reflexivity|].
        simpl. simpl in Hb. rewrite Hcfg1 in *.
        by apply batch_sleep.
      * (* [time.sleep] refuses a negative delay *)
        edestruct (IH (S i)) as (evs & Hevs & Hb); [simpl in *; lia|].
        rewrite Hevs. simpl trace. rewrite Htr1.
        eexists. rewrite <-!app_assoc. split; [reflexivity|].
        simpl. simpl in Hb. rewrite Hcfg1 in Hb.
        by apply batch_error.
      * (* and a delay beyond its range *)
        edestruct (IH (S i)) as (evs & Hevs & Hb); [simpl in *; lia|].
        rewrite Hevs. simpl trace. rewrite Htr1.
        eexists. rewrite <-!app_assoc. split; [reflexivity|].
        simpl. simpl in Hb. rewrite Hcfg1 in Hb.
        by apply batch_error.
    + (* the last competitor *)
      destruct cs as [|next cs]; [|simpl in Hi; lia].
      simpl. rewrite Htr1. eexists. split; [reflexivity|].
      by apply batch_last.
  - edestruct (IH (S i)) as (evs & Hevs & Hb); [simpl in *; lia|].
    rewrite Hevs. simpl trace. rewrite Htr1.
    eexists. rewrite <-!app_assoc. split; [reflexivity|].
    simpl. simpl in Hb. rewrite Hcfg1 in Hb.
    by apply batch_error.
Qed.

(** the findings gathered so far do not steer the loop *)
Lemma monitor_loop_world env n i cs findings findings' w :
  snd (monitor_loop env n i cs findings w)
  = snd (monitor_loop env n i cs findings' w).
Proof.
  revert i findings findings' w.
  induction cs as [|competitor cs IH]; intros i findings findings' w; [done|].
  simpl.
  destruct (monitor_competitor env (log w (Checking (name competitor))) competitor)
    as [[result|e] w1]; [|apply IH].
  case_bool_decide; [|apply IH].
  destruct (sleep (rate_limit_seconds (config w1)) w1) as [[[]|e] w2]; apply IH.
Qed.

(** the loop over a list and one more competitor *)
Lemma monitor_loop_snoc env n i cs competitor findings w :
  snd (monitor_loop env n i (cs ++ [competitor]) findings w)
  = snd (monitor_loop env n (i + length cs) [competitor] []
           (snd (monitor_loop env n i cs findings w))).
Proof.
  revert i findings w.
  induction cs as [|c cs IH]; intros i findings w.
  { simpl length. rewrite Nat.add_0_r. apply monitor_loop_world. }
  cbn [app length]. rewrite <- Nat.add_succ_comm.
  cbn [monitor_loop].
  destruct (monitor_competitor env (log w (Checking (name c))) c)
    as [[result|e] w1]; [|apply IH].
  case_bool_decide; [|apply IH].
  destruct (sleep (rate_limit_seconds (config w1)) w1) as [[[]|e] w2]; apply IH.
Qed.

(** One turn of the loop, on its own: the line of the check, the alerts of
    the check, and then the error line of a check that raised, or, after a
    check that returned, the delay when another competitor is left (the
    error line of [time.sleep] when it refuses the delay). *)
Lemma monitor_loop_turn env n i competitor w :
  ∃ quiet,
    Forall (λ ev, is_alert ev = true) quiet
    ∧ config (snd (monitor_loop env n i [competitor] [] w)) = config w
    ∧ trace (snd (monitor_loop env n i [competitor] [] w))
      = trace w ++ Checking (name competitor) :: quiet ++
        match fst (monitor_competitor env (log w (Checking (name competitor)))
                     competitor) with
        | Raise e => [ErrorMonitoring (name competitor) e]
        | Ok _ =>
            if bool_decide (i < n)%nat then
              if fits_time (rate_limit_seconds (config w)) then
                if bool_decide (rate_limit_seconds (config w) < 0)%Z
                then [ErrorMonitoring (name competitor) ValueError]
                else [Sleep (rate_limit_seconds (config w))]
              else [ErrorMonitoring (name competitor) OverflowError]
            else []
        end.
Proof.
  cbn [monitor_loop].
  destruct (monitor_competitor_events env (log w (Checking (name competitor)))
              competitor) as (quiet & Htr & Hq & Hcfg).
  destruct (monitor_competitor env (log w (Checking (name competitor))) competitor)
    as [outcome w1].
  cbn [fst snd] in *.
  assert (trace w1 = trace w ++ Checking (name competitor) :: quiet) as Htr1.
  { rewrite Htr. simpl. by rewrite <-app_assoc. }
  assert (config w1 = config w) as Hcfg1 by done.
  exists quiet. split; [done|].
  destruct outcome as [result|e].
  - case_bool_decide.
    + rewrite <- Hcfg1.
      destruct (sleep_cases (rate_limit_seconds (config w1)) w1)
        as [(Hfit & Hpos & ->)|[(Hfit & Hneg & ->)|(Hfit & ->)]];
        rewrite Hfit; cbn [fst snd log config trace].
      * rewrite bool_decide_eq_false_2 by lia.
        split; [done|]. by rewrite Htr1, <- app_assoc.
      * rewrite bool_decide_eq_true_2 by lia.
        split; [done|]. by rewrite Htr1, <- app_assoc.
      * split; [done|]. by rewrite Htr1, <- app_assoc.
    + cbn [fst snd]. split; [done|]. by rewrite Htr1, app_nil_r.
  - cbn [fst snd log config trace]. split; [done|].
    by rewrite Htr1, <- app_assoc.
Qed.

Lemma before_check_0 env w : before_check env w 0 = w.
Proof. done. Qed.

Lemma before_check_all env w :
  before_check env w (length (filter (λ c, enabled c = true) (competitors w)))
  = snd (monitor_all env w).
Proof. unfold before_check, monitor_all. by rewrite firstn_all. Qed.

Lemma before_check_S env w i c :
  filter (λ c, enabled c = true) (competitors w) !! i = Some c →
  before_check env w (S i)
  = snd (monitor_loop env
           (length (filter (λ c, enabled c = true) (competitors w))) (S i)
           [c] [] (before_check env w i)).
Proof.
  intros Hi. unfold before_check. cbv zeta.
  rewrite (take_S_r _ _ _ Hi), monitor_loop_snoc.
  rewrite length_take_le; [done|].
  apply lookup_lt_Some in Hi. lia.
Qed.

Lemma before_check_config env w i :
  config (before_check env w i) = config w.
Proof.
  induction i as [|i IH]; [done|].
  destruct (filter (λ c, enabled c = true) (competitors w) !! i) as [c|] eqn:Hi.
  - rewrite (before_check_S _ _ _ _ Hi).
    destruct (monitor_loop_turn env
                (length (filter (λ c, enabled c = true) (competitors w))) (S i) c
                (before_check env w i)) as (_ & _ & -> & _).
    exact IH.
  - rewrite <- IH. unfold before_check. cbv zeta.
    apply lookup_ge_None in Hi.
    by rewrite !take_ge by lia.
Qed.

(** the turns of a batch, one by one *)
Lemma turn_events env w i c :
  filter (λ c, enabled c = true) (competitors w) !! i = Some c →
  ∃ quiet,
    Forall (λ ev, is_alert ev = true) quiet
    ∧ trace (before_check env w (S i)) = trace (before_check env w i) ++ turn env w i
    ∧ turn env w i
      = Checking (name c) :: quiet ++
        match fst (monitor_competitor env
                     (log (before_check env w i) (Checking (name c))) c) with
        | Raise e => [ErrorMonitoring (name c) e]
        | Ok _ =>
            if bool_decide
                 (S i < length (filter (λ c, enabled c = true) (competitors w)))%nat
            then
              if fits_time (rate_limit_seconds (config w)) then
                if bool_decide (rate_limit_seconds (config w) < 0)%Z
                then [ErrorMonitoring (name c) ValueError]
                else [Sleep (rate_limit_seconds (config w))]
              else [ErrorMonitoring (name c) OverflowError]
            else []
        end.
Proof.
  intros Hi.
  destruct (monitor_loop_turn env
              (length (filter (λ c, enabled c = true) (competitors w))) (S i) c
              (before_check env w i)) as (quiet & Hq & _ & Htr).
  rewrite before_check_config in Htr.
  exists quiet. split; [done|].
  unfold turn, new_events.
  rewrite (before_check_S _ _ _ _ Hi), Htr, drop_app_length. done.
Qed.

(** a batch is its turns *)
Lemma batch_is_turns env w :
  new_events w (snd (monitor_all env w))
  = mjoin (turn env w
             <$> seq 0 (length (filter (λ c, enabled c = true) (competitors w)))).
Proof.
  rewrite <- before_check_all.
  assert (∀ k, (k ≤ length (filter (λ c, enabled c = true) (competitors w)))%nat →
               trace (before_check env w k)
               = trace w ++ mjoin (turn env w <$> seq 0 k)) as Hk.
  { induction k as [|k IH]; intros Hle.
    - simpl. by rewrite app_nil_r.
    - destruct (lookup_lt_is_Some_2
                  (filter (λ c, enabled c = true) (competitors w)) k) as [c Hc]; [lia|].
      destruct (turn_events env w k c Hc) as (_ & _ & -> & _).
      rewrite IH by lia.
      rewrite seq_S, fmap_app, join_app. simpl. by rewrite app_nil_r, app_assoc. }
  unfold new_events. by rewrite Hk, drop_app_length.
Qed.

(** C8, the batch turn by turn.  A batch checks the enabled competitors,
    all of them and in order, whatever each check does, and its trace is
    the trace of its turns.  The turn of a check that raised is the line of
    the check and the error line: no delay follows, whatever delay is
    configured, and the next check starts at once.  The turn of a check
    that returned ends with the delay when another competitor is left
    (with the error line of [time.sleep] when it refuses the delay), and
    with nothing when it was the last.  So every delay stands between two
    checks, and stands between every two when no error is logged.  On the
    batch over Acme and Linear with a delay of 2 seconds in which the check
    of Acme raises [KeyError], the check of Linear follows the error line
    with no delay. *)
Theorem batch_turns :
  (∀ (env : Env) (w : World),
     let enabled_competitors := filter (λ c, enabled c = true) (competitors w) in
     let new := new_events w (snd (monitor_all env w)) in
     let rate := rate_limit_seconds (config w) in
     checks new = name <$> enabled_competitors
     ∧ new = mjoin (turn env w <$> seq 0 (length enabled_competitors))
     ∧ (∀ i competitor,
          enabled_competitors !! i = Some competitor →
          ∃ quiet,
            Forall (λ ev, is_alert ev = true) quiet
            ∧ turn env w i
              = Checking (name competitor) :: quiet ++
                match fst (monitor_competitor env
                             (log (before_check env w i)
                                (Checking (name competitor))) competitor) with
                | Raise e => [ErrorMonitoring (name competitor) e]
                | Ok _ =>
                    if bool_decide (S i < length enabled_competitors)%nat then
                      if fits_time rate then
                        if bool_decide (rate < 0)%Z
                        then [ErrorMonitoring (name competitor) ValueError]
                        else [Sleep rate]
                      else [ErrorMonitoring (name competitor) OverflowError]
                    else []
                end)
     ∧ spaced false (schedule new) = true
     ∧ ((∀ who e, ErrorMonitoring who e ∉ new) →
        schedule new = interleave (Sleep rate) (Checking <$> (name <$> enabled_competitors))))
  ∧ rate_limit_seconds (config after_short_feed) = 2%Z
  ∧ filter (λ c, enabled c = true) (competitors after_short_feed)
    = [set_last_checked acme "2024-04-30T09:00:00"; linear]
  ∧ fst (monitor_competitor demo_env
           (log after_short_feed (Checking "Acme"))
           (set_last_checked acme "2024-04-30T09:00:00"))
    = Raise KeyError
  ∧ new_events after_short_feed (snd (monitor_all demo_env after_short_feed))
    = [Checking "Acme"; ErrorMonitoring "Acme" KeyError; Checking "Linear"].
Proof.
  split.
  - intros env w enabled_competitors new rate.
    assert (batch_trace rate (name <$> enabled_competitors) new) as Hb.
    { subst new rate enabled_competitors. unfold monitor_all, new_events.
      destruct (monitor_loop_trace env
                  (length (filter (λ c, enabled c = true) (competitors w))) 1
                  (filter (λ c, enabled c = true) (competitors w)) [] w)
        as (evs & -> & Hb); [lia|].
      by rewrite drop_app_length. }
    split; [by eapply batch_trace_checks|].
    split; [apply batch_is_turns|].
    split.
    { intros i competitor Hi.
      destruct (turn_events env w i competitor Hi) as (quiet & Hq & _ & Hturn).
      by exists quiet. }
    split; [by eapply batch_trace_schedule|].
    by apply batch_trace_no_error.
  - repeat split; vm_compute; reflexivity.
Qed.

(** the same two competitors in the earlier batch: both checks return, and
    the delay stands between them *)
Example delay_between_checks :
  new_events two_competitors after_short_feed
  = [Checking "Acme"; Sleep 2; Checking "Linear"].
Proof. vm_compute. reflexivity. Qed.

(** a delay that [time.sleep] refuses is logged as an error of the check
    before it, which had returned *)
Example delay_refused :
  new_events
    (mkWorld (mkConfig None 5 true true (-1)) ∅ ∅ [acme; linear] [])
    (snd (monitor_all short_feed_env
            (mkWorld (mkConfig None 5 true true (-1)) ∅ ∅ [acme; linear] [])))
  = [Checking "Acme"; ErrorMonitoring "Acme" ValueError; Checking "Linear"]
  ∧ new_events
      (mkWorld (mkConfig None 5 true true (10 ^ 10)) ∅ ∅ [acme; linear] [])
      (snd (monitor_all short_feed_env
              (mkWorld (mkConfig None 5 true true (10 ^ 10)) ∅ ∅ [acme; linear] [])))
    = [Checking "Acme"; ErrorMonitoring "Acme" OverflowError; Checking "Linear"].
Proof. split; vm_compute; reflexivity. Qed.

(* ===================================================================== *)
(** * The list of competitors *)
(* ===================================================================== *)

Lemma same_name_true who c :
  same_name who c = true ↔ PyStr.lower (name c) = PyStr.lower who.
Proof. unfold same_name. by rewrite bool_decide_eq_true. Qed.

Lemma same_name_false who c :
  same_name who c = false ↔ PyStr.lower (name c) ≠ PyStr.lower who.
Proof. unfold same_name. by rewrite bool_decide_eq_false. Qed.

Lemma existsb_same_name who cs :
  existsb (same_name who) cs = false
  ↔ ∀ c, c ∈ cs → PyStr.lower (name c) ≠ PyStr.lower who.
Proof.
  induction cs as [|c cs IH]; simpl.
  - split; [|done]. intros _ c Hc. by apply elem_of_nil in Hc.
  - rewrite orb_false_iff, IH, same_name_false. split.
    + intros [Hc Hcs] c' [->|Hin]%elem_of_cons; [done|by apply Hcs].
    + intros H. split; [apply H; left|intros c' Hc'; apply H; by right].
Qed.

Lemma or_else_nonempty x y : y ≠ "" → or_else x y ≠ "".
Proof.
  intros Hy. unfold or_else. destruct x as [v|]; [|done].
  destruct v; simpl; [done|]. discriminate.
Qed.

Lemma distinct_names_snoc cs c :
  distinct_names cs →
  (∀ c', c' ∈ cs → PyStr.lower (name c') ≠ PyStr.lower (name c)) →
  distinct_names (cs ++ [c]).
Proof.
  unfold distinct_names. intros Hcs Hc.
  rewrite fmap_app. apply NoDup_app. split; [done|]. split.
  - intros x (c' & -> & Hin)%list_elem_of_fmap [Heq|[]%elem_of_nil]%elem_of_cons.
    by eapply Hc.
  - simpl. apply NoDup_singleton.
Qed.

(** X1. [add_competitor] accepts a competitor exactly when a website or a
    feed is given (a non-empty string) and no tracked competitor has that
    name, letter case apart; it then appends one enabled, never checked
    entry of that name, with the priority as given and a category that is
    not empty; otherwise it leaves the list as it was.  Names that were
    distinct, letter case apart, stay so. *)
Theorem add_competitor_effect (now who : string)
    (web rss twitter linkedin press cat : option string) (prio : string)
    (tgs : option string) (cs : list CompetitorConfig) :
  let out := add_competitor now who web rss twitter linkedin press cat prio tgs cs in
  ((∃ c, fst out = Added c)
   ↔ (truthy web ≠ None ∨ truthy rss ≠ None)
     ∧ ∀ c, c ∈ cs → PyStr.lower (name c) ≠ PyStr.lower who)
  ∧ (∀ c, fst out = Added c →
       snd out = cs ++ [c]
       ∧ name c = who ∧ enabled c = true ∧ last_checked c = None
       ∧ added_at c = now ∧ priority c = prio ∧ category c ≠ ""
       ∧ website_url c = web ∧ rss_feed_url c = rss)
  ∧ ((∀ c, fst out ≠ Added c) → snd out = cs)
  ∧ (distinct_names cs → distinct_names (snd out)).
Proof.
  cbv zeta. unfold add_competitor.
  destruct (existsb (same_name who) cs) eqn:Hex.
  - assert (¬ ∀ c, c ∈ cs → PyStr.lower (name c) ≠ PyStr.lower who) as Hno.
    { intros H. apply existsb_same_name in H. congruence. }
    destruct (truthy web), (truthy rss); simpl;
      (split; [split; [by intros [c [=]]|by intros [_ ?]]|]);
      (split; [by intros c [=]|done]).
  - pose proof (proj1 (existsb_same_name who cs) Hex) as Hfree.
    destruct (truthy web) eqn:Hw, (truthy rss) eqn:Hr; simpl.
    4: { split; [split; [by intros [c [=]]|by intros [[?|?] _]]|].
         split; [by intros c [=]|done]. }
    all: split; [split; [intros _; split; [by (left + right)|done]|by eexists]|].
    all: split; [intros c [= <-]; simpl;
                 repeat split; by apply or_else_nonempty|].
    all: split; [intros H; by edestruct H|].
    all: intros Hd; by apply distinct_names_snoc.
Qed.

Lemma filter_length_eq {A} (P : A → Prop) `{∀ x, Decision (P x)} (l : list A) :
  length (filter P l) = length l → filter P l = l.
Proof.
  induction l as [|x l IH]; [done|].
  rewrite filter_cons. case_decide; simpl.
  - intros [= Hlen]. by rewrite IH.
  - intros Hlen. pose proof (length_filter P l). lia.
Qed.

Lemma filter_all {A} (P : A → Prop) `{∀ x, Decision (P x)} (l : list A) :
  filter P l = l ↔ ∀ x, x ∈ l → P x.
Proof.
  split.
  - intros Heq x Hx. rewrite <- Heq in Hx. by apply list_elem_of_filter in Hx as [? _].
  - intros Hall. induction l as [|x l IH]; [done|].
    rewrite filter_cons, decide_True by (apply Hall; left).
    f_equal. apply IH. intros y Hy. apply Hall. by right.
Qed.

Lemma remove_competitor_confirmed who cs :
  remove_competitor who true cs
  = if bool_decide (length (filter (λ c, same_name who c = false) cs) = length cs)
    then (NotTracked, cs)
    else (Removed (last (filter (λ c, same_name who c = true) cs)),
          filter (λ c, same_name who c = false) cs).
Proof.
  unfold remove_competitor. cbn [negb].
  match goal with |- context [foldl ?f _ cs] => set (step := f) end.
  assert (∀ l r kept,
            foldl step (r, kept) l
            = (from_option Some r (last (filter (λ c, same_name who c = true) l)),
               kept ++ filter (λ c, same_name who c = false) l)) as Hloop.
  { induction l as [|c l IH]; intros r kept; simpl.
    - by rewrite app_nil_r.
    - rewrite !filter_cons. destruct (same_name who c) eqn:Hc; simpl.
      + rewrite IH. f_equal. rewrite last_cons. by destruct (last _).
      + rewrite IH. by rewrite <- app_assoc. }
  rewrite Hloop. simpl.
  by destruct (last (filter _ cs)).
Qed.

Lemma distinct_names_filter (P : CompetitorConfig → Prop)
    `{∀ x, Decision (P x)} cs :
  distinct_names cs → distinct_names (filter P cs).
Proof.
  unfold distinct_names. intros Hd.
  eapply sublist_NoDup; [done|]. apply fmap_sublist, sublist_filter.
Qed.

(** the last element a filter keeps, in the list that was filtered *)
Lemma last_filter_split {A} (P : A → Prop) `{∀ x, Decision (P x)} (l : list A) x :
  last (filter P l) = Some x →
  ∃ before after, l = before ++ x :: after ∧ P x ∧ Forall (λ y, ¬ P y) after.
Proof.
  induction l as [|y l IH]; [done|].
  rewrite filter_cons.
  destruct (last (filter P l)) as [z|] eqn:Hlast.
  - intros Hx.
    assert (z = x) as ->.
    { destruct (decide (P y)); [|congruence].
      rewrite last_cons, Hlast in Hx. congruence. }
    destruct (IH eq_refl) as (before & after & -> & Hx' & Hafter).
    by exists (y :: before), after.
  - assert (Forall (λ y, ¬ P y) l) as Hnone.
    { apply Forall_forall. intros z Hz HP.
      assert (z ∈ filter P l) as Hin by by apply list_elem_of_filter.
      apply last_None in Hlast. rewrite Hlast in Hin. by apply elem_of_nil in Hin. }
    destruct (decide (P y)) as [Hy|Hy].
    + rewrite last_cons, Hlast. intros [= ->]. by exists [], l.
    + by rewrite Hlast.
Qed.

(** X2. [remove_competitor] without confirmation changes nothing.  With
    it, the list it saves is the old one without the entries of that name,
    letter case apart, the others in their order; it answers "not found"
    exactly when no entry has that name, and then the list is as before;
    otherwise the list is shorter and the answer names the last entry of
    that name in the old list: an entry of that name after which no entry
    has it. *)
Theorem remove_competitor_effect (who : string) (confirm : bool)
    (cs : list CompetitorConfig) :
  let out := remove_competitor who confirm cs in
  (confirm = false → out = (Unconfirmed, cs))
  ∧ (confirm = true →
     snd out = filter (λ c, same_name who c = false) cs
     ∧ (∀ c, c ∈ snd out → PyStr.lower (name c) ≠ PyStr.lower who)
     ∧ (fst out = NotTracked
        ↔ ∀ c, c ∈ cs → PyStr.lower (name c) ≠ PyStr.lower who)
     ∧ (∀ r, fst out = Removed r →
          (length (snd out) < length cs)%nat
          ∧ ∃ before c after,
              r = Some c
              ∧ cs = before ++ c :: after
              ∧ PyStr.lower (name c) = PyStr.lower who
              ∧ ∀ c', c' ∈ after → PyStr.lower (name c') ≠ PyStr.lower who))
  ∧ (distinct_names cs → distinct_names (snd out)).
Proof.
  cbv zeta. destruct confirm.
  2: { split; [done|]. split; [done|]. done. }
  rewrite remove_competitor_confirmed.
  split; [done|].
  case_bool_decide as Hlen.
  - apply filter_length_eq in Hlen. simpl. split; [|done]. intros _.
    split; [done|]. split.
    { intros c Hc. rewrite <- Hlen in Hc.
      apply list_elem_of_filter in Hc as [Hc _]. by apply same_name_false. }
    split; [|by intros r [=]].
    split; [|done]. intros _ c Hc. apply same_name_false.
    by apply (proj1 (filter_all _ cs) Hlen).
  - simpl. split; [|intros Hd; by apply distinct_names_filter]. intros _.
    split; [done|]. split.
    { intros c [Hc _]%list_elem_of_filter. by apply same_name_false. }
    split.
    { split; [by intros [=]|]. intros Hall. destruct Hlen. f_equal.
      apply filter_all. intros c Hc. by apply same_name_false, Hall. }
    intros r [= <-]. split.
    { pose proof (length_filter (λ c, same_name who c = false) cs). lia. }
    destruct (last (filter (λ c, same_name who c = true) cs)) as [c|] eqn:Hlast.
    + apply last_filter_split in Hlast as (before & after & Hcs & Hc & Hafter).
      exists before, c, after. split; [done|]. split; [done|].
      split; [by apply same_name_true|].
      intros c' Hc'. apply same_name_false.
      rewrite Forall_forall in Hafter. specialize (Hafter c' Hc').
      by destruct (same_name who c').
    + apply last_None in Hlast. destruct Hlen. f_equal. apply filter_all.
      intros c Hc. destruct (same_name who c) eqn:Hsame; [|done].
      assert (c ∈ filter (λ c, same_name who c = true) cs) as Hin
        by by apply list_elem_of_filter.
      rewrite Hlast in Hin. by apply elem_of_nil in Hin.
Qed.

(** of two entries of one name, the second is the one the answer names *)
Example remove_competitor_names_last :
  remove_competitor "acme" true [acme; linear; set_enabled acme false]
  = (Removed (Some (set_enabled acme false)), [linear]).
Proof. by vm_compute. Qed.

Lemma set_enabled_name c b : name (set_enabled c b) = name c.
Proof. done. Qed.

Lemma set_enabled_twice c :
  set_enabled (set_enabled c (negb (enabled c))) (enabled c) = c.
Proof. by destruct c. Qed.

Lemma toggle_first_none who cs :
  toggle_first who cs = None ↔ ∀ c, c ∈ cs → same_name who c = false.
Proof.
  induction cs as [|c cs IH]; simpl.
  - split; [|done]. intros _ c Hc. by apply elem_of_nil in Hc.
  - destruct (same_name who c) eqn:Hc.
    + split; [done|]. intros H. specialize (H c (list_elem_of_here _ _)). congruence.
    + destruct (toggle_first who cs) as [[b rest]|].
      * split; [done|]. intros H.
        assert (Some (b, rest) = None) as Hn; [|done].
        apply IH. intros c' Hc'. apply H. by right.
      * split; [|done]. intros _ c' [->|Hin]%elem_of_cons; [done|].
        by apply (proj1 IH).
Qed.

Lemma toggle_first_some who cs b cs' :
  toggle_first who cs = Some (b, cs') →
  ∃ before c after,
    cs = before ++ c :: after
    ∧ Forall (λ c', same_name who c' = false) before
    ∧ same_name who c = true
    ∧ b = negb (enabled c)
    ∧ cs' = before ++ set_enabled c b :: after.
Proof.
  revert cs'. induction cs as [|c cs IH]; intros cs'; simpl; [done|].
  destruct (same_name who c) eqn:Hc.
  - intros [= <- <-]. by exists [], c, cs.
  - destruct (toggle_first who cs) as [[b' rest]|]; [|done].
    intros [= <- <-].
    destruct (IH rest eq_refl) as (before & c0 & after & -> & Hb & Hc0 & Hb' & ->).
    exists (c :: before), c0, after. repeat split; try done. by constructor.
Qed.

Lemma toggle_first_at who before c after :
  Forall (λ c', same_name who c' = false) before →
  same_name who c = true →
  toggle_first who (before ++ c :: after)
  = Some (negb (enabled c), before ++ set_enabled c (negb (enabled c)) :: after).
Proof.
  intros Hb Hc. induction Hb as [|c' before Hc' Hb IH]; simpl.
  - by rewrite Hc.
  - by rewrite Hc', IH.
Qed.

(** X3. [toggle_competitor] flips the [enabled] flag of the first entry
    of that name, letter case apart, and of no other; it answers "not
    found" exactly when there is no such entry, and then changes nothing.
    Names and order never change, and toggling twice gives the list back. *)
Theorem toggle_competitor_effect (who : string) (cs : list CompetitorConfig) :
  let out := toggle_competitor who cs in
  (fst out = NotFound ↔ ∀ c, c ∈ cs → PyStr.lower (name c) ≠ PyStr.lower who)
  ∧ (fst out = NotFound → snd out = cs)
  ∧ (∀ b, fst out = Toggled b →
       ∃ before c after,
         cs = before ++ c :: after
         ∧ Forall (λ c', PyStr.lower (name c') ≠ PyStr.lower who) before
         ∧ PyStr.lower (name c) = PyStr.lower who
         ∧ b = negb (enabled c)
         ∧ snd out = before ++ set_enabled c b :: after)
  ∧ name <$> snd out = name <$> cs
  ∧ snd (toggle_competitor who (snd out)) = cs.
Proof.
  cbv zeta. unfold toggle_competitor.
  destruct (toggle_first who cs) as [[b cs']|] eqn:Htoggle; simpl.
  - destruct (toggle_first_some _ _ _ _ Htoggle)
      as (before & c & after & -> & Hb & Hc & -> & ->).
    split.
    { split; [done|]. intros Hall.
      assert (same_name who c = false) as Hc'.
      { apply same_name_false, Hall, elem_of_app. right. by left. }
      congruence. }
    split; [done|]. split.
    { intros b [= <-]. exists before, c, after. repeat split; try done.
      - eapply Forall_impl; [done|]. intros c'. apply same_name_false.
      - by apply same_name_true. }
    split.
    { by rewrite !fmap_app, !fmap_cons, set_enabled_name. }
    rewrite toggle_first_at; [|done|done]. simpl.
    rewrite negb_involutive. by rewrite set_enabled_twice.
  - pose proof (proj1 (toggle_first_none who cs) Htoggle) as Hnone.
    split.
    { split; [|done]. intros _ c Hc. by apply same_name_false, Hnone. }
    split; [done|]. split; [by intros b [=]|]. split; [done|].
    by rewrite Htoggle.
Qed.

(** X4. Adding a competitor and removing it again gives the list back:
    when [add_competitor] accepted the competitor, [remove_competitor] with
    confirmation on the resulting list names that entry and saves the
    list as it was before. *)
Theorem add_then_remove (now who : string)
    (web rss twitter linkedin press cat : option string) (prio : string)
    (tgs : option string) (cs : list CompetitorConfig) (c : CompetitorConfig) :
  fst (add_competitor now who web rss twitter linkedin press cat prio tgs cs)
  = Added c →
  remove_competitor who true
    (snd (add_competitor now who web rss twitter linkedin press cat prio tgs cs))
  = (Removed (Some c), cs).
Proof.
  intros Hadd.
  destruct (add_competitor_effect now who web rss twitter linkedin press cat
              prio tgs cs) as (Hiff & Heff & _).
  cbv zeta in *.
  destruct (Heff c Hadd) as (-> & Hname & _).
  destruct (proj1 Hiff (ex_intro _ c Hadd)) as [_ Hfree].
  rewrite remove_competitor_confirmed.
  assert (same_name who c = true) as Hc by (apply same_name_true; by rewrite Hname).
  assert (filter (λ c, same_name who c = false) cs = cs) as Hkeep.
  { apply filter_all. intros c' Hc'. by apply same_name_false, Hfree. }
  assert (filter (λ c, same_name who c = true) cs = []) as Hdrop.
  { apply elem_of_nil_inv. intros c' [Hc' Hin]%list_elem_of_filter.
    apply same_name_true in Hc'. by apply (Hfree c'). }
  rewrite !filter_app, Hkeep, Hdrop, !filter_cons, !filter_nil.
  rewrite decide_False, decide_True by (done || congruence).
  rewrite app_nil_r. simpl.
  rewrite bool_decide_eq_false_2; [done|]. rewrite length_app. simpl. lia.
Qed.

(** a competitor with a changelog page is added to a list that holds Acme,
    and removed again *)
Lemma add_then_remove_witness :
  fst (add_competitor clock "Linear" (Some "https://linear.app/changelog") None
         None None None None "High" (Some "development, project-management")
         [acme])
  = Added (mkCompetitor "Linear" (Some "https://linear.app/changelog") None
             None None None "Unknown" "High" true
             ["development"; "project-management"] clock None)
  ∧ remove_competitor "LINEAR" true
      (snd (add_competitor clock "LINEAR" (Some "https://linear.app/changelog")
              None None None None None "High" None [acme]))
    = (Removed (Some (mkCompetitor "LINEAR" (Some "https://linear.app/changelog")
                        None None None None "Unknown" "High" true [] clock None)),
       [acme]).
Proof.
  split; [by vm_compute|].
  by apply (add_then_remove clock "LINEAR" (Some "https://linear.app/changelog")
              None None None None None "High" None [acme]).
Defined.

(* ===================================================================== *)
(** * What a check leaves alone *)
(* ===================================================================== *)

Lemma send_alert_competitors w who level text :
  competitors (send_alert w who level text) = competitors w.
Proof. unfold send_alert. repeat (case_match; simpl; try done). Qed.

Lemma monitor_competitor_competitors env w competitor :
  competitors (snd (monitor_competitor env w competitor)) = competitors w
  ∨ competitors (snd (monitor_competitor env w competitor))
    = replace_first (set_last_checked competitor (now env)) (competitors w).
Proof.
  unfold monitor_competitor.
  repeat (case_match; simpl; auto).
  all: rewrite ?send_alert_competitors; auto.
Qed.

Lemma restamped_name c c' : restamped c c' → name c' = name c.
Proof. by intros [->|[t ->]]. Qed.

Lemma restamped_again c c' t :
  restamped c c' → restamped c (set_last_checked c' t).
Proof. intros [->|[t' ->]]; right; by exists t. Qed.

Lemma restamped_refl cs : Forall2 restamped cs cs.
Proof. induction cs; constructor; [by left|done]. Qed.

(** stamping an entry of a list of distinct names stamps that entry *)
Lemma replace_first_restamped roster roster' c t :
  NoDup (name <$> roster) →
  c ∈ roster →
  Forall2 restamped roster roster' →
  Forall2 restamped roster (replace_first (set_last_checked c t) roster').
Proof.
  intros Hnd Hin Hrel. induction Hrel as [|c0 c1 r0 r1 Hc Hrel IH]; [constructor|].
  simpl. rewrite fmap_cons in Hnd. apply NoDup_cons in Hnd as [Hfresh Hnd].
  case_bool_decide as Hname.
  - constructor; [|done].
    rewrite (restamped_name _ _ Hc) in Hname. simpl in Hname.
    apply elem_of_cons in Hin as [->|Hin]; [by right; exists t|].
    destruct Hfresh. rewrite Hname. by apply list_elem_of_fmap_2.
  - constructor; [done|]. apply IH; [done|].
    apply elem_of_cons in Hin as [->|Hin]; [|done].
    destruct Hname. by apply restamped_name.
Qed.

Lemma monitor_competitor_restamped env roster w competitor :
  NoDup (name <$> roster) →
  competitor ∈ roster →
  Forall2 restamped roster (competitors w) →
  Forall2 restamped roster (competitors (snd (monitor_competitor env w competitor))).
Proof.
  intros Hnd Hin Hrel.
  destruct (monitor_competitor_competitors env w competitor) as [-> | ->];
    [done|by apply replace_first_restamped].
Qed.

Lemma monitor_loop_restamped env roster n i cs findings w :
  NoDup (name <$> roster) →
  cs ⊆ roster →
  Forall2 restamped roster (competitors w) →
  Forall2 restamped roster
    (competitors (snd (monitor_loop env n i cs findings w))).
Proof.
  intros Hnd. revert i findings w.
  induction cs as [|competitor cs IH]; intros i findings w Hsub Hrel; [done|].
  simpl.
  assert (competitor ∈ roster) as Hin by (apply Hsub; left).
  assert (cs ⊆ roster) as Hsub' by (intros c Hc; apply Hsub; by right).
  pose proof (monitor_competitor_restamped env roster
                (log w (Checking (name competitor))) competitor Hnd Hin Hrel) as H1.
  destruct (monitor_competitor env (log w (Checking (name competitor))) competitor)
    as [outcome w'].
  simpl in H1.
  destruct outcome as [result|e]; [|by apply IH].
  unfold sleep.
  repeat case_match; simplify_eq; by apply IH.
Qed.

Lemma kept_or_checked_name roster t c c' :
  kept_or_checked roster t c c' → name c' = name c.
Proof. by intros [->|(d & _ & _ & <- & ->)]. Qed.

Lemma kept_refl roster t cs : Forall2 (kept_or_checked roster t) cs cs.
Proof. induction cs; constructor; [by left|done]. Qed.

Lemma kept_names roster t cs cs' :
  Forall2 (kept_or_checked roster t) cs cs' → name <$> cs' = name <$> cs.
Proof.
  induction 1 as [|c c' cs cs' Hc _ IH]; [done|].
  by rewrite !fmap_cons, IH, (kept_or_checked_name _ _ _ _ Hc).
Qed.

(** the entry that [_update_competitor_config] replaces takes the place of
    an entry of its name *)
Lemma replace_first_kept roster t l l' c :
  c ∈ roster → enabled c = true →
  Forall2 (kept_or_checked roster t) l l' →
  Forall2 (kept_or_checked roster t) l (replace_first (set_last_checked c t) l').
Proof.
  intros Hin Hen Hrel. induction Hrel as [|c0 c1 r0 r1 Hc Hrel IH]; [constructor|].
  simpl. case_bool_decide as Hname; constructor; try done.
  right. exists c. split; [done|]. split; [done|]. split; [|done].
  rewrite (kept_or_checked_name _ _ _ _ Hc) in Hname. by simpl in Hname.
Qed.

Lemma monitor_competitor_writes env w competitor :
  competitors (snd (monitor_competitor env w competitor)) = competitors w
  ∨ (enabled competitor = true
     ∧ competitors (snd (monitor_competitor env w competitor))
       = replace_first (set_last_checked competitor (now env)) (competitors w)).
Proof.
  unfold monitor_competitor.
  destruct (enabled competitor); simpl; [|by left].
  repeat (case_match; simpl; auto).
  all: rewrite ?send_alert_competitors; auto.
Qed.

Lemma monitor_competitor_kept env roster l w competitor :
  competitor ∈ roster →
  Forall2 (kept_or_checked roster (now env)) l (competitors w) →
  Forall2 (kept_or_checked roster (now env)) l
    (competitors (snd (monitor_competitor env w competitor))).
Proof.
  intros Hin Hrel.
  destruct (monitor_competitor_writes env w competitor) as [-> | [Hen ->]];
    [done|by apply replace_first_kept].
Qed.

Lemma monitor_loop_kept env roster l n i cs findings w :
  cs ⊆ roster →
  Forall2 (kept_or_checked roster (now env)) l (competitors w) →
  Forall2 (kept_or_checked roster (now env)) l
    (competitors (snd (monitor_loop env n i cs findings w))).
Proof.
  revert i findings w.
  induction cs as [|competitor cs IH]; intros i findings w Hsub Hrel; [done|].
  simpl.
  assert (competitor ∈ roster) as Hin by (apply Hsub; left).
  assert (cs ⊆ roster) as Hsub' by (intros c Hc; apply Hsub; by right).
  pose proof (monitor_competitor_kept env roster l
                (log w (Checking (name competitor))) competitor Hin Hrel) as H1.
  destruct (monitor_competitor env (log w (Checking (name competitor))) competitor)
    as [outcome w'].
  simpl in H1.
  destruct outcome as [result|e]; [|by apply IH].
  unfold sleep.
  repeat case_match; simplify_eq; by apply IH.
Qed.

(** X5. Monitoring never adds, removes, reorders or renames a competitor:
    after a check, and after a whole batch, [competitors.json] lists the
    names it listed before, in their order, and each entry is the entry
    that stood there or an enabled entry of the list with that name,
    stamped with the time of its check.  When the names of the list are
    distinct, that entry is the one that stood there: nothing changes but
    [last_checked] fields.  (When a name stands twice, the first entry of
    that name is overwritten by the one that was checked.) *)
Theorem monitoring_keeps_roster (env : Env) (w : World) :
  let roster := competitors w in
  let after := competitors (snd (monitor_all env w)) in
  name <$> after = name <$> roster
  ∧ Forall2 (kept_or_checked roster (now env)) roster after
  ∧ (∀ competitor,
       competitor ∈ roster →
       name <$> competitors (snd (monitor_competitor env w competitor))
       = name <$> roster
       ∧ Forall2 (kept_or_checked roster (now env)) roster
           (competitors (snd (monitor_competitor env w competitor))))
  ∧ (NoDup (name <$> roster) →
     Forall2 restamped roster after
     ∧ ∀ competitor,
         competitor ∈ roster →
         Forall2 restamped roster
           (competitors (snd (monitor_competitor env w competitor)))).
Proof.
  cbv zeta.
  assert (Forall2 (kept_or_checked (competitors w) (now env)) (competitors w)
            (competitors (snd (monitor_all env w)))) as Hall.
  { unfold monitor_all. apply monitor_loop_kept; [|apply kept_refl].
    intros c [_ Hc]%list_elem_of_filter. done. }
  assert (∀ competitor,
            competitor ∈ competitors w →
            Forall2 (kept_or_checked (competitors w) (now env)) (competitors w)
              (competitors (snd (monitor_competitor env w competitor)))) as Hone.
  { intros competitor Hin. apply monitor_competitor_kept; [done|apply kept_refl]. }
  split; [by eapply kept_names|]. split; [done|]. split.
  { intros competitor Hin. split; [|by apply Hone].
    eapply kept_names. by apply Hone. }
  intros Hnd. split.
  - unfold monitor_all. apply monitor_loop_restamped; [done| |apply restamped_refl].
    intros c [_ Hc]%list_elem_of_filter. done.
  - intros competitor Hin.
    apply monitor_competitor_restamped; [done|done|apply restamped_refl].
Qed.

Lemma monitoring_keeps_roster_witness :
  NoDup (name <$> competitors two_competitors)
  ∧ Forall2 restamped (competitors two_competitors)
      (competitors (snd (monitor_all demo_env two_competitors)))
  ∧ competitors (snd (monitor_all demo_env two_competitors))
    = [set_last_checked acme "2024-05-01T09:00:00"; linear].
Proof.
  assert (NoDup (name <$> competitors two_competitors)) as Hnd.
  { apply (bool_decide_unpack _). by vm_compute. }
  split; [done|]. split; [|by vm_compute].
  exact (proj1 (proj2 (proj2 (proj2
           (monitoring_keeps_roster demo_env two_competitors))) Hnd)).
Defined.

(** with the name "Acme" twice in the list, the check of the second entry
    overwrites the first, which was switched off *)
Example monitoring_overwrites_first_of_name :
  competitors (snd (monitor_all demo_env acme_twice))
  = [set_last_checked acme "2024-05-01T09:00:00"; acme].
Proof. by vm_compute. Qed.

(** the cache key tells competitors apart *)
Lemma cache_key_inj a b : cache_key a = cache_key b → a = b.
Proof. unfold cache_key. intros H. by simplify_eq/=. Qed.

Lemma cached_update_cache_ne cache who name updates :
  who ≠ name → cached (_update_cache cache name updates) who = cached cache who.
Proof.
  intros Hne. unfold cached, _update_cache.
  rewrite lookup_insert_ne; [done|]. intros H. by apply cache_key_inj in H.
Qed.

Lemma send_alert_trends w who level text :
  trends (send_alert w who level text) = trends w.
Proof. apply send_alert_cache. Qed.

Lemma monitor_competitor_trends env w competitor :
  trends (snd (monitor_competitor env w competitor)) = trends w
  ∨ ∃ analysis,
      record_finding (now env) (trends w) (name competitor) analysis
      = Ok (trends (snd (monitor_competitor env w competitor))).
Proof.
  unfold monitor_competitor.
  repeat (case_match; simpl; auto).
  all: rewrite ?send_alert_trends; simpl; eauto.
Qed.

Lemma monitor_competitor_others env w competitor who :
  who ≠ name competitor →
  cached (cache (snd (monitor_competitor env w competitor))) who = cached (cache w) who
  ∧ trends (snd (monitor_competitor env w competitor)) !! who = trends w !! who.
Proof.
  intros Hne. split.
  - destruct (monitor_competitor_cache env w competitor) as [-> | ->];
      [done|by apply cached_update_cache_ne].
  - destruct (monitor_competitor_trends env w competitor) as [-> | [a Ha]]; [done|].
    apply record_finding_ok in Ha as (r & -> & _).
    by rewrite lookup_insert_ne.
Qed.

Lemma monitor_loop_others env n i cs findings w who :
  who ∉ name <$> cs →
  cached (cache (snd (monitor_loop env n i cs findings w))) who = cached (cache w) who
  ∧ trends (snd (monitor_loop env n i cs findings w)) !! who = trends w !! who.
Proof.
  revert i findings w.
  induction cs as [|competitor cs IH]; intros i findings w Hout; [done|].
  rewrite fmap_cons in Hout. apply not_elem_of_cons in Hout as [Hne Hout].
  simpl.
  pose proof (monitor_competitor_others env (log w (Checking (name competitor)))
                competitor who Hne) as [H1 H2].
  destruct (monitor_competitor env (log w (Checking (name competitor))) competitor)
    as [outcome w'].
  simpl in H1, H2.
  assert (∀ i findings w'',
            cache w'' = cache w' → trends w'' = trends w' →
            cached (cache (snd (monitor_loop env n i cs findings w''))) who
            = cached (cache w) who
            ∧ trends (snd (monitor_loop env n i cs findings w'')) !! who
              = trends w !! who) as Hrest.
  { intros i' findings' w'' Hc Ht.
    destruct (IH i' findings' w'' Hout) as [-> ->]. by rewrite Hc, Ht. }
  destruct outcome as [result|e]; [|by apply Hrest].
  unfold sleep.
  repeat case_match; simplify_eq; by apply Hrest.
Qed.

(** X6. A check touches the stored fingerprints and the trend record of
    the competitor it checks and of no other; a batch touches those of the
    enabled competitors only, so what is kept for a disabled or removed
    competitor stays as it is. *)
Theorem check_isolated (env : Env) (w : World) (who : string) :
  (∀ competitor,
     who ≠ name competitor →
     cached (cache (snd (monitor_competitor env w competitor))) who
     = cached (cache w) who
     ∧ trends (snd (monitor_competitor env w competitor)) !! who = trends w !! who)
  ∧ ((∀ c, c ∈ competitors w → name c = who → enabled c = false) →
     cached (cache (snd (monitor_all env w))) who = cached (cache w) who
     ∧ trends (snd (monitor_all env w)) !! who = trends w !! who).
Proof.
  split; [intros competitor; apply monitor_competitor_others|].
  intros Hoff. unfold monitor_all. apply monitor_loop_others.
  intros (c & -> & [Hen Hc]%list_elem_of_filter)%list_elem_of_fmap.
  specialize (Hoff c Hc eq_refl). congruence.
Qed.

(* ===================================================================== *)
(** * Alerts *)
(* ===================================================================== *)

Lemma send_alert_events w who level text :
  trace (send_alert w who level text)
  = trace w ++
    (if bool_decide (truthy (notification_email (config w)) ≠ None
                     ∧ (level = "Critical" ∧ notify_on_critical (config w) = true
                        ∨ level = "High" ∧ notify_on_high (config w) = true))
     then [Alert who level] else []).
Proof.
  unfold send_alert.
  destruct (truthy (notification_email (config w))) as [mail|] eqn:Hmail.
  2: { rewrite bool_decide_eq_false_2; [by rewrite app_nil_r|]. by intros [? _]. }
  destruct (decide (level = "Critical")) as [->|Hc].
  - rewrite (bool_decide_eq_true_2 ("Critical" = "Critical")) by done.
    destruct (notify_on_critical (config w)); cbn [negb andb].
    + rewrite (bool_decide_eq_false_2 ("Critical" = "High")) by done. cbn [andb].
      rewrite (bool_decide_eq_false_2 ("Critical" ∉ _)) by (intros H; apply H; left).
      rewrite bool_decide_eq_true_2; [done|]. split; [done|by left].
    + rewrite bool_decide_eq_false_2; [by rewrite app_nil_r|].
      intros [_ [[_ ?]|[? _]]]; done.
  - rewrite (bool_decide_eq_false_2 (level = "Critical")) by done. cbn [andb].
    destruct (decide (level = "High")) as [->|Hh].
    + rewrite (bool_decide_eq_true_2 ("High" = "High")) by done.
      destruct (notify_on_high (config w)); cbn [negb andb].
      * rewrite (bool_decide_eq_false_2 ("High" ∉ _))
          by (intros H; apply H; right; left).
        rewrite bool_decide_eq_true_2; [done|]. split; [done|by right].
      * rewrite bool_decide_eq_false_2; [by rewrite app_nil_r|].
        intros [_ [[? _]|[_ ?]]]; done.
    + rewrite (bool_decide_eq_false_2 (level = "High")) by done. cbn [andb].
      rewrite (bool_decide_eq_true_2 (level ∉ _)).
      2: { rewrite !not_elem_of_cons. repeat split; try done. apply not_elem_of_nil. }
      rewrite bool_decide_eq_false_2; [by rewrite app_nil_r|].
      intros [_ [[? _]|[? _]]]; done.
Qed.

(** what a check adds to the trace *)
Lemma monitor_competitor_new_events env w competitor :
  new_events w (snd (monitor_competitor env w competitor))
  = match fst (monitor_competitor env w competitor) with
    | Ok (Some finding) =>
        if bool_decide
             (truthy (notification_email (config w)) ≠ None
              ∧ (impact (f_analysis finding) = "Critical"
                 ∧ notify_on_critical (config w) = true
                 ∨ impact (f_analysis finding) = "High"
                   ∧ notify_on_high (config w) = true))
        then [Alert (name competitor) (impact (f_analysis finding))]
        else []
    | _ => []
    end.
Proof.
  unfold new_events, monitor_competitor.
  destruct (enabled competitor); simpl; [|by rewrite drop_all].
  destruct (gather_updates env competitor) as [|u0 us]; [by rewrite drop_all|].
  destruct (_filter_new_updates (cache w) (name competitor) (u0 :: us))
    as [|n0 ns]; simpl; [by rewrite drop_all|].
  destruct (analyze_updates_some env (name competitor) (category competitor)
              (n0 :: ns)) as [a ->].
  destruct (record_finding (now env) (trends w) (name competitor) a) as [t|e];
    simpl; [|by rewrite drop_all].
  case_bool_decide as Hlevel; simpl.
  - rewrite send_alert_events. simpl. by rewrite drop_app_length.
  - rewrite drop_all. rewrite bool_decide_eq_false_2; [done|].
    intros [_ [[Heq _]|[Heq _]]]; destruct Hlevel; rewrite Heq.
    + by left.
    + right. by left.
Qed.

(** X7. A check sends an alert exactly when it returns a finding whose
    impact is Critical or High while a notification address is configured
    (a non-empty string) and the alerts of that level are switched on; the
    alert names the competitor checked and that level, and it is the only
    thing the check adds to the trace.  Without an address no check ever
    alerts. *)
Theorem alert_iff_asked (env : Env) (w : World) (competitor : CompetitorConfig)
    (who level : string) :
  let out := monitor_competitor env w competitor in
  (Alert who level ∈ new_events w (snd out)
   ↔ who = name competitor
     ∧ truthy (notification_email (config w)) ≠ None
     ∧ (level = "Critical" ∧ notify_on_critical (config w) = true
        ∨ level = "High" ∧ notify_on_high (config w) = true)
     ∧ ∃ finding, fst out = Ok (Some finding)
                  ∧ impact (f_analysis finding) = level)
  ∧ (new_events w (snd out) = []
     ∨ ∃ finding, fst out = Ok (Some finding)
                  ∧ new_events w (snd out)
                    = [Alert (name competitor) (impact (f_analysis finding))]).
Proof.
  cbv zeta. rewrite monitor_competitor_new_events.
  destruct (fst (monitor_competitor env w competitor)) as [[finding|]|e].
  - case_bool_decide as Hask.
    + split; [|right; by exists finding].
      split.
      * intros [[= -> ->]|[]%elem_of_nil]%elem_of_cons.
        destruct Hask as [Hmail Hlevel]. repeat split; try done. by exists finding.
      * intros (-> & _ & _ & f & [= <-] & <-). by left.
    + split; [|by left].
      split; [by intros []%elem_of_nil|].
      intros (-> & Hmail & Hlevel & f & [= <-] & <-). by destruct Hask.
  - split; [|by left].
    split; [by intros []%elem_of_nil|]. by intros (_ & _ & _ & f & [=] & _).
  - split; [|by left].
    split; [by intros []%elem_of_nil|]. by intros (_ & _ & _ & f & [=] & _).
Qed.

(** a launch at Acme: an alert when an address is configured, none without *)
Example alert_for_a_launch :
  new_events alerting_world (snd (monitor_competitor demo_env alerting_world acme))
  = [Alert "Acme" "High"]
  ∧ new_events demo_world (snd (monitor_competitor demo_env demo_world acme)) = [].
Proof. split; by vm_compute. Qed.

(* ===================================================================== *)
(** * What a finding reports *)
(* ===================================================================== *)

Lemma slice_0_take {A} (j : Z) (l : list A) : slice 0 j l = take (clamp l j) l.
Proof.
  unfold slice. replace (clamp l 0) with 0%nat; [by rewrite Nat.sub_0_r|].
  unfold clamp. simpl. lia.
Qed.

Lemma clamp_nonneg {A} (l : list A) (j : Z) :
  (0 ≤ j)%Z → clamp l j = Z.to_nat j `min` length l.
Proof. intros Hj. unfold clamp. case_match; lia. Qed.

Lemma monitor_competitor_stamps env w competitor finding w1 :
  monitor_competitor env w competitor = (Ok (Some finding), w1) →
  f_competitor finding = set_last_checked competitor (now env).
Proof.
  unfold monitor_competitor.
  repeat (case_match; simpl; try done); by intros [= <- <-].
Qed.

(** X8. What a finding reports: every reported update is one of the
    gathered candidates, and its fingerprint was not among the stored ones;
    the reported updates are the first of the new ones, in their order,
    never more than [max_updates_per_competitor] when that is not negative,
    and at least one when it is at least 1; the analysis is made from all
    the new updates, also those not reported; and the competitor of the
    finding is the one checked, stamped with the time of the check. *)
Theorem finding_reports_new (env : Env) (w : World) (competitor : CompetitorConfig)
    (finding : Finding) :
  fst (monitor_competitor env w competitor) = Ok (Some finding) →
  let new_updates :=
    _filter_new_updates (cache w) (name competitor) (gather_updates env competitor) in
  (∀ u, u ∈ f_updates finding →
        u ∈ gather_updates env competitor
        ∧ fingerprint u ∉ cached (cache w) (name competitor))
  ∧ f_updates finding `prefix_of` new_updates
  ∧ ((0 ≤ max_updates_per_competitor (config w))%Z →
     length (f_updates finding)
     = Z.to_nat (max_updates_per_competitor (config w)) `min` length new_updates)
  ∧ ((1 ≤ max_updates_per_competitor (config w))%Z → f_updates finding ≠ [])
  ∧ analyze_updates env (name competitor) (category competitor) new_updates
    = Some (f_analysis finding)
  ∧ f_competitor finding = set_last_checked competitor (now env).
Proof.
  intros Hout. cbv zeta.
  destruct (monitor_competitor env w competitor) as [outcome w1] eqn:Hrun.
  simpl in Hout. subst outcome.
  pose proof (monitor_competitor_finding _ _ _ _ _ Hrun)
    as (Hen & Hnew & _ & Hupd & Han & _).
  rewrite slice_0_take in Hupd.
  split.
  { intros u Hu. rewrite Hupd in Hu.
    apply elem_of_take in Hu as (i & Hi & _).
    apply list_elem_of_lookup_2 in Hi. by apply filter_new_spec in Hi. }
  split; [rewrite Hupd; apply prefix_take|].
  split.
  { intros Hmax. rewrite Hupd, length_take, clamp_nonneg by done. lia. }
  split.
  { intros Hmax. rewrite Hupd.
    destruct (_filter_new_updates _ _ _) as [|n0 ns]; [done|].
    rewrite clamp_nonneg by lia. simpl.
    destruct (Z.to_nat (max_updates_per_competitor (config w))) eqn:Hz; [lia|].
    done. }
  split; [done|]. by eapply monitor_competitor_stamps.
Qed.

Lemma finding_reports_new_witness :
  ∃ finding,
    fst (monitor_competitor demo_env demo_world acme) = Ok (Some finding)
    ∧ title <$> f_updates finding = ["Acme launches new product"; "Dark mode"]
    ∧ f_updates finding
      `prefix_of` _filter_new_updates (cache demo_world) (name acme)
                    (gather_updates demo_env acme).
Proof.
  destruct (monitor_competitor demo_env demo_world acme) as [outcome w1] eqn:Hrun.
  vm_compute in Hrun.
  injection Hrun as Hout Hw. clear Hw.
  symmetry in Hout.
  match type of Hout with
  | outcome = Ok (Some ?f) => exists f
  end.
  split; [by rewrite Hout|]. split; [by vm_compute|].
  subst outcome.
  eapply (finding_reports_new demo_env demo_world acme). by vm_compute.
Defined.

(* ===================================================================== *)
(** * When the trend store takes a finding *)
(* ===================================================================== *)

(** an increment that returns leaves a counter for its key, and no other
    new one *)
Lemma incr_keys b counts k counts' :
  incr b counts k = Ok counts' →
  ∀ j, is_Some (counts' !! j) ↔ j = k ∨ is_Some (counts !! j).
Proof.
  unfold incr. intros H j.
  assert (counts' = <[k := default 1%nat (S <$> counts !! k)]> counts) as ->.
  { destruct (counts !! k); simpl; [by injection H|].
    destruct b; [by injection H|done]. }
  rewrite lookup_insert. case_decide as Hk.
  - subst j. split; [by left|by eexists].
  - split; [by right|]. by intros [?|?].
Qed.

Lemma incr_returns b counts k :
  returns (incr b counts k) = true ↔ b = true ∨ is_Some (counts !! k).
Proof.
  unfold incr. destruct (counts !! k) as [n|]; simpl.
  - split; [right; by eexists|done].
  - destruct b; simpl; split; try done; [by left|].
    intros [?|[? ?]]; done.
Qed.

Lemma incr_raises b counts k e : incr b counts k = Raise e → e = KeyError.
Proof. unfold incr. repeat case_match; by intros [=]. Qed.

Lemma foldM_incr_keys b ks counts counts' :
  foldM (incr b) ks counts = Ok counts' →
  ∀ j, is_Some (counts' !! j) ↔ j ∈ ks ∨ is_Some (counts !! j).
Proof.
  revert counts. induction ks as [|k ks IH]; intros counts; simpl.
  - intros [= <-] j. split; [by right|]. by intros [Hj%elem_of_nil|?].
  - destruct (incr b counts k) as [c1|e] eqn:H1; simpl; [|done].
    intros H2 j. rewrite (IH _ H2 j), (incr_keys _ _ _ _ H1 j), elem_of_cons.
    tauto.
Qed.

Lemma foldM_incr_returns b ks counts :
  returns (foldM (incr b) ks counts) = true
  ↔ b = true ∨ ∀ k, k ∈ ks → is_Some (counts !! k).
Proof.
  revert counts. induction ks as [|k ks IH]; intros counts; simpl.
  - split; [|done]. intros _. right. by intros k Hk%elem_of_nil.
  - destruct (incr b counts k) as [c1|e] eqn:H1; simpl.
    + rewrite IH. split.
      * intros [->|Hall]; [by left|].
        destruct b; [by left|right].
        intros j [->|Hj]%elem_of_cons.
        -- assert (returns (incr false counts k) = true) as Hr by by rewrite H1.
           apply incr_returns in Hr as [?|?]; done.
        -- specialize (Hall j Hj).
           apply (incr_keys _ _ _ _ H1) in Hall as [->|?]; [|done].
           assert (returns (incr false counts k) = true) as Hr by by rewrite H1.
           apply incr_returns in Hr as [?|?]; done.
      * intros [->|Hall]; [by left|right].
        intros j Hj. apply (incr_keys _ _ _ _ H1). right. apply Hall. by right.
    + split; [done|]. intros Hb.
      assert (returns (incr b counts k) = true) as Hr.
      { apply incr_returns. destruct Hb as [?|Hall]; [by left|right].
        apply Hall. by left. }
      by rewrite H1 in Hr.
Qed.

Lemma foldM_incr_raises b ks counts e :
  foldM (incr b) ks counts = Raise e → e = KeyError.
Proof.
  revert counts. induction ks as [|k ks IH]; intros counts; simpl; [done|].
  destruct (incr b counts k) as [c1|e'] eqn:H1; simpl.
  - apply IH.
  - intros [= <-]. by eapply incr_raises.
Qed.

(** the two loops over features and their terms are one loop over all the
    terms *)
Lemma foldM_terms b features mentions :
  foldM (λ m feature, foldM (incr b) (key_terms feature) m) features mentions
  = foldM (incr b) (mjoin (key_terms <$> features)) mentions.
Proof.
  assert (∀ ks1 ks2 m,
            foldM (incr b) (ks1 ++ ks2) m
            = (m' ← foldM (incr b) ks1 m; foldM (incr b) ks2 m')) as Happ.
  { induction ks1 as [|k ks1 IH]; intros ks2 m; simpl; [done|].
    destruct (incr b m k); simpl; [apply IH|done]. }
  revert mentions. induction features as [|f fs IH]; intros mentions; simpl; [done|].
  rewrite Happ. destruct (foldM (incr b) (key_terms f) mentions); simpl; [apply IH|done].
Qed.

Lemma elem_of_all_terms term features :
  term ∈ mjoin (key_terms <$> features)
  ↔ ∃ feature, feature ∈ features ∧ term ∈ key_terms feature.
Proof.
  rewrite list_elem_of_join. split.
  - intros (l & Hterm & (f & -> & Hf)%list_elem_of_fmap). by exists f.
  - intros (f & Hf & Hterm). exists (key_terms f). split; [done|].
    by apply list_elem_of_fmap_2.
Qed.

(** [record_finding], case by case *)
Lemma record_finding_unfold now trends name analysis :
  record_finding now trends name analysis
  = (let fresh := bool_decide (trends !! name = None) in
     let old := trend_of trends name in
     counts ← incr fresh (impact_counts old) (impact analysis);
     mentions ← foldM (incr fresh) (mjoin (key_terms <$> key_features analysis))
                  (feature_mentions old);
     Ok (<[name := mkTrend
                     (drop (length (history old ++
                              [mkEntry now (impact analysis) (threat_level analysis)
                                 (summary analysis) (key_features analysis)]) - 50)
                           (history old ++
                              [mkEntry now (impact analysis) (threat_level analysis)
                                 (summary analysis) (key_features analysis)]))
                     counts mentions]> trends)).
Proof.
  unfold record_finding, trend_of.
  destruct (trends !! name) as [old|]; cbv beta iota zeta;
    rewrite foldM_terms, slice_from_50_if;
    rewrite ?bool_decide_eq_false_2, ?bool_decide_eq_true_2 by done; done.
Qed.

(** X9. [record_finding] returns exactly when the competitor has no
    record yet, or its record has a counter for the impact level of the
    analysis and one for every key term of its features; what it raises
    otherwise is [KeyError].  A call that returned leaves a record that
    takes the same analysis again, at any later time. *)
Theorem record_finding_returns_iff (now : string)
    (trends : gmap string TrendRecord) (who : string) (analysis : Analysis) :
  (returns (record_finding now trends who analysis) = true
   ↔ match trends !! who with
     | None => True
     | Some old =>
         is_Some (impact_counts old !! impact analysis)
         ∧ ∀ feature term,
             feature ∈ key_features analysis → term ∈ key_terms feature →
             is_Some (feature_mentions old !! term)
     end)
  ∧ (∀ e, record_finding now trends who analysis = Raise e → e = KeyError)
  ∧ (∀ trends' later,
       record_finding now trends who analysis = Ok trends' →
       returns (record_finding later trends' who analysis) = true).
Proof.
  assert (∀ now trends,
            returns (record_finding now trends who analysis) = true
            ↔ match trends !! who with
              | None => True
              | Some old =>
                  is_Some (impact_counts old !! impact analysis)
                  ∧ ∀ feature term,
                      feature ∈ key_features analysis → term ∈ key_terms feature →
                      is_Some (feature_mentions old !! term)
              end) as Hiff.
  { clear. intros now trends. rewrite record_finding_unfold. cbv zeta.
    unfold trend_of.
    destruct (trends !! who) as [old|] eqn:Hold; simpl.
    - rewrite ?bool_decide_eq_false_2 by done.
      destruct (incr false (impact_counts old) (impact analysis)) as [c|e] eqn:Hc;
        simpl.
      + assert (is_Some (impact_counts old !! impact analysis)) as Hlevel.
        { assert (returns (incr false (impact_counts old) (impact analysis)) = true)
            as Hr by by rewrite Hc.
          apply incr_returns in Hr as [?|?]; done. }
        pose proof (foldM_incr_returns false
                      (mjoin (key_terms <$> key_features analysis))
                      (feature_mentions old)) as Hterms.
        destruct (foldM _ _ (feature_mentions old)) as [m|e]; simpl in *.
        * split; [|done]. intros _. split; [done|].
          intros feature term Hf Ht.
          destruct (proj1 Hterms eq_refl) as [?|Hall]; [done|].
          apply Hall, elem_of_all_terms. by exists feature.
        * split; [done|]. intros [_ Hall].
          apply Hterms. right. intros k (f & Hf & Hk)%elem_of_all_terms.
          by eapply Hall.
      + split; [done|]. intros [Hlevel _].
        assert (returns (incr false (impact_counts old) (impact analysis)) = true)
          as Hr by (apply incr_returns; by right).
        by rewrite Hc in Hr.
    - rewrite ?bool_decide_eq_true_2 by done.
      assert (returns (incr true ∅ (impact analysis)) = true) as Hr1
        by (apply incr_returns; by left).
      destruct (incr true ∅ (impact analysis)) as [c|e]; [|done]. simpl.
      assert (returns (foldM (incr true)
                         (mjoin (key_terms <$> key_features analysis)) ∅) = true)
        as Hr2 by (apply foldM_incr_returns; by left).
      by destruct (foldM _ _ _). }
  split; [apply Hiff|]. split.
  - intros e. rewrite record_finding_unfold. cbv zeta.
    destruct (incr _ _ (impact analysis)) as [c|e'] eqn:Hc; simpl.
    + destruct (foldM _ _ _) as [m|e'] eqn:Hm; simpl; [done|].
      intros [= <-]. by eapply foldM_incr_raises.
    + intros [= <-]. by eapply incr_raises.
  - intros trends' later Hok. apply Hiff.
    rewrite record_finding_unfold in Hok. cbv zeta in Hok.
    destruct (incr _ _ (impact analysis)) as [c|e'] eqn:Hc; simpl in Hok; [|done].
    destruct (foldM _ _ _) as [m|e'] eqn:Hm; simpl in Hok; [|done].
    injection Hok as <-. rewrite lookup_insert_eq. simpl. split.
    + apply (incr_keys _ _ _ _ Hc). by left.
    + intros feature term Hf Ht. apply (foldM_incr_keys _ _ _ _ Hm). left.
      apply elem_of_all_terms. by exists feature.
Qed.

(* ===================================================================== *)
(** * The window of the history *)
(* ===================================================================== *)

Lemma record_finding_history now trends who analysis trends' :
  record_finding now trends who analysis = Ok trends' →
  let entry := mkEntry now (impact analysis) (threat_level analysis)
                 (summary analysis) (key_features analysis) in
  history (trend_of trends' who)
  = drop (length (history (trend_of trends who) ++ [entry]) - 50)
         (history (trend_of trends who) ++ [entry])
  ∧ ∀ other, other ≠ who → trends' !! other = trends !! other.
Proof.
  intros Hok. apply record_finding_ok in Hok as (r & -> & Hh & _).
  cbv zeta. split.
  - unfold trend_of at 1. by rewrite lookup_insert_eq.
  - intros other Hne. by rewrite lookup_insert_ne.
Qed.

Lemma record_all_history_length now calls trends who :
  (length (history (trend_of trends who)) ≤ 50)%nat →
  length (history (trend_of (record_all now calls trends) who))
  = (50 `min` (length (history (trend_of trends who))
               + count_returned now calls trends who))%nat.
Proof.
  revert trends.
  induction calls as [|[name a] calls IH]; intros trends Hb;
    cbn [record_all count_returned].
  { lia. }
  unfold record.
  destruct (record_finding now trends name a) as [t|e] eqn:Hr; cbn [returns].
  - destruct (record_finding_history _ _ _ _ _ Hr) as [Hh Hother].
    cbv zeta in Hh.
    destruct (decide (name = who)) as [->|Hne].
    + rewrite bool_decide_eq_true_2 by done. cbn [andb].
      assert (length (history (trend_of t who))
              = (50 `min` S (length (history (trend_of trends who))))%nat) as Hlen.
      { rewrite Hh, length_drop, length_app. cbn [length]. lia. }
      rewrite IH by lia. rewrite Hlen. lia.
    + rewrite bool_decide_eq_false_2 by done. cbn [andb].
      assert (trend_of t who = trend_of trends who) as Heq.
      { unfold trend_of. by rewrite Hother. }
      rewrite IH by (by rewrite Heq). rewrite Heq. lia.
  - rewrite andb_false_r. rewrite IH by done. lia.
Qed.

(** X10. The history of a competitor is a window of its 50 newest
    findings: a call of [record_finding] that returns appends its entry and
    drops from the front what exceeds 50, and touches no other competitor;
    so from an empty [trends.json], after any run of calls, the history of
    a competitor has as many entries as calls for it returned, up to 50,
    its impact counters sum to the number of calls that returned, and no
    history ever has more than 50 entries. *)
Theorem history_window (now : string) (calls : list (string * Analysis))
    (who : string) :
  (∀ trends analysis trends',
     record_finding now trends who analysis = Ok trends' →
     let entry := mkEntry now (impact analysis) (threat_level analysis)
                    (summary analysis) (key_features analysis) in
     history (trend_of trends' who)
     = drop (length (history (trend_of trends who) ++ [entry]) - 50)
            (history (trend_of trends who) ++ [entry])
     ∧ last (history (trend_of trends' who)) = Some entry
     ∧ ∀ other, other ≠ who → trends' !! other = trends !! other)
  ∧ length (history (trend_of (record_all now calls ∅) who))
    = (50 `min` count_returned now calls ∅ who)%nat
  ∧ total (impact_counts (trend_of (record_all now calls ∅) who))
    = count_returned now calls ∅ who
  ∧ histories_bounded (record_all now calls ∅).
Proof.
  split.
  { intros trends analysis trends' Hok. cbv zeta.
    destruct (record_finding_history _ _ _ _ _ Hok) as [Hh Hother].
    cbv zeta in Hh. split; [done|]. split; [|done].
    rewrite Hh, length_app. simpl.
    set (h := history (trend_of trends who)).
    rewrite drop_app_le by lia.
    by rewrite last_snoc. }
  split.
  { rewrite record_all_history_length; unfold trend_of; rewrite lookup_empty; simpl;
      [done|lia]. }
  split.
  { rewrite record_all_total. unfold trend_of. rewrite lookup_empty. simpl.
    by rewrite total_empty. }
  apply record_all_histories_bounded. intros k r. by rewrite lookup_empty.
Qed.

(* ===================================================================== *)
(** * The figures of a trend report *)
(* ===================================================================== *)

Lemma impact_scores_range level : (1 ≤ impact_scores level ≤ 4)%Z.
Proof. unfold impact_scores. repeat case_bool_decide; lia. Qed.

Lemma sum_scores_range (entries : list HistoryEntry) :
  (Z.of_nat (length entries)
   ≤ foldr Z.add 0 ((λ e, impact_scores (h_impact e)) <$> entries)
   ≤ 4 * Z.of_nat (length entries))%Z.
Proof.
  induction entries as [|e entries IH]; [simpl; lia|].
  rewrite fmap_cons. cbn [foldr length]. rewrite Nat2Z.inj_succ.
  pose proof (impact_scores_range (h_impact e)). lia.
Qed.

Lemma slice_from_10_length {A} (l : list A) :
  length (slice_from (-10) l) = (10 `min` length l)%nat.
Proof.
  change (-10)%Z with (- Z.of_nat 10)%Z. rewrite slice_from_neg_length by lia. done.
Qed.

(** X11. The figures of a trend report: [recent_activity] is the number
    of stored findings, up to 10, and at least 1; [average_impact] lies
    between 1 and 4 whatever levels the history holds; the first and the
    last time stamp are there; and [total_updates] is at most 50 when the
    histories of the store are (as [record_finding] keeps them). *)
Theorem trend_report_figures (trends : gmap string TrendRecord) (who : string)
    (stats : Stats) :
  get_competitor_trends trends who = Report stats →
  recent_activity stats = (10 `min` total_updates stats)%nat
  ∧ (1 ≤ recent_activity stats)%nat
  ∧ QArith_base.Qle (QArith_base.Qmake 1 1) (average_impact stats)
  ∧ QArith_base.Qle (average_impact stats) (QArith_base.Qmake 4 1)
  ∧ is_Some (first_seen stats) ∧ is_Some (last_seen stats)
  ∧ (histories_bounded trends → (total_updates stats ≤ 50)%nat).
Proof.
  unfold get_competitor_trends.
  destruct (trends !! who) as [data|] eqn:Hdata; [|done].
  destruct (history data) as [|e0 h] eqn:Hh; [done|].
  intros [= <-]. cbn [recent_activity total_updates average_impact first_seen last_seen].
  set (hist := e0 :: h) in *.
  assert (1 ≤ length hist)%nat as Hpos by (unfold hist; simpl; lia).
  pose proof (slice_from_10_length hist) as Hrecent.
  pose proof (sum_scores_range (slice_from (-10) hist)) as Hsum.
  assert (Z.pos (Pos.of_nat (length (slice_from (-10) hist)))
          = Z.of_nat (length (slice_from (-10) hist))) as Hden.
  { rewrite <- positive_nat_Z, Nat2Pos.id; [done|]. rewrite Hrecent. lia. }
  split; [done|]. split; [lia|].
  split; [unfold QArith_base.Qle; simpl; lia|].
  split; [unfold QArith_base.Qle; simpl; lia|].
  split; [by eexists|]. split.
  - unfold hist. rewrite last_cons. destruct (last h); by eexists.
  - intros Hb. specialize (Hb who data Hdata). by rewrite Hh in Hb.
Qed.

Lemma trend_report_figures_witness :
  ∃ stats,
    get_competitor_trends (steady_store 15) "Acme" = Report stats
    ∧ total_updates stats = 15%nat
    ∧ recent_activity stats = 10%nat
    ∧ QArith_base.Qle (QArith_base.Qmake 1 1) (average_impact stats)
    ∧ QArith_base.Qle (average_impact stats) (QArith_base.Qmake 4 1).
Proof.
  destruct (get_competitor_trends (steady_store 15) "Acme") as [err|stats] eqn:Hrun.
  { by vm_compute in Hrun. }
  exists stats. split; [done|].
  assert (total_updates stats = 15%nat) as Htotal.
  { vm_compute in Hrun. by injection Hrun as <-. }
  destruct (trend_report_figures (steady_store 15) "Acme" stats Hrun)
    as (Hrecent & _ & Hlow & Hhigh & _).
  rewrite Htotal in Hrecent.
  split; [exact Htotal|]. split; [exact Hrecent|]. split; [exact Hlow|exact Hhigh].
Defined.

(* ===================================================================== *)
(** * Cleaning a page *)
(* ===================================================================== *)

Lemma node_induction (P : node → Prop) :
  (∀ s, P (Text s)) →
  (∀ t a cs, Forall P cs → P (Elem t a cs)) →
  ∀ n, P n.
Proof.
  intros HT HE. fix IH 1. intros [s|t a cs]; [apply HT|apply HE].
  induction cs as [|c cs IHcs]; constructor; [apply IH|apply IHcs].
Qed.

Lemma below_elem t a cs :
  below (Elem t a cs) = cs ≫= (λ c, c :: below c).
Proof. simpl. induction cs as [|c cs IH]; [done|]. simpl. by rewrite IH. Qed.

Lemma prune_elem gone t a cs :
  Soup.prune gone (Elem t a cs)
  = Elem t a (Soup.prune gone <$> filter (λ c, gone c = false) cs).
Proof.
  simpl. f_equal. induction cs as [|c cs IH]; [done|].
  rewrite filter_cons. destruct (gone c) eqn:Hc; simpl; by rewrite ?IH.
Qed.

Lemma descendants_at_below pos n :
  here <$> Soup.descendants_at pos n = below n.
Proof.
  revert pos. induction n as [s|t a cs IH] using node_induction; intros pos; [done|].
  simpl. generalize (Elem t a cs). generalize 0%nat.
  induction IH as [|c cs Hc _ IHcs]; intros i up; [done|].
  rewrite fmap_cons, fmap_app, Hc, IHcs. done.
Qed.

Lemma descendants_below n : here <$> Soup.descendants n = below n.
Proof. apply descendants_at_below. Qed.

Lemma prune_shallow q gone n : shallow q → q (Soup.prune gone n) = q n.
Proof. intros Hq. destruct n as [s|t a cs]; [done|]. rewrite prune_elem. apply Hq. Qed.

Lemma Forall_below (P : node → Prop) t a cs :
  Forall P (below (Elem t a cs)) ↔ Forall (λ c, P c ∧ Forall P (below c)) cs.
Proof.
  rewrite below_elem. induction cs as [|c cs IH]; [by split; constructor|].
  rewrite bind_cons, Forall_app, !Forall_cons, IH. tauto.
Qed.

(** pruning leaves none of the elements it looks for *)
Lemma prune_clean gone n :
  shallow gone → Forall (λ c, gone c = false) (below (Soup.prune gone n)).
Proof.
  intros Hg. induction n as [s|t a cs IH] using node_induction; [constructor|].
  rewrite prune_elem. apply Forall_below.
  induction IH as [|c cs Hc _ IHcs]; [constructor|].
  rewrite filter_cons. case_decide as Hgone; [|done].
  rewrite fmap_cons. constructor; [|done].
  split; [by rewrite prune_shallow|done].
Qed.

(** pruning brings back none of the elements an earlier pruning removed *)
Lemma prune_keeps_clean q gone n :
  shallow q →
  Forall (λ c, q c = false) (below n) →
  Forall (λ c, q c = false) (below (Soup.prune gone n)).
Proof.
  intros Hq. induction n as [s|t a cs IH] using node_induction; [done|].
  rewrite prune_elem. rewrite !Forall_below.
  induction IH as [|c cs Hc _ IHcs]; [constructor|].
  intros [[Hqc Hbelow] Hrest]%Forall_cons.
  rewrite filter_cons. case_decide as Hgone; [|by apply IHcs].
  rewrite fmap_cons. constructor; [|by apply IHcs].
  split; [by rewrite prune_shallow|by apply Hc].
Qed.

(** pruning a tree that holds none of the elements looked for changes nothing *)
Lemma prune_nothing gone n :
  Forall (λ c, gone c = false) (below n) → Soup.prune gone n = n.
Proof.
  induction n as [s|t a cs IH] using node_induction; [done|].
  rewrite prune_elem, Forall_below. intros Hall. f_equal.
  induction IH as [|c cs Hc _ IHcs]; [done|].
  apply Forall_cons in Hall as [[Hgone Hbelow] Hall].
  rewrite filter_cons, decide_True by done.
  rewrite fmap_cons, Hc, IHcs; done.
Qed.

Lemma shallow_has_name names : shallow (Soup.has_name names).
Proof. by intros t a cs cs'. Qed.

Lemma shallow_attr_contains key pats : shallow (Soup.attr_contains key pats).
Proof. by intros t a cs cs'. Qed.

Lemma shallow_noise_role : shallow noise_role.
Proof. by intros t a cs cs'. Qed.

Lemma attr_contains_any key pats n :
  Soup.attr_contains key pats n = false
  ↔ ∀ p, p ∈ pats → Soup.attr_contains key [p] n = false.
Proof.
  unfold Soup.attr_contains. destruct (Soup.get key n) as [v|].
  2: { split; [done|]. done. }
  induction pats as [|p pats IH]; simpl.
  - split; [|done]. by intros _ p Hp%elem_of_nil.
  - rewrite orb_false_iff, IH. split.
    + intros [Hp Hall] p' [->|Hin]%elem_of_cons; [by rewrite Hp|by apply Hall].
    + intros Hall. split.
      * specialize (Hall p (list_elem_of_here _ _)). by rewrite orb_false_r in Hall.
      * intros p' Hp'. apply Hall. by right.
Qed.

(** the loop of [_clean_soup] over the patterns *)
Lemma clean_patterns pats soup :
  let cleaned :=
    foldl (λ soup pattern,
             Soup.prune (Soup.attr_contains "id" [pattern])
               (Soup.prune (Soup.attr_contains "class" [pattern]) soup))
          soup pats in
  (∀ p, p ∈ pats →
        Forall (λ c, Soup.attr_contains "class" [p] c = false) (below cleaned)
        ∧ Forall (λ c, Soup.attr_contains "id" [p] c = false) (below cleaned))
  ∧ (∀ q, shallow q →
          Forall (λ c, q c = false) (below soup) →
          Forall (λ c, q c = false) (below cleaned))
  ∧ ((∀ p, p ∈ pats →
           Forall (λ c, Soup.attr_contains "class" [p] c = false) (below soup)
           ∧ Forall (λ c, Soup.attr_contains "id" [p] c = false) (below soup)) →
     cleaned = soup).
Proof.
  cbv zeta. revert soup. induction pats as [|p pats IH]; intros soup; simpl.
  { split; [by intros p Hp%elem_of_nil|]. done. }
  destruct (IH (Soup.prune (Soup.attr_contains "id" [p])
                  (Soup.prune (Soup.attr_contains "class" [p]) soup)))
    as (Hpats & Hkeep & Hsame).
  split; [|split].
  - intros p' [->|Hin]%elem_of_cons; [|by apply Hpats].
    split; apply Hkeep; try apply shallow_attr_contains.
    + apply prune_keeps_clean; [apply shallow_attr_contains|].
      apply prune_clean, shallow_attr_contains.
    + apply prune_clean, shallow_attr_contains.
  - intros q Hq Hclean. apply Hkeep; [done|].
    by do 2 (apply prune_keeps_clean; [done|]).
  - intros Hall.
    destruct (Hall p (list_elem_of_here _ _)) as [Hc Hi].
    rewrite (prune_nothing _ soup Hc), (prune_nothing _ soup Hi) in *.
    apply Hsame. intros p' Hp'. apply Hall. by right.
Qed.

Lemma shallow_has_role : shallow has_role.
Proof. by intros t a cs cs'. Qed.

Lemma has_role_false n : has_role n = false ↔ Soup.get "role" n = None.
Proof. unfold has_role. by destruct (Soup.get "role" n). Qed.

Lemma roles_apart_elem t a cs :
  roles_apart (Elem t a cs)
  ↔ Forall (λ c, (noise_role c = true →
                  Forall (λ d, Soup.get "role" d = None) (below c))
                 ∧ roles_apart c) cs.
Proof. unfold roles_apart. apply Forall_below. Qed.

(** where no element has a role, the roles are apart *)
Lemma no_roles_apart n :
  Forall (λ d, Soup.get "role" d = None) (below n) → roles_apart n.
Proof.
  unfold roles_apart. intros Hnone. eapply Forall_impl; [exact Hnone|].
  simpl. intros d Hd Hnoise. unfold noise_role in Hnoise. by rewrite Hd in Hnoise.
Qed.

(** the role loop and the elements without a role *)
Lemma role_loop_no_roles dead n :
  Forall (λ d, Soup.get "role" d = None) (below n) → role_loop dead n = Ok tt.
Proof.
  induction n as [s|t a cs IH] using node_induction; [done|].
  rewrite Forall_below. intros Hall. simpl.
  induction IH as [|c cs Hc _ IHcs]; [done|].
  apply Forall_cons in Hall as [[Hrole Hbelow] Hall].
  rewrite Hrole, (Hc Hbelow). simpl. by apply IHcs.
Qed.

(** the role loop comes to its end on a page whose roles are apart *)
Lemma role_loop_apart n : roles_apart n → role_loop false n = Ok tt.
Proof.
  induction n as [s|t a cs IH] using node_induction; [done|].
  rewrite roles_apart_elem. intros Hall. simpl.
  induction IH as [|c cs Hc _ IHcs]; [done|].
  apply Forall_cons in Hall as [[Hnoise Hapart] Hall].
  unfold noise_role in Hnoise.
  destruct (Soup.get "role" c) as [role|].
  - case_bool_decide.
    + rewrite (role_loop_no_roles true c) by by apply Hnoise.
      simpl. by apply IHcs.
    + rewrite (Hc Hapart). simpl. by apply IHcs.
  - rewrite (Hc Hapart). simpl. by apply IHcs.
Qed.

(** and on no other page: below an element that the loop has decomposed it
    comes to its end only where no element has a role *)
Lemma role_loop_returns dead n :
  role_loop dead n = Ok tt →
  if dead then Forall (λ d, Soup.get "role" d = None) (below n)
  else roles_apart n.
Proof.
  revert dead.
  induction n as [s|t a cs IH] using node_induction; intros dead.
  { intros _. destruct dead; constructor. }
  intros Hrun.
  assert (Forall (λ c, if dead
                       then Soup.get "role" c = None
                            ∧ Forall (λ d, Soup.get "role" d = None) (below c)
                       else (noise_role c = true →
                             Forall (λ d, Soup.get "role" d = None) (below c))
                            ∧ roles_apart c) cs) as Hall.
  { simpl in Hrun.
    induction IH as [|c cs Hc _ IHcs]; [by constructor|].
    destruct (Soup.get "role" c) as [role|] eqn:Hrole.
    - destruct dead; [done|].
      destruct (role_loop (bool_decide (role ∈ noise_roles)) c) as [[]|] eqn:Hloop;
        [|done].
      simpl in Hrun. constructor; [|by apply IHcs].
      apply Hc in Hloop. unfold noise_role. rewrite Hrole.
      case_bool_decide as Hnoise.
      + split; [done|]. by apply no_roles_apart.
      + split; [done|exact Hloop].
    - destruct (role_loop dead c) as [[]|] eqn:Hloop; [|done].
      simpl in Hrun. constructor; [|by apply IHcs].
      apply Hc in Hloop. destruct dead; [done|].
      split; [|exact Hloop]. unfold noise_role. by rewrite Hrole. }
  destruct dead; [by apply Forall_below|by apply roles_apart_elem].
Qed.

Lemma role_loop_raises dead n e : role_loop dead n = Raise e → e = AttributeError.
Proof.
  revert dead.
  induction n as [s|t a cs IH] using node_induction; intros dead; [done|].
  simpl.
  induction IH as [|c cs Hc _ IHcs]; [done|].
  destruct (Soup.get "role" c) as [role|].
  - destruct dead; [by intros [= <-]|].
    destruct (role_loop (bool_decide (role ∈ noise_roles)) c) as [[]|e'] eqn:Hloop;
      simpl; [exact IHcs|].
    intros [= <-]. by eapply Hc.
  - destruct (role_loop dead c) as [[]|e'] eqn:Hloop; simpl; [exact IHcs|].
    intros [= <-]. by eapply Hc.
Qed.

(** the role loop comes to its end exactly when the roles are apart *)
Lemma role_loop_iff n : role_loop false n = Ok tt ↔ roles_apart n.
Proof.
  split; [apply (role_loop_returns false)|apply role_loop_apart].
Qed.

(** pruning keeps the roles apart *)
Lemma prune_roles_apart gone n : roles_apart n → roles_apart (Soup.prune gone n).
Proof.
  induction n as [s|t a cs IH] using node_induction; [done|].
  rewrite prune_elem, !roles_apart_elem.
  induction IH as [|c cs Hc _ IHcs]; [constructor|].
  intros [[Hnoise Hapart] Hrest]%Forall_cons.
  rewrite filter_cons. case_decide as Hgone; [|by apply IHcs].
  rewrite fmap_cons. constructor; [|by apply IHcs].
  split; [|by apply Hc].
  rewrite (prune_shallow noise_role) by apply shallow_noise_role.
  intros Hn. specialize (Hnoise Hn).
  assert (Forall (λ d, has_role d = false) (below (Soup.prune gone c))) as Hnone.
  { apply prune_keeps_clean; [apply shallow_has_role|].
    eapply Forall_impl; [exact Hnoise|]. intros d. apply has_role_false. }
  eapply Forall_impl; [exact Hnone|]. intros d. apply has_role_false.
Qed.

Lemma before_role_loop_apart soup :
  roles_apart soup → roles_apart (before_role_loop soup).
Proof.
  intros Hsoup. unfold before_role_loop.
  assert (roles_apart (Soup.prune (Soup.has_name noise_tags) soup)) as Hstart
    by by apply prune_roles_apart.
  revert Hstart. generalize (Soup.prune (Soup.has_name noise_tags) soup).
  induction noise_patterns as [|p pats IH]; intros n Hn; [done|].
  simpl. apply IH. by do 2 apply prune_roles_apart.
Qed.

(** [_clean_soup], case by case *)
Lemma clean_soup_unfold soup :
  _clean_soup soup
  = if returns (role_loop false (before_role_loop soup))
    then Ok (Soup.prune noise_role (before_role_loop soup))
    else Raise AttributeError.
Proof.
  change (_clean_soup soup)
    with (_ ← role_loop false (before_role_loop soup);
          Ok (Soup.prune noise_role (before_role_loop soup))).
  destruct (role_loop false (before_role_loop soup)) as [[]|e] eqn:Hloop;
    cbn [mbind result_bind returns]; [done|].
  by rewrite (role_loop_raises _ _ _ Hloop).
Qed.

Lemma clean_soup_below soup cleaned :
  _clean_soup soup = Ok cleaned → Forall (λ c, noise c = false) (below cleaned).
Proof.
  rewrite clean_soup_unfold.
  destruct (returns (role_loop false (before_role_loop soup))); [|done].
  intros Hrun. rewrite (Ok_inj _ _ Hrun). clear Hrun cleaned.
  unfold before_role_loop.
  set (s1 := Soup.prune (Soup.has_name noise_tags) soup).
  destruct (clean_patterns noise_patterns s1) as (Hpats & Hkeep & _).
  cbv zeta in *.
  set (s2 := foldl _ s1 noise_patterns) in *.
  assert (Forall (λ c, Soup.has_name noise_tags c = false)
            (below (Soup.prune noise_role s2))) as Htags.
  { apply prune_keeps_clean; [apply shallow_has_name|].
    apply Hkeep; [apply shallow_has_name|]. apply prune_clean, shallow_has_name. }
  assert (∀ p, p ∈ noise_patterns →
               Forall (λ c, Soup.attr_contains "class" [p] c = false)
                 (below (Soup.prune noise_role s2))
               ∧ Forall (λ c, Soup.attr_contains "id" [p] c = false)
                   (below (Soup.prune noise_role s2))) as Hattrs.
  { intros p Hp. destruct (Hpats p Hp).
    split; (apply prune_keeps_clean; [apply shallow_attr_contains|done]). }
  pose proof (prune_clean noise_role s2 shallow_noise_role) as Hrole.
  rewrite Forall_forall in *. intros c Hc. unfold noise.
  rewrite (Htags c Hc), (Hrole c Hc), !orb_false_r. simpl.
  apply orb_false_iff. split; apply attr_contains_any; intros p Hp;
    destruct (Hattrs p Hp) as [H1 H2]; rewrite Forall_forall in H1, H2; auto.
Qed.

Lemma noise_false c :
  noise c = false
  ↔ Soup.has_name noise_tags c = false
    ∧ Soup.attr_contains "class" noise_patterns c = false
    ∧ Soup.attr_contains "id" noise_patterns c = false
    ∧ noise_role c = false.
Proof. unfold noise. rewrite !orb_false_iff. tauto. Qed.

(** a page without noise is left as it is *)
Lemma clean_soup_clean soup :
  Forall (λ c, noise c = false) (below soup) → _clean_soup soup = Ok soup.
Proof.
  intros Hclean.
  assert (∀ q, (∀ n, noise n = false → q n = false) →
               Forall (λ n, q n = false) (below soup)) as Hq.
  { intros q Himp. eapply Forall_impl; [exact Hclean|]. done. }
  assert (before_role_loop soup = soup) as Hsame.
  { unfold before_role_loop.
    rewrite (prune_nothing (Soup.has_name noise_tags) soup).
    2: { apply Hq. by intros n (? & _)%noise_false. }
    destruct (clean_patterns noise_patterns soup) as (_ & _ & Hsame).
    cbv zeta in Hsame. apply Hsame.
    intros p Hp. split; apply Hq; intros n (_ & Hc & Hi & _)%noise_false.
    - by apply (proj1 (attr_contains_any "class" noise_patterns n) Hc).
    - by apply (proj1 (attr_contains_any "id" noise_patterns n) Hi). }
  rewrite clean_soup_unfold, Hsame.
  rewrite (role_loop_apart soup).
  - simpl. f_equal. apply (prune_nothing noise_role soup).
    apply Hq. by intros n (_ & _ & _ & ?)%noise_false.
  - unfold roles_apart.
    eapply Forall_impl; [exact Hclean|]. simpl.
    intros n (_ & _ & _ & Hrole)%noise_false Hn. congruence.
Qed.

(** X12. [_clean_soup] returns exactly when, as its role loop begins, no
    element with a [role] lies below an element with one of the removed
    roles, which is so when it is so of the page as given; what it raises
    otherwise is [AttributeError].  When it returns, no element of the page
    is noise: nowhere below the root is there an element with one of the
    removed tags (script, style, nav, footer, header, ...), with a class or
    an id that contains one of the noise patterns, letter case apart, or
    with one of the removed roles; so a search of the cleaned page for the
    removed tags finds nothing.  Cleaning a cleaned page changes nothing. *)
Theorem clean_soup_leaves_no_noise (soup : node) :
  (returns (_clean_soup soup) = true ↔ roles_apart (before_role_loop soup))
  ∧ (roles_apart soup → returns (_clean_soup soup) = true)
  ∧ (∀ e, _clean_soup soup = Raise e → e = AttributeError)
  ∧ (∀ cleaned,
       _clean_soup soup = Ok cleaned →
       Forall (λ l, noise (here l) = false) (Soup.descendants cleaned)
       ∧ Soup.find_all noise_tags None cleaned = []
       ∧ _clean_soup cleaned = Ok cleaned).
Proof.
  assert (returns (_clean_soup soup) = true ↔ roles_apart (before_role_loop soup))
    as Hiff.
  { rewrite clean_soup_unfold, <- role_loop_iff.
    destruct (role_loop false (before_role_loop soup)) as [[]|e];
      cbn [returns]; by split. }
  split; [exact Hiff|]. split; [|split].
  - intros Hroles. by apply Hiff, before_role_loop_apart.
  - rewrite clean_soup_unfold.
    destruct (returns (role_loop false (before_role_loop soup))); [done|].
    by intros e [= <-].
  - intros cleaned Hrun.
    pose proof (clean_soup_below soup cleaned Hrun) as Hclean.
    assert (Forall (λ l, noise (here l) = false) (Soup.descendants cleaned))
      as Hdesc.
    { rewrite <- descendants_below in Hclean. by apply Forall_fmap in Hclean. }
    split; [done|]. split; [|by apply clean_soup_clean].
    unfold Soup.find_all, Soup.find_all_with.
    apply elem_of_nil_inv. intros l [Hl Hin]%list_elem_of_filter.
    rewrite Forall_forall in Hdesc. specialize (Hdesc l Hin).
    apply noise_false in Hdesc as [Htag _]. congruence.
Qed.

Lemma clean_soup_leaves_no_noise_witness :
  roles_apart noisy_page
  ∧ _clean_soup noisy_page
    = Ok (Elem "[document]" []
            [ Elem "html" []
                [ Elem "head" [] [];
                  Elem "body" []
                    [ Elem "article" [("class", "post")]
                        [ Elem "h2" [] [ Text "Version two released" ];
                          Elem "p" [] [ Text "Faster sync and a new editor" ] ] ] ] ])
  ∧ Soup.find_all noise_tags None
      (Elem "[document]" []
        [ Elem "html" []
            [ Elem "head" [] [];
              Elem "body" []
                [ Elem "article" [("class", "post")]
                    [ Elem "h2" [] [ Text "Version two released" ];
                      Elem "p" [] [ Text "Faster sync and a new editor" ] ] ] ] ])
    = [].
Proof.
  assert (roles_apart noisy_page) as Hroles.
  { unfold roles_apart. apply (bool_decide_unpack _). by vm_compute. }
  split; [done|].
  assert (_clean_soup noisy_page
          = Ok (Elem "[document]" []
                  [ Elem "html" []
                      [ Elem "head" [] [];
                        Elem "body" []
                          [ Elem "article" [("class", "post")]
                              [ Elem "h2" [] [ Text "Version two released" ];
                                Elem "p" [] [ Text "Faster sync and a new editor" ] ] ] ] ]))
    as Hpage by by vm_compute.
  split; [exact Hpage|].
  destruct (clean_soup_leaves_no_noise noisy_page) as (_ & _ & _ & Hclean).
  exact (proj1 (proj2 (Hclean _ Hpage))).
Defined.

(** on a page whose navigation block holds a link with a role of its own,
    the role loop asks a decomposed tag for its role: [_clean_soup] raises,
    and the page extractor, which catches that, returns nothing, article or
    not *)
Example clean_soup_nested_roles :
  _clean_soup nested_roles_page = Raise AttributeError
  ∧ extract_from_website nested_roles_env "https://acme.example/news" = Ok [].
Proof. split; by vm_compute. Qed.

(* ===================================================================== *)
(** * The updates of one page *)
(* ===================================================================== *)

Lemma append_unless_titled_distinct updates update :
  distinct_titles updates → distinct_titles (append_unless_titled updates update).
Proof.
  unfold distinct_titles, append_unless_titled. intros Hd.
  destruct update as [u|]; [|done].
  destruct (existsb _ updates) eqn:Hex; [done|].
  rewrite fmap_app. apply NoDup_app. split; [done|]. split; [|apply NoDup_singleton].
  intros t (v & -> & Hv)%list_elem_of_fmap [Heq|[]%elem_of_nil]%elem_of_cons.
  assert (existsb (λ v, bool_decide (title v = title u)) updates = true) as Hyes.
  { apply existsb_exists. exists v. split; [by apply list_elem_of_In|].
    by apply bool_decide_eq_true. }
  congruence.
Qed.

Lemma foldl_preserves {A B} (P : B → Prop) (step : B → A → B) (l : list A) init :
  (∀ b x, P b → P (step b x)) → P init → P (foldl step init l).
Proof.
  intros Hstep. revert init.
  induction l as [|x l IH]; intros init Hinit; simpl; [done|].
  by apply IH, Hstep.
Qed.

Lemma distinct_titles_take n updates :
  distinct_titles updates → distinct_titles (take n updates).
Proof.
  unfold distinct_titles. intros Hd.
  eapply sublist_NoDup; [done|]. apply fmap_sublist, sublist_take.
Qed.

Lemma _extract_structured_content_distinct env soup url :
  distinct_titles (_extract_structured_content env soup url).
Proof.
  unfold _extract_structured_content.
  apply distinct_titles_take.
  repeat case_bool_decide;
    repeat (apply foldl_preserves;
            [intros; repeat (apply foldl_preserves; [intros|done]);
             by apply append_unless_titled_distinct|]);
    apply NoDup_nil_2.
Qed.

Lemma _aggressive_extraction_distinct env soup url :
  distinct_titles (_aggressive_extraction env soup url).
Proof.
  unfold _aggressive_extraction.
  apply distinct_titles_take.
  repeat case_bool_decide;
    repeat (apply foldl_preserves;
            [intros updates x Hd; repeat case_match; try done;
             by apply append_unless_titled_distinct|]);
    apply NoDup_nil_2.
Qed.

(** X13. The updates of one page: whatever the page and whichever tier
    produced them, no two updates that [extract_from_website] returns share
    a title, there are at most 20 of them, and every title has at most 250
    characters; the same holds of the two passes on their own, the second
    of which returns at most 15 updates, none with an empty title. *)
Theorem page_updates_distinct (env : Env) (url : string) :
  (∀ updates,
     extract_from_website env url = Ok updates →
     distinct_titles updates
     ∧ (length updates ≤ 20)%nat
     ∧ Forall short_title updates)
  ∧ (∀ soup,
       distinct_titles (_extract_structured_content env soup url)
       ∧ (length (_extract_structured_content env soup url) ≤ 20)%nat)
  ∧ (∀ soup,
       distinct_titles (_aggressive_extraction env soup url)
       ∧ (length (_aggressive_extraction env soup url) ≤ 15)%nat
       ∧ Forall titled (_aggressive_extraction env soup url)).
Proof.
  split; [|split].
  - intros updates Hrun.
    split; [|split; [by eapply extract_from_website_length
                    |by eapply extract_from_website_titles]].
    apply extract_from_website_ok in Hrun
      as [->|(response & soup & cleaned & _ & _ & _ & ->)]; [apply NoDup_nil_2|].
    pose proof (_extract_structured_content_distinct env cleaned url) as H1.
    pose proof (_aggressive_extraction_distinct env cleaned url) as H2.
    by destruct (_extract_structured_content env cleaned url).
  - intros soup. split; [apply _extract_structured_content_distinct|].
    unfold _extract_structured_content. rewrite length_take. lia.
  - intros soup. split; [apply _aggressive_extraction_distinct|].
    split; [|apply _aggressive_extraction_titled].
    unfold _aggressive_extraction. rewrite length_take. lia.
Qed.

(* ===================================================================== *)
(** * The updates of one feed *)
(* ===================================================================== *)

Lemma mapM_Forall2 {A B} (f : A → result B) (l : list A) (r : list B) :
  mapM f l = Ok r → Forall2 (λ x y, f x = Ok y) l r.
Proof.
  revert r. induction l as [|x l IH]; intros r; simpl.
  { intros [= <-]. constructor. }
  destruct (f x) as [y|] eqn:Hx; simpl; [|done].
  destruct (mapM f l) as [ys|]; simpl; [|done].
  intros [= <-]. constructor; [done|by apply IH].
Qed.

Lemma rss_entry_shape env feed_url entry u :
  rss_entry env feed_url entry = Ok u →
  title u = default "Untitled" (e_title entry)
  ∧ url u = default feed_url (e_link entry)
  ∧ date u = e_published entry
  ∧ source_type u = RSS
  ∧ detected_at u = now env
  ∧ update_impact u = "Medium"
  ∧ ((PyStr.len (content u) ≤ 800)%nat ∨ content u = title u).
Proof.
  unfold rss_entry.
  destruct (if PyStr.is_empty _ then _ else _) as [summary|]; simpl; [|done].
  intros [= <-]. unfold new_update, get_or. simpl. repeat split.
  destruct (PyStr.is_empty summary); [by right|left; apply slice_to_len_le].
Qed.

(** X14. The feed extractor gives all or nothing: [extract_from_rss]
    always returns, and what it returns is either the empty list or one
    update for each of the first 10 entries of the feed, in the order of
    the feed; so one entry whose summary the HTML parser rejects loses the
    whole feed.  Each update has the title of its entry ("Untitled" when
    there is none), the link of its entry (the address of the feed when
    there is none), the source type "rss", and a content of at most 800
    characters or equal to the title. *)
Theorem extract_from_rss_all_or_nothing (env : Env) (feed_url : string) :
  ∃ updates,
    extract_from_rss env feed_url = Ok updates
    ∧ (updates = []
       ∨ ∃ entries,
           feedparser_parse env feed_url = Ok entries
           ∧ length updates = (10 `min` length entries)%nat
           ∧ Forall2 (λ entry u, rss_entry env feed_url entry = Ok u)
               (take 10 entries) updates)
    ∧ Forall (λ u, ∃ entry,
                rss_entry env feed_url entry = Ok u
                ∧ title u = default "Untitled" (e_title entry)
                ∧ url u = default feed_url (e_link entry)
                ∧ source_type u = RSS
                ∧ ((PyStr.len (content u) ≤ 800)%nat ∨ content u = title u))
        updates.
Proof.
  unfold extract_from_rss.
  destruct (feedparser_parse env feed_url) as [entries|e];
    cbn [mbind result_bind try_except].
  2: { exists []. split; [done|]. split; [by left|constructor]. }
  destruct entries as [|e0 es].
  { exists []. split; [done|]. split; [by left|constructor]. }
  destruct (mapM (rss_entry env feed_url) (take 10 (e0 :: es))) as [r|e] eqn:Hm;
    cbn [try_except].
  2: { exists []. split; [done|]. split; [by left|constructor]. }
  exists r. split; [done|].
  pose proof (mapM_Forall2 _ _ _ Hm) as Hall.
  split.
  - right. exists (e0 :: es). split; [done|]. split; [|done].
    apply mapM_result_length in Hm. by rewrite Hm, length_take.
  - clear Hm. induction Hall as [|entry u entries updates Hu _ IH]; constructor; [|done].
    exists entry. split; [done|].
    destruct (rss_entry_shape _ _ _ _ Hu) as (? & ? & _ & ? & _ & _ & ?). done.
Qed.

(* ===================================================================== *)
(** * The shape of a fingerprint *)
(* ===================================================================== *)

Lemma le_bytes_length n x : length (Md5.le_bytes n x) = n.
Proof. revert x. induction n as [|n IH]; intros x; simpl; [done|]. by rewrite IH. Qed.

Lemma le_bytes_range n x : Forall (λ b, 0 ≤ b < 256)%Z (Md5.le_bytes n x).
Proof.
  revert x. induction n as [|n IH]; intros x; simpl; constructor; [|done].
  apply Z.mod_pos_bound. lia.
Qed.

Lemma digest_shape msg :
  length (Md5.digest msg) = 16%nat ∧ Forall (λ b, 0 ≤ b < 256)%Z (Md5.digest msg).
Proof.
  unfold Md5.digest. destruct (Md5.blocks _ _ _) as [a b c d].
  split.
  - by rewrite !length_app, !le_bytes_length.
  - rewrite !Forall_app. repeat split; apply le_bytes_range.
Qed.

Lemma hex_digit_shape n : (0 ≤ n < 16)%Z → is_hex_digit (Md5.hex_digit n) = true.
Proof.
  intros Hn.
  assert (n ∈ seqZ 0 16) as Hin by (apply elem_of_seqZ; lia).
  vm_compute in Hin.
  repeat (apply elem_of_cons in Hin as [->|Hin]; [reflexivity|]).
  by apply elem_of_nil in Hin.
Qed.

Lemma hex_shape bs :
  Forall (λ b, 0 ≤ b < 256)%Z bs →
  String.length (Md5.hex bs) = (2 * length bs)%nat
  ∧ Forall (λ c, is_hex_digit c = true) (PyStr.to_list (Md5.hex bs)).
Proof.
  induction 1 as [|b bs Hb _ [IH1 IH2]]; [by split; [|constructor]|].
  cbn [Md5.hex String.length length]. split; [rewrite IH1; lia|].
  unfold PyStr.to_list in *. cbn [String.list_ascii_of_string].
  constructor; [|constructor; [|done]]; apply hex_digit_shape.
  - split; [apply Z.div_pos; lia|]. apply Z.div_lt_upper_bound; lia.
  - apply Z.mod_pos_bound. lia.
Qed.

(** X15. A fingerprint, the string the cache stores for an update, is
    always 32 characters long, each a digit or one of the letters a to f;
    so it is never empty, whatever the title and the content. *)
Theorem fingerprint_shape (u : Update) :
  PyStr.len (fingerprint u) = 32%nat
  ∧ Forall (λ c, is_hex_digit c = true) (PyStr.to_list (fingerprint u))
  ∧ fingerprint u ≠ "".
Proof.
  unfold fingerprint, Md5.hexdigest.
  destruct (digest_shape (PyStr.encode (title u +:+ PyStr.slice_to 100 (content u))))
    as [Hlen Hrange].
  destruct (hex_shape _ Hrange) as [H1 H2].
  assert (PyStr.len (Md5.hex (Md5.digest
            (PyStr.encode (title u +:+ PyStr.slice_to 100 (content u))))) = 32%nat)
    as H32 by (unfold PyStr.len; rewrite H1, Hlen; done).
  split; [done|]. split; [done|].
  intros Hempty. rewrite Hempty in H32. done.
Qed.

(* ===================================================================== *)
(** * The configuration file *)
(* ===================================================================== *)

Lemma at_least_one (x : option Z) :
  match x with Some h => (h <? 1)%Z | None => false end = false
  ↔ ∀ h, x = Some h → (1 ≤ h)%Z.
Proof.
  destruct x as [h|]; [|by split].
  destruct (Z.ltb_spec h 1); split; try done.
  - intros H'. specialize (H' h eq_refl). lia.
  - intros _ ? [= <-]. lia.
Qed.

Lemma one_of {A} `{EqDecision A} (x : option A) (allowed : list A) :
  match x with Some f => bool_decide (f ∉ allowed) | None => false end = false
  ↔ ∀ f, x = Some f → f ∈ allowed.
Proof.
  destruct x as [f|]; [|by split].
  rewrite bool_decide_eq_false. split.
  - intros Hf ? [= <-]. by apply dec_stable.
  - intros Hf Hnot. by apply Hnot, Hf.
Qed.

(** X16. [configure_monitoring] saves exactly when the interval, the
    report format and the number of updates it is given pass their checks
    (at least 1 hour, one of the three formats, at least 1 update); when one
    of them fails nothing is saved, also none of the other settings given in
    the same call.  It never touches the delay between checks, the minimum
    impact level, the SMTP server or its port, and it leaves a well-formed
    configuration well-formed. *)
Theorem configure_monitoring_effect
    (interval : option Z) (scheduling : option bool)
    (mail user pass format : option string)
    (critical high export : option bool) (most : option Z)
    (config : Stored.MonitoringConfig) :
  let out := configure_monitoring interval scheduling mail user pass format
               critical high export most config in
  (fst out = Saved
   ↔ (∀ h, interval = Some h → (1 ≤ h)%Z)
     ∧ (∀ f, format = Some f → f ∈ ["brief"; "summary"; "detailed"])
     ∧ (∀ m, most = Some m → (1 ≤ m)%Z))
  ∧ (fst out ≠ Saved → snd out = config)
  ∧ Stored.rate_limit_seconds (snd out) = Stored.rate_limit_seconds config
  ∧ Stored.min_impact_level (snd out) = Stored.min_impact_level config
  ∧ Stored.smtp_server (snd out) = Stored.smtp_server config
  ∧ Stored.smtp_port (snd out) = Stored.smtp_port config
  ∧ (fst out = Saved →
     (∀ m, mail = Some m → Stored.notification_email (snd out) = Some m)
     ∧ (mail = None →
        Stored.notification_email (snd out) = Stored.notification_email config)
     ∧ (∀ m, most = Some m → Stored.max_updates_per_competitor (snd out) = m))
  ∧ (well_formed config → well_formed (snd out)).
Proof.
  cbv zeta. unfold configure_monitoring.
  rewrite <- (at_least_one interval), <- (at_least_one most),
    <- (one_of format ["brief"; "summary"; "detailed"]).
  destruct (match interval with Some h => (h <? 1)%Z | None => false end) eqn:Hi;
    [|destruct (match format with
                | Some f => bool_decide (f ∉ ["brief"; "summary"; "detailed"])
                | None => false
                end) eqn:Hf;
      [|destruct (match most with Some m => (m <? 1)%Z | None => false end) eqn:Hm]];
    cbn [fst snd].
  1-3: split; [split; [done|by intros (? & ? & ?)]|];
       split; [done|]; repeat (split; [done|]); done.
  split; [done|]. split; [done|]. repeat (split; [done|]).
  split.
  { intros _. split; [by intros m ->|]. split; [by intros ->|by intros m ->]. }
  intros (H1 & H2 & H3 & H4). unfold well_formed, updated. cbn.
  split; [|split; [|split; [|done]]].
  - destruct interval as [h|]; [|done]. by apply (proj1 (at_least_one (Some h)) Hi).
  - destruct most as [m|]; [|done]. by apply (proj1 (at_least_one (Some m)) Hm).
  - destruct format as [f|]; [|done]. by apply (proj1 (one_of (Some f) _) Hf).
Qed.

Lemma defaults_well_formed : well_formed Stored.defaults.
Proof.
  unfold well_formed. simpl. repeat split; try lia.
  - do 2 right. left.
  - do 2 right. left.
Qed.

(** X17. [configure_email_notifications] saves unless it is given a port
    other than 25, 465, 587 or 2525, and then saves nothing.  It never
    touches the check interval, the number of updates per competitor, the
    report format or the delay between checks, and it leaves a well-formed
    configuration well-formed; the configuration [MonitoringConfig()]
    starts from is well-formed. *)
Theorem configure_email_notifications_effect
    (email user pass server : option string) (port : option Z)
    (critical high : option bool) (config : Stored.MonitoringConfig) :
  let out := configure_email_notifications email user pass server port
               critical high config in
  (fst out = Saved ↔ ∀ p, port = Some p → p ∈ [25; 465; 587; 2525]%Z)
  ∧ (fst out ≠ Saved → fst out = InvalidPort ∧ snd out = config)
  ∧ Stored.check_interval_hours (snd out) = Stored.check_interval_hours config
  ∧ Stored.max_updates_per_competitor (snd out)
    = Stored.max_updates_per_competitor config
  ∧ Stored.digest_format (snd out) = Stored.digest_format config
  ∧ Stored.rate_limit_seconds (snd out) = Stored.rate_limit_seconds config
  ∧ (well_formed config → well_formed (snd out))
  ∧ well_formed Stored.defaults.
Proof.
  cbv zeta. unfold configure_email_notifications.
  pose proof defaults_well_formed as Hdefaults.
  destruct port as [p|]; [case_bool_decide as Hp|]; cbn [fst snd].
  - split; [split; [done|intros H; by specialize (H p eq_refl)]|].
    split; [done|]. do 4 (split; [done|]). split; [done|exact Hdefaults].
  - split; [split; [by intros _ ? [= <-]|done]|].
    split; [done|]. do 4 (split; [done|]). split; [|exact Hdefaults].
    intros (H1 & H2 & H3 & H4). unfold well_formed, updated; cbn.
    done.
  - split; [split; [by intros _ ? [=]|done]|].
    split; [done|]. do 4 (split; [done|]). split; [|exact Hdefaults].
    intros (H1 & H2 & H3 & H4). unfold well_formed, updated; cbn. done.
Qed.

(** X18. With a well-formed configuration, as the two tools keep it, an
    engine that loads it reports in every finding at least one update and
    at most [max_updates_per_competitor] of them. *)
Theorem configured_finding_size (env : Env) (stored : Stored.MonitoringConfig)
    (w : World) (competitor : CompetitorConfig) (finding : Finding) :
  well_formed stored →
  fst (monitor_competitor env (engine_world stored w) competitor)
  = Ok (Some finding) →
  (1 ≤ length (f_updates finding)
   ≤ Z.to_nat (Stored.max_updates_per_competitor stored))%nat.
Proof.
  intros (_ & Hmax & _) Hrun.
  destruct (monitor_competitor env (engine_world stored w) competitor)
    as [outcome w1] eqn:Hmon.
  simpl in Hrun. subst outcome.
  pose proof (monitor_competitor_finding _ _ _ _ _ Hmon)
    as (_ & Hnew & _ & Hupd & _).
  cbn [engine_world config engine_config max_updates_per_competitor cache] in *.
  rewrite slice_0_take, clamp_nonneg in Hupd by lia.
  rewrite Hupd, length_take.
  destruct (_filter_new_updates (cache w) (name competitor)
              (gather_updates env competitor)) as [|n0 ns]; [done|].
  cbn [length]. lia.
Qed.

Lemma configured_finding_size_witness :
  well_formed Stored.defaults
  ∧ ∃ finding,
      fst (monitor_competitor demo_env (engine_world Stored.defaults demo_world) acme)
      = Ok (Some finding)
      ∧ (1 ≤ length (f_updates finding) ≤ 5)%nat.
Proof.
  pose proof defaults_well_formed as Hwf.
  split; [exact Hwf|].
  destruct (monitor_competitor demo_env (engine_world Stored.defaults demo_world) acme)
    as [outcome w1] eqn:Hrun.
  vm_compute in Hrun. injection Hrun as Hout _. symmetry in Hout.
  match type of Hout with outcome = Ok (Some ?f) => exists f end.
  split; [by rewrite Hout|]. subst outcome.
  eapply (configured_finding_size demo_env Stored.defaults demo_world acme);
    [exact Hwf|by vm_compute].
Defined.

(* ===================================================================== *)
(** * Listing by priority *)
(* ===================================================================== *)

Lemma by_priority_loop (cs : list CompetitorConfig)
    (groups : gmap string (list CompetitorConfig)) :
  (∀ p, is_Some (groups !! p) ↔ p ∈ ["High"; "Medium"; "Low"]) →
  match foldM (λ groups comp,
                 match groups !! priority comp with
                 | Some group => Ok (<[priority comp := group ++ [comp]]> groups)
                 | None => Raise KeyError
                 end) cs groups with
  | Ok groups' =>
      (∀ c, c ∈ cs → priority c ∈ ["High"; "Medium"; "Low"])
      ∧ ∀ p, groups' !! p
             = (λ group, group ++ filter (λ c, priority c = p) cs) <$> groups !! p
  | Raise e =>
      e = KeyError ∧ ∃ c, c ∈ cs ∧ priority c ∉ ["High"; "Medium"; "Low"]
  end.
Proof.
  revert groups. induction cs as [|c cs IH]; intros groups Hkeys; simpl.
  { split; [by intros c Hc%elem_of_nil|]. intros p.
    destruct (groups !! p); simpl; [|done]. by rewrite app_nil_r. }
  destruct (groups !! priority c) as [group|] eqn:Hgroup; simpl.
  - assert (priority c ∈ ["High"; "Medium"; "Low"]) as Hc
      by (apply Hkeys; by eexists).
    specialize (IH (<[priority c := group ++ [c]]> groups)).
    destruct (foldM _ cs _) as [groups'|e].
    + destruct IH as [Hall Hgroups].
      { intros p. rewrite lookup_insert. case_decide as Hp; [|apply Hkeys].
        subst p. split; [done|by eexists]. }
      split; [intros c' [->|Hin]%elem_of_cons; [done|by apply Hall]|].
      intros p. rewrite Hgroups, lookup_insert, filter_cons.
      case_decide as Hp.
      * subst p. rewrite Hgroup. simpl. by rewrite <- app_assoc.
      * done.
    + destruct IH as [-> (c' & Hin & Hbad)].
      { intros p. rewrite lookup_insert. case_decide as Hp; [|apply Hkeys].
        subst p. split; [done|by eexists]. }
      split; [done|]. exists c'. split; [by right|done].
  - split; [done|]. exists c. split; [by left|].
    intros Hc. apply Hkeys in Hc as [? ?]. congruence.
Qed.

Lemma initial_groups p :
  ({[ "High" := []; "Medium" := []; "Low" := [] ]}
     : gmap string (list CompetitorConfig)) !! p
  = if bool_decide (p ∈ ["High"; "Medium"; "Low"]) then Some [] else None.
Proof.
  destruct (decide (p = "High")) as [->|?];
    [|destruct (decide (p = "Medium")) as [->|?];
      [|destruct (decide (p = "Low")) as [->|?]]].
  1-3: done.
  rewrite !lookup_insert_ne, lookup_singleton_ne by done.
  rewrite bool_decide_eq_false_2; [done|].
  rewrite !elem_of_cons, elem_of_nil. tauto.
Qed.

(** X19. The grouping loop of [list_competitors] raises [KeyError]
    exactly when a competitor it lists has a priority other than "High",
    "Medium" and "Low" (a priority that [add_competitor] accepts, as it
    accepts any); otherwise each of the three groups holds the competitors
    of that priority, in the order of the list. *)
Theorem by_priority_groups (cs : list CompetitorConfig) :
  (returns (by_priority cs) = true
   ↔ ∀ c, c ∈ cs → priority c ∈ ["High"; "Medium"; "Low"])
  ∧ (∀ e, by_priority cs = Raise e → e = KeyError)
  ∧ (∀ groups p,
       by_priority cs = Ok groups →
       p ∈ ["High"; "Medium"; "Low"] →
       groups !! p = Some (filter (λ c, priority c = p) cs)).
Proof.
  unfold by_priority.
  pose proof (by_priority_loop cs {[ "High" := []; "Medium" := []; "Low" := [] ]})
    as Hloop.
  assert (∀ p, is_Some (({[ "High" := []; "Medium" := []; "Low" := [] ]}
                          : gmap string (list CompetitorConfig)) !! p)
               ↔ p ∈ ["High"; "Medium"; "Low"]) as Hkeys.
  { intros p. rewrite initial_groups.
    case_bool_decide; split; try done; by intros [? ?]. }
  specialize (Hloop Hkeys).
  destruct (foldM _ cs _) as [groups|e]; simpl.
  - destruct Hloop as [Hall Hgroups].
    split; [done|]. split; [done|].
    intros groups' p [= <-] Hp. rewrite Hgroups, initial_groups.
    by rewrite bool_decide_eq_true_2.
  - destruct Hloop as [-> (c & Hin & Hbad)].
    split; [|split; [by intros e [= <-]|done]].
    split; [done|]. intros Hall. destruct Hbad. by apply Hall.
Qed.

(* ===================================================================== *)
(** * Starting over *)
(* ===================================================================== *)

Lemma filter_new_empty who updates : _filter_new_updates ∅ who updates = updates.
Proof.
  unfold _filter_new_updates, cached. rewrite lookup_empty. simpl.
  apply filter_all. intros u _. set_solver.
Qed.

(** X20. [reset_cache] without confirmation changes nothing.  With it,
    it reports how many entries the cache held and leaves the cache empty,
    so that every candidate of every competitor is new again: the next
    check of an enabled competitor with candidates reports the first
    [max_updates_per_competitor] of all it gathers, unless the trend store
    raises. *)
Theorem reset_cache_effect (env : Env) (w : World) (competitor : CompetitorConfig) :
  reset_cache false (cache w) = (ResetUnconfirmed, cache w)
  ∧ fst (reset_cache true (cache w)) = Cleared (size (cache w))
  ∧ (∀ who updates,
       _filter_new_updates (snd (reset_cache true (cache w))) who updates = updates)
  ∧ (let w' := set_cache w (snd (reset_cache true (cache w))) in
     enabled competitor = true →
     gather_updates env competitor ≠ [] →
     (∃ e, monitor_competitor env w' competitor = (Raise e, w'))
     ∨ ∃ finding w1,
         monitor_competitor env w' competitor = (Ok (Some finding), w1)
         ∧ f_updates finding
           = slice 0 (max_updates_per_competitor (config w))
               (gather_updates env competitor)).
Proof.
  split; [done|]. split; [done|]. split; [intros; apply filter_new_empty|].
  cbv zeta. cbn [reset_cache negb snd]. intros Hen Hsome.
  set (w' := set_cache w ∅).
  assert (_filter_new_updates (cache w') (name competitor)
            (gather_updates env competitor) = gather_updates env competitor) as Hall
    by apply filter_new_empty.
  destruct (monitor_competitor_new env w' competitor Hen) as (a & Ha & Hok & Hraise).
  { by rewrite Hall. }
  destruct (record_finding (now env) (trends w') (name competitor) a) as [t|e] eqn:Hr.
  - right. destruct (Hok eq_refl) as (finding & w1 & Hrun & _).
    exists finding, w1. split; [done|].
    apply monitor_competitor_finding in Hrun as (_ & _ & _ & Hupd & _).
    by rewrite Hupd, Hall.
  - left. exists e. by apply Hraise.
Qed.

(* ===================================================================== *)
(** * The rule-based analysis *)
(* ===================================================================== *)

(** X21. The rule-based analysis reads the first five updates and no
    more: updates beyond the fifth never change it.  Its impact is one of
    the four levels, its threat level is never Critical and never above its
    impact, its key features are the titles of those five updates, and it
    is about the competitor it was asked about. *)
Theorem basic_analysis_shape (who category : string) (updates : list Update) :
  let analysis := _basic_analysis who category updates in
  analysis = _basic_analysis who category (take 5 updates)
  ∧ impact analysis ∈ ["Critical"; "High"; "Medium"; "Low"]
  ∧ threat_level analysis ∈ ["High"; "Medium"; "Low"]
  ∧ (impact_scores (threat_level analysis) ≤ impact_scores (impact analysis))%Z
  ∧ key_features analysis = title <$> take 5 updates
  ∧ competitor_name analysis = who.
Proof.
  cbv zeta. split.
  { destruct updates as [|u updates]; [done|].
    unfold _basic_analysis. cbn [take]. rewrite !take_take. done. }
  unfold _basic_analysis. destruct updates as [|u updates].
  { cbn. repeat split; try done; set_solver. }
  set (text := PyStr.lower _).
  destruct (any_in critical_keywords text);
    [|destruct (any_in high_keywords text);
      [|destruct (any_in medium_keywords text);
        [|destruct (any_in low_keywords text)]]];
    cbn [impact threat_level key_features competitor_name value];
    (split; [set_solver|]); (split; [set_solver|]); (split; [by vm_compute|]);
    (split; [|done]);
    rewrite <- fmap_take, take_take; done.
Qed.

(* ===================================================================== *)
(** * A check stores every candidate it gathers *)
(* ===================================================================== *)

(** X22. A check never gathers more candidates than the cache keeps:
    when the search fallback returns at most 20 updates (it builds at most
    4), the feed, the page and the fallback together give at most 22
    candidates, fewer than the 100 fingerprints a commit stores; so right
    after the commit of a check none of its candidates is new, and a
    finding is followed by no finding while the sources stay as they are. *)
Theorem check_stores_all_it_gathers (env : Env) (w : World)
    (competitor : CompetitorConfig) :
  (length (_search_for_updates env competitor) ≤ 20)%nat →
  (length (gather_updates env competitor) ≤ 22)%nat
  ∧ cached (_update_cache (cache w) (name competitor) (gather_updates env competitor))
      (name competitor)
    = fingerprint <$> gather_updates env competitor
  ∧ _filter_new_updates
      (_update_cache (cache w) (name competitor) (gather_updates env competitor))
      (name competitor) (gather_updates env competitor) = []
  ∧ ∀ finding w1,
      monitor_competitor env w competitor = (Ok (Some finding), w1) →
      ∃ w2, monitor_competitor env w1 competitor = (Ok None, w2)
            ∧ cache w2 = cache w1 ∧ trends w2 = trends w1.
Proof.
  intros Hsearch.
  pose proof (gather_updates_length env competitor Hsearch) as Hlen.
  split; [done|]. split.
  { rewrite cached_update_cache. apply take_ge. rewrite length_fmap. lia. }
  split; [apply filter_after_commit; lia|].
  intros finding w1 Hrun.
  apply monitor_competitor_finding in Hrun as (Hen & _ & Hcache & _).
  destruct (monitor_competitor_all_seen env w1 competitor Hen) as (w2 & Hw2 & ? & ? & _).
  { rewrite Hcache. apply filter_after_commit. lia. }
  by exists w2.
Qed.

Lemma check_stores_all_it_gathers_witness :
  (length (_search_for_updates demo_env acme) ≤ 20)%nat
  ∧ _filter_new_updates
      (_update_cache (cache demo_world) (name acme) (gather_updates demo_env acme))
      (name acme) (gather_updates demo_env acme) = [].
Proof.
  assert (length (_search_for_updates demo_env acme) ≤ 20)%nat as Hsearch
    by (simpl; lia).
  split; [exact Hsearch|].
  exact (proj1 (proj2 (proj2
           (check_stores_all_it_gathers demo_env demo_world acme Hsearch)))).
Defined.

(* ===================================================================== *)
(** * The findings of a batch *)
(* ===================================================================== *)

Lemma monitor_loop_findings env n i cs findings w :
  ∃ new,
    fst (monitor_loop env n i cs findings w) = findings ++ new
    ∧ (f_competitor <$> new)
      `sublist_of` ((λ c, set_last_checked c (now env)) <$> cs).
Proof.
  revert i findings w.
  induction cs as [|competitor cs IH]; intros i findings w.
  { exists []. by rewrite app_nil_r. }
  simpl.
  destruct (monitor_competitor env (log w (Checking (name competitor))) competitor)
    as [outcome w'] eqn:Hrun.
  assert (∀ i w'',
            ∃ new,
              fst (monitor_loop env n i cs findings w'') = findings ++ new
              ∧ (f_competitor <$> new)
                `sublist_of` ((λ c, set_last_checked c (now env)) <$> competitor :: cs))
    as Hskip.
  { intros i' w''. destruct (IH i' findings w'') as (new & -> & Hsub).
    exists new. split; [done|]. rewrite fmap_cons. by apply sublist_cons. }
  destruct outcome as [[finding|]|e]; [| |by apply Hskip].
  - apply monitor_competitor_stamps in Hrun.
    assert (∀ i w'',
              ∃ new,
                fst (monitor_loop env n i cs (findings ++ [finding]) w'')
                = findings ++ new
                ∧ (f_competitor <$> new)
                  `sublist_of` ((λ c, set_last_checked c (now env))
                                  <$> competitor :: cs)) as Hkeep.
    { intros i' w''. destruct (IH i' (findings ++ [finding]) w'') as (new & -> & Hsub).
      exists (finding :: new). split; [by rewrite <- app_assoc|].
      rewrite !fmap_cons, Hrun. by apply sublist_skip. }
    unfold sleep. repeat case_match; simplify_eq; by apply Hkeep.
  - unfold sleep. repeat case_match; simplify_eq; by apply Hskip.
Qed.

(** X23. The findings of a batch: [monitor_all] returns at most one
    finding for each enabled competitor, in the order of the list, none for
    a disabled one, and each names the competitor it is about, stamped with
    the time of the check. *)
Theorem batch_findings (env : Env) (w : World) :
  (f_competitor <$> fst (monitor_all env w))
  `sublist_of` ((λ c, set_last_checked c (now env))
                  <$> filter (λ c, enabled c = true) (competitors w))
  ∧ (length (fst (monitor_all env w))
     ≤ length (filter (λ c, enabled c = true) (competitors w)))%nat
  ∧ Forall (λ f, enabled (f_competitor f) = true
                 ∧ last_checked (f_competitor f) = Some (now env)
                 ∧ ∃ c, c ∈ competitors w ∧ name c = name (f_competitor f))
      (fst (monitor_all env w)).
Proof.
  unfold monitor_all.
  destruct (monitor_loop_findings env
              (length (filter (λ c, enabled c = true) (competitors w))) 1
              (filter (λ c, enabled c = true) (competitors w)) [] w)
    as (new & Hnew & Hsub).
  rewrite Hnew, app_nil_l. split; [done|]. split.
  - apply sublist_length in Hsub. by rewrite !length_fmap in Hsub.
  - apply Forall_forall. intros f Hf.
    assert (f_competitor f ∈ f_competitor <$> new) as Hin
      by by apply list_elem_of_fmap_2.
    eapply elem_of_sublist in Hin; [|done].
    apply list_elem_of_fmap in Hin as (c & -> & [Hen Hc]%list_elem_of_filter).
    split; [done|]. split; [done|]. by exists c.
Qed.

(* ===================================================================== *)
(** * A competitor that was switched off *)
(* ===================================================================== *)

Lemma find_same_name who before c after :
  Forall (λ c', same_name who c' = false) before →
  same_name who c = true →
  List.find (same_name who) (before ++ c :: after) = Some c.
Proof.
  intros Hb Hc. induction Hb as [|c' before Hc' _ IH]; simpl.
  - by rewrite Hc.
  - by rewrite Hc'.
Qed.

Lemma distinct_names_only who before c after c' :
  distinct_names (before ++ c :: after) →
  same_name who c = true →
  c' ∈ before ++ after →
  same_name who c' = false.
Proof.
  unfold distinct_names. rewrite fmap_app, fmap_cons.
  intros Hd Hc Hin. apply same_name_true in Hc. apply same_name_false.
  intros Hsame.
  apply NoDup_app in Hd as (_ & Hcross & [Hfresh _]%NoDup_cons).
  apply elem_of_app in Hin as [Hin|Hin].
  - apply (Hcross (PyStr.lower (name c'))); [apply list_elem_of_fmap; by exists c'|].
    apply elem_of_cons. left. congruence.
  - apply Hfresh. rewrite Hc, <- Hsame. apply list_elem_of_fmap. by exists c'.
Qed.

(** X24. Switching a competitor off takes it out of every check: when
    the names of the list are distinct, letter case apart, and
    [toggle_competitor] answered that the competitor is now disabled, then
    [check_single_competitor] refuses to check it and changes nothing, and
    a batch does not check it and leaves its stored fingerprints and its
    trend record as they are. *)
Theorem switched_off_is_skipped (env : Env) (w : World) (who : string)
    (roster : list CompetitorConfig) :
  distinct_names (competitors w) →
  toggle_competitor who (competitors w) = (Toggled false, roster) →
  let w' := set_competitors w roster in
  check_single_competitor env who w' = (Ok CheckDisabled, w')
  ∧ ∀ c, c ∈ roster → PyStr.lower (name c) = PyStr.lower who →
         enabled c = false
         ∧ (name c ∉ checks (new_events w' (snd (monitor_all env w'))))
         ∧ cached (cache (snd (monitor_all env w'))) (name c) = cached (cache w) (name c)
         ∧ trends (snd (monitor_all env w')) !! name c = trends w !! name c.
Proof.
  intros Hd Htoggle. cbv zeta.
  unfold toggle_competitor in Htoggle.
  destruct (toggle_first who (competitors w)) as [[b cs']|] eqn:Hfirst; [|done].
  injection Htoggle as -> ->.
  destruct (toggle_first_some _ _ _ _ Hfirst)
    as (before & c0 & after & Hroster & Hb & Hc0 & Hoff & ->).
  rewrite Hroster in Hd.
  set (w' := set_competitors w (before ++ set_enabled c0 false :: after)).
  assert (∀ c, c ∈ before ++ set_enabled c0 false :: after →
               PyStr.lower (name c) = PyStr.lower who →
               c = set_enabled c0 false) as Honly.
  { intros c Hin Hsame. apply elem_of_app in Hin as [Hin|[->|Hin]%elem_of_cons];
      [|done|].
    - assert (same_name who c = false) as Hno
        by (eapply distinct_names_only; [done|done|apply elem_of_app; by left]).
      apply same_name_false in Hno. done.
    - assert (same_name who c = false) as Hno
        by (eapply distinct_names_only; [done|done|apply elem_of_app; by right]).
      apply same_name_false in Hno. done. }
  split.
  - unfold check_single_competitor. cbn [competitors w' set_competitors].
    rewrite (find_same_name who before (set_enabled c0 false) after); done.
  - intros c Hin Hsame. rewrite (Honly c Hin Hsame). cbn [enabled set_enabled name].
    assert (name c0 ∉ name <$> filter (λ c, enabled c = true) (competitors w'))
      as Hout.
    { intros (c' & Hname & [Hen Hc']%list_elem_of_filter)%list_elem_of_fmap.
      cbn [competitors w' set_competitors] in Hc'.
      assert (c' = set_enabled c0 false) as ->.
      { apply Honly; [done|]. rewrite <- Hname. by apply same_name_true. }
      done. }
    split; [done|]. split.
    + unfold monitor_all.
      destruct (monitor_loop_trace env
                  (length (filter (λ c, enabled c = true) (competitors w'))) 1
                  (filter (λ c, enabled c = true) (competitors w')) [] w')
        as (evs & Htrace & Hbatch); [simpl; lia|].
      unfold new_events. rewrite Htrace, drop_app_length.
      by rewrite (batch_trace_checks _ _ _ Hbatch).
    + change (cache w) with (cache w'). change (trends w) with (trends w').
      unfold monitor_all. by apply monitor_loop_others.
Qed.

Lemma switched_off_is_skipped_witness :
  distinct_names (competitors two_competitors)
  ∧ toggle_competitor "ACME" (competitors two_competitors)
    = (Toggled false, [set_enabled acme false; linear])
  ∧ check_single_competitor demo_env "ACME"
      (set_competitors two_competitors [set_enabled acme false; linear])
    = (Ok CheckDisabled,
       set_competitors two_competitors [set_enabled acme false; linear])
  ∧ new_events (set_competitors two_competitors [set_enabled acme false; linear])
      (snd (monitor_all demo_env
              (set_competitors two_competitors [set_enabled acme false; linear])))
    = [Checking "Linear"].
Proof.
  assert (distinct_names (competitors two_competitors)) as Hd.
  { unfold distinct_names. apply (bool_decide_unpack _). by vm_compute. }
  assert (toggle_competitor "ACME" (competitors two_competitors)
          = (Toggled false, [set_enabled acme false; linear])) as Htoggle
    by by vm_compute.
  split; [exact Hd|]. split; [exact Htoggle|]. split; [|by vm_compute].
  exact (proj1 (switched_off_is_skipped demo_env two_competitors "ACME" _ Hd Htoggle)).
Defined.
